(** * matcha: byte buffer, TLV / Apollo codecs, ack manager and duplex pipeline

    A shallow embedding of the Go sources
      - buffer   (ByteBuf, elasticUnsafeByteBuf),
      - codec    (TLVFrameDecoder, TLVFrameEncoder, ApolloFrameDecoder,
                  ApolloFrameEncoder, the string codec),
      - peer     (SafeAckManager, duplexPipeline, pipelineChannel),
      - util     (byteSliceBitSet),
    together with the properties stated about them.

    Conventions.
      - Go [int] is modelled by [Z] (the 64-bit targets, where a slice may be
        longer than 2^32 bytes); [uint32] arithmetic is written with its
        wrap-around modulo 2^32.
      - a byte slice obtained from [make] is a [list byte] whose length is at
        the same time its [len] and its [cap].
      - a run-time panic (slice bounds out of range, send on a closed
        channel) is an explicit outcome, never a missing case. *)

From Stdlib Require Import ZArith Lia Bool.
From Stdlib Require Import Strings.Byte.
From stdpp Require Import base option list strings pretty gmap.

Local Open Scope Z_scope.

(** * Part I: the model *)

(** ** Go slices of bytes *)

#[global] Instance byte_eq_dec : EqDecision byte := Byte.byte_eq_dec.

Module Slice.

(** [make([]byte, n)]: [n] zero bytes; a negative [n] panics.  The runtime
    also panics when [n] bytes cannot be allocated.  That limit is not
    modelled: the value is what [make] delivers when they can be, and a
    buffer that a statement starts from is one that was allocated.  Where
    [n] comes from a caller (in [ReadBytes], in the growth of the bit set),
    what is stated of the code bounds it by the size of an array already
    held, or is about the calls that return. *)
Definition make (n : Z) : option (list byte) :=
  if n <? 0 then None else Some (replicate (Z.to_nat n) x00).

(** [len(s)] as a Go [int]. *)
Definition len (s : list byte) : Z := Z.of_nat (length s).

(** [s[lo:hi]]: panics unless [0 <= lo <= hi <= cap(s)]. *)
Definition slice (s : list byte) (lo hi : Z) : option (list byte) :=
  if (0 <=? lo) && (lo <=? hi) && (hi <=? len s)
  then Some (take (Z.to_nat (hi - lo)) (drop (Z.to_nat lo) s))
  else None.

(** [s[lo:]]. *)
Definition slice_from (s : list byte) (lo : Z) : option (list byte) :=
  slice s lo (len s).

(** [copy(dst, src)]: the first [min(len(dst), len(src))] elements of [dst]
    are overwritten; the value is the new content of [dst]. *)
Definition copy (dst src : list byte) : list byte :=
  take (length dst) src ++ drop (length src) dst.

End Slice.

(** ** buffer.elasticUnsafeByteBuf (package buffer) *)

Module ByteBuf.
Import Slice.

Record elasticUnsafeByteBuf := mkBuf {
  buffer : list byte;
  readIndex : Z;
  writeIndex : Z;
  capacity : Z
}.

Definition calcReadableBytes (pb : elasticUnsafeByteBuf) : Z :=
  writeIndex pb - readIndex pb.

Definition calcWritableBytes (pb : elasticUnsafeByteBuf) : Z :=
  capacity pb - writeIndex pb.

Definition ReadableBytes := calcReadableBytes.
Definition WritableBytes := calcWritableBytes.
Definition ReadIndex := readIndex.
Definition WriteIndex := writeIndex.
Definition Capacity := capacity.

(** [float32(v)] for a non-negative integer [v]: the nearest value with a
    24-bit significand, ties to even. *)
Definition f32_round (v : Z) : Z :=
  if v <? 2 ^ 24 then v
  else
    let e := Z.log2 v - 23 in
    let q := v / 2 ^ e in
    let r := v mod 2 ^ e in
    let half := 2 ^ (e - 1) in
    if (half <? r) || ((r =? half) && Z.odd q) then (q + 1) * 2 ^ e
    else q * 2 ^ e.

(** The [float32] constant [1.2] is [10066330 / 2^23]. *)
Definition f32_1_2_num : Z := 10066330.

(** [int(float32(x) * 1.2)]: the product is rounded to [float32] again and
    the conversion to [int] truncates toward zero. *)
Definition growSize (x : Z) : Z :=
  Z.sgn x * (f32_round (f32_round (Z.abs x) * f32_1_2_num) / 2 ^ 23).

(** [ReadBytes(length)]. *)
Definition ReadBytes (pb : elasticUnsafeByteBuf) (length : Z)
  : option (list byte * elasticUnsafeByteBuf) :=
  if length <? 0 then Some ([], pb)
  else
    result ← make length;
    let targetReadIndex :=
      if readIndex pb + length <=? writeIndex pb
      then readIndex pb + length
      else writeIndex pb in
    src ← slice (buffer pb) (readIndex pb) targetReadIndex;
    Some (copy result src,
          mkBuf (buffer pb) targetReadIndex (writeIndex pb) (capacity pb)).

(** [WriteBytes(bytes)]. *)
Definition WriteBytes (pb : elasticUnsafeByteBuf) (bytes : list byte)
  : option elasticUnsafeByteBuf :=
  let writeSize := len bytes in
  if writeSize =? 0 then Some pb
  else
    pb1 ← (if calcWritableBytes pb <? writeSize then
             let newSize := growSize (writeSize + writeIndex pb) in
             newBuffer ← make newSize;
             Some (mkBuf (copy newBuffer (buffer pb))
                         (readIndex pb) (writeIndex pb) newSize)
           else Some pb);
    dst ← slice_from (buffer pb1) (writeIndex pb1);
    Some (mkBuf (take (Z.to_nat (writeIndex pb1)) (buffer pb1) ++ copy dst bytes)
                (readIndex pb1) (writeIndex pb1 + writeSize) (capacity pb1)).

(** [Reset()]. *)
Definition Reset (pb : elasticUnsafeByteBuf) : elasticUnsafeByteBuf :=
  mkBuf (buffer pb) 0 0 (capacity pb).

(** [Write(p)]: the [io.Writer] side, [(n, err) = (len(p), nil)]. *)
Definition Write (pb : elasticUnsafeByteBuf) (p : list byte)
  : option (Z * elasticUnsafeByteBuf) :=
  pb' ← WriteBytes pb p; Some (len p, pb').

(** [Read(p)]: the [io.Reader] side.  The value is [(n, eof, p', pb')]. *)
Definition Read (pb : elasticUnsafeByteBuf) (p : list byte)
  : option (Z * bool * list byte * elasticUnsafeByteBuf) :=
  let readSize :=
    if len p <? calcReadableBytes pb then len p else calcReadableBytes pb in
  if readSize =? 0 then Some (0, true, p, pb)
  else
    '(result, pb') ← ReadBytes pb readSize;
    Some (readSize, false, copy p result, pb').

(** [Release()]: the new backing array has [capacity - readIndex] bytes;
    the [capacity] field is left as it was. *)
Definition Release (pb : elasticUnsafeByteBuf) : option elasticUnsafeByteBuf :=
  newBuffer ← make (capacity pb - readIndex pb);
  src ← slice (buffer pb) (readIndex pb) (writeIndex pb);
  Some (mkBuf (copy newBuffer src) 0 (writeIndex pb - readIndex pb) (capacity pb)).

(** [NewElasticUnsafeByteBuf(initSize)]. *)
Definition NewElasticUnsafeByteBuf (initSize : Z) : elasticUnsafeByteBuf :=
  let initSize := if initSize <? 0 then 0 else initSize in
  mkBuf (replicate (Z.to_nat initSize) x00) 0 0 initSize.

(** The readable region [[r, w)] of the backing array. *)
Definition readable (pb : elasticUnsafeByteBuf) : list byte :=
  take (Z.to_nat (writeIndex pb - readIndex pb))
       (drop (Z.to_nat (readIndex pb)) (buffer pb)).

(** The index invariant of the interface comment,
    [0 <= readerIndex <= writerIndex <= capacity], with [capacity] the size
    of the backing array. *)
Definition wf (pb : elasticUnsafeByteBuf) : Prop :=
  0 <= readIndex pb /\ readIndex pb <= writeIndex pb /\
  writeIndex pb <= capacity pb /\ len (buffer pb) = capacity pb.

(** The weaker condition that reads do not leave the backing array. *)
Definition in_bounds (pb : elasticUnsafeByteBuf) : Prop :=
  0 <= readIndex pb /\ readIndex pb <= writeIndex pb /\
  writeIndex pb <= len (buffer pb).

End ByteBuf.

(** Sequences of buffer operations, as a caller issues them. *)
Module BufOps.
Import ByteBuf.

Inductive bufOp :=
| OpWrite (bytes : list byte)
| OpReadBytes (length : Z)
| OpRelease.

(** Runs the operations in order; the value lists what each [ReadBytes]
    returned.  [None] is a panic. *)
Fixpoint runOps (pb : elasticUnsafeByteBuf) (ops : list bufOp)
  : option (list (list byte) * elasticUnsafeByteBuf) :=
  match ops with
  | [] => Some ([], pb)
  | OpWrite bytes :: ops' => pb' ← WriteBytes pb bytes; runOps pb' ops'
  | OpReadBytes n :: ops' =>
      '(bs, pb') ← ReadBytes pb n;
      '(rs, pb'') ← runOps pb' ops';
      Some (bs :: rs, pb'')
  | OpRelease :: ops' => pb' ← Release pb; runOps pb' ops'
  end.

End BufOps.

(** ** Errors and dynamically typed values *)

(** The [error] values of the packages: [codec.DecodeError],
    [codec.EncodeError] and the [errors.New] strings.  A nil [error] is
    [None : option error]. *)
Inductive error :=
| DecodeError (decoder msg : string)
| EncodeError (encoder msg : string)
| ErrorString (s : string).

(** An [interface{}] value by its dynamic type: a [[]byte] or a value of any
    other type.  The nil interface is [None : option any]. *)
Inductive any :=
| AnyBytes (bs : list byte)
| AnyOther (v : Z).

(** ** encoding/binary, big endian *)

Module Binary.

Definition byte_to_Z (b : byte) : Z := Z.of_N (Byte.to_N b).

(** The conversion [byte(v)] of an unsigned integer keeps the low 8 bits. *)
Definition byte_of_Z (v : Z) : byte :=
  default x00 (Byte.of_N (Z.to_N (v mod 256))).

(** [binary.BigEndian.PutUint32]. *)
Definition PutUint32 (v : Z) : list byte :=
  [byte_of_Z (Z.shiftr v 24); byte_of_Z (Z.shiftr v 16);
   byte_of_Z (Z.shiftr v 8); byte_of_Z v].

(** [binary.BigEndian.Uint32] on the first four bytes. *)
Definition Uint32 (b0 b1 b2 b3 : byte) : Z :=
  Z.lor (Z.lor (Z.lor (byte_to_Z b3) (Z.shiftl (byte_to_Z b2) 8))
               (Z.shiftl (byte_to_Z b1) 16))
        (Z.shiftl (byte_to_Z b0) 24).

(** [binary.BigEndian.PutUint16] and [Uint16]. *)
Definition PutUint16 (v : Z) : list byte :=
  [byte_of_Z (Z.shiftr v 8); byte_of_Z v].

Definition Uint16 (b0 b1 : byte) : Z :=
  Z.lor (byte_to_Z b1) (Z.shiftl (byte_to_Z b0) 8).

(** [binary.Read(bytes.NewReader(bs), binary.BigEndian, &v)] for [v uint8]:
    [io.ReadFull] of one byte. *)
Definition Read_uint8 (bs : list byte) : string + byte :=
  match bs with
  | [] => inl "EOF"
  | b :: _ => inr b
  end.

(** The same for [v uint32]: [io.ReadFull] of four bytes. *)
Definition Read_uint32 (bs : list byte) : string + Z :=
  match bs with
  | [] => inl "EOF"
  | b0 :: b1 :: b2 :: b3 :: _ => inr (Uint32 b0 b1 b2 b3)
  | _ => inl "unexpected EOF"
  end.

End Binary.

(** ** codec: TLV frames (net/tcp/codec/tlv.go) *)

Module TLV.
Import Slice ByteBuf Binary.

Definition TagSize : Z := 1.
Definition LengthSize : Z := 4.

Record TLVConfig := mkConfig {
  TagValue : byte;      (* uint8 *)
  FrameLimit : Z        (* uint32 *)
}.

Record TLVFrameDecoder := mkDecoder {
  Config : TLVConfig;
  hasTag : bool;
  hasLength : bool;
  tagValue : byte;
  lengthValue : Z
}.

(** The pair [(interface{}, error)] returned by [Decode]; the interface
    holds a [[]byte] or is nil. *)
Definition decodeRet : Type := option (list byte) * option error.

Definition resetBuffer (c : TLVFrameDecoder) : TLVFrameDecoder :=
  mkDecoder (Config c) false false x00 0.

Definition decodeSuccess (c : TLVFrameDecoder) (result : option (list byte))
  : decodeRet * TLVFrameDecoder :=
  match result with
  | Some _ => ((result, None), resetBuffer c)
  | None => ((result, None), c)
  end.

Definition decodeNothing (c : TLVFrameDecoder) : decodeRet * TLVFrameDecoder :=
  decodeSuccess c None.

Definition decodeFailure (c : TLVFrameDecoder) (cause : string)
  : decodeRet * TLVFrameDecoder :=
  ((None, Some (DecodeError "TLVFrameDecoder" cause)), c).

Definition NewTLVFrameDecoder (config : TLVConfig) : TLVFrameDecoder :=
  mkDecoder config false false x00 0.

(** A block of [Decode] either falls through to the next block or returns
    from the function. *)
Inductive flow (A R : Type) :=
| Next (a : A)
| Return (r : R).
Arguments Next {A R} a.
Arguments Return {A R} r.

Definition decodeState : Type := TLVFrameDecoder * elasticUnsafeByteBuf.
Definition decodeOut : Type := decodeRet * TLVFrameDecoder * elasticUnsafeByteBuf.

(** [// Parse T(tag)] *)
Definition parseTag (c : TLVFrameDecoder) (inb : elasticUnsafeByteBuf)
  : option (flow decodeState decodeOut) :=
  if negb (hasTag c) then
    if ReadableBytes inb <? TagSize then Some (Return (decodeNothing c, inb))
    else
      '(tmpBytes, inb) ← ReadBytes inb TagSize;
      match Read_uint8 tmpBytes with
      | inl err => Some (Return (decodeFailure c err, inb))
      | inr tag =>
          if bool_decide (tag ≠ TagValue (Config c))
          then Some (Return (decodeFailure c "illegal tag found", inb))
          else Some (Next (mkDecoder (Config c) true (hasLength c) tag
                                     (lengthValue c), inb))
      end
  else Some (Next (c, inb)).

(** [// Parse L(length)] *)
Definition parseLength (c : TLVFrameDecoder) (inb : elasticUnsafeByteBuf)
  : option (flow decodeState decodeOut) :=
  if hasTag c && negb (hasLength c) then
    if ReadableBytes inb <? LengthSize then Some (Return ((None, None), c, inb))
    else
      '(tmpBytes, inb) ← ReadBytes inb LengthSize;
      match Read_uint32 tmpBytes with
      | inl err => Some (Return (decodeFailure c err, inb))
      | inr length =>
          Some (Next (mkDecoder (Config c) (hasTag c) true (tagValue c) length,
                      inb))
      end
  else Some (Next (c, inb)).

(** [// Parse V(value)] and the final [return c.decodeNothing()]. *)
Definition parseValue (c : TLVFrameDecoder) (inb : elasticUnsafeByteBuf)
  : option decodeOut :=
  if hasTag c && hasLength c then
    if ReadableBytes inb <? lengthValue c then Some ((None, None), c, inb)
    else
      '(tmpBytes, inb) ← ReadBytes inb (lengthValue c);
      if (0 <? FrameLimit (Config c)) &&
         (FrameLimit (Config c) <? TagSize + LengthSize + len tmpBytes)
      then Some (decodeFailure c "frame size larger than limit", inb)
      else Some (decodeSuccess c (Some tmpBytes), inb)
  else Some (decodeNothing c, inb).

(** [TLVFrameDecoder.Decode]; [None] is a panic. *)
Definition Decode (c : TLVFrameDecoder) (inb : elasticUnsafeByteBuf)
  : option decodeOut :=
  f ← parseTag c inb;
  match f with
  | Return r => Some r
  | Next (c, inb) =>
      f ← parseLength c inb;
      match f with
      | Return r => Some r
      | Next (c, inb) => parseValue c inb
      end
  end.

Record TLVFrameEncoder := mkEncoder { EncConfig : TLVConfig }.

Definition NewTLVFrameEncoder (config : TLVConfig) : TLVFrameEncoder :=
  mkEncoder config.

(** The pair [([]byte, error)] returned by [Encode]. *)
Definition encodeRet : Type := option (list byte) * option error.

Definition encodeSuccess (result : list byte) : encodeRet := (Some result, None).

Definition encodeFailure (cause : string) : encodeRet :=
  (None, Some (EncodeError "TLVFrameEncoder" cause)).

(** [uint32(len(payload))]. *)
Definition payloadLength (payload : list byte) : Z := len payload mod 2 ^ 32.

(** [uint64(payloadLength + LengthSize + TagSize)]: the sum is a [uint32]. *)
Definition frameSize (payload : list byte) : Z :=
  (payloadLength payload + LengthSize + TagSize) mod 2 ^ 32.

(** [// Assemble]: the buffer after the three writes. *)
Definition assemble (c : TLVFrameEncoder) (payload : list byte)
  : option elasticUnsafeByteBuf :=
  let frameByteBuf := NewElasticUnsafeByteBuf (frameSize payload) in
  '(_, frameByteBuf) ← Write frameByteBuf [TagValue (EncConfig c)];
  '(_, frameByteBuf) ← Write frameByteBuf (PutUint32 (payloadLength payload));
  WriteBytes frameByteBuf payload.

(** [TLVFrameEncoder.Encode]; [None] is a panic. *)
Definition Encode (c : TLVFrameEncoder) (msg : any) : option encodeRet :=
  match msg with
  | AnyOther _ => Some (encodeFailure "can not transform input to []byte")
  | AnyBytes payload =>
      if (0 <? FrameLimit (EncConfig c)) &&
         (FrameLimit (EncConfig c) <? frameSize payload)
      then Some (encodeFailure
                   ("frame size " +:+ pretty (frameSize payload) +:+
                    " larger than limit " +:+ pretty (FrameLimit (EncConfig c))))
      else
        frameByteBuf ← assemble c payload;
        if negb (frameSize payload =? ReadableBytes frameByteBuf)
        then Some (encodeFailure "ByteBuf issue")
        else
          '(result, _) ← ReadBytes frameByteBuf (ReadableBytes frameByteBuf);
          Some (encodeSuccess result)
  end.

(** The read loop of the pipeline's connection reader:
[[
    for {
        result, err := cp.decoder.Decode(byteBuffer)
        if err != nil { cp.handler.ChannelError(cp.channel, err) }
        else if result != nil { cp.inboundDataC <- result }
        else { break }
    }
]]
    with what it hands over, in order. *)
Inductive emitted :=
| Frame (payload : list byte)
| Failed (err : error).

Inductive run (A : Type) :=
| Done (a : A)
| Panicked
| OutOfFuel.
Arguments Done {A} a.
Arguments Panicked {A}.
Arguments OutOfFuel {A}.

Fixpoint drain (fuel : nat) (c : TLVFrameDecoder) (inb : elasticUnsafeByteBuf)
  : run (list emitted * TLVFrameDecoder * elasticUnsafeByteBuf) :=
  match fuel with
  | O => OutOfFuel
  | S fuel =>
      match Decode c inb with
      | None => Panicked
      | Some ((_, Some err), c, inb) =>
          match drain fuel c inb with
          | Done (out, c, inb) => Done (Failed err :: out, c, inb)
          | r => r
          end
      | Some ((Some result, None), c, inb) =>
          match drain fuel c inb with
          | Done (out, c, inb) => Done (Frame result :: out, c, inb)
          | r => r
          end
      | Some ((None, None), c, inb) => Done ([], c, inb)
      end
  end.

(** One arrival of bytes: append them to the input buffer, then drain. *)
Definition feed (fuel : nat) (c : TLVFrameDecoder) (inb : elasticUnsafeByteBuf)
    (chunk : list byte)
  : run (list emitted * TLVFrameDecoder * elasticUnsafeByteBuf) :=
  match WriteBytes inb chunk with
  | None => Panicked
  | Some inb => drain fuel c inb
  end.

(** The arrivals one after the other; the value lists what each arrival
    handed over. *)
Fixpoint feedAll (fuel : nat) (c : TLVFrameDecoder) (inb : elasticUnsafeByteBuf)
    (chunks : list (list byte))
  : run (list (list emitted) * TLVFrameDecoder * elasticUnsafeByteBuf) :=
  match chunks with
  | [] => Done ([], c, inb)
  | chunk :: chunks =>
      match feed fuel c inb chunk with
      | Done (out, c, inb) =>
          match feedAll fuel c inb chunks with
          | Done (outs, c, inb) => Done (out :: outs, c, inb)
          | r => r
          end
      | Panicked => Panicked
      | OutOfFuel => OutOfFuel
      end
  end.

End TLV.

(** ** TLV: the wire image of a frame and the decoder's progress *)

Module TLVSpec.
Import Slice ByteBuf Binary TLV.

(** [TAG(1) | LENGTH(4, big endian) | VALUE]. *)
Definition frame (cfg : TLVConfig) (payload : list byte) : list byte :=
  TagValue cfg :: PutUint32 (len payload) ++ payload.

(** The payloads the encoder accepts: the length field and the frame size
    fit 32 bits and the frame is within the limit, if there is one. *)
Definition encodable (cfg : TLVConfig) (payload : list byte) : Prop :=
  len payload + 5 < 2 ^ 32 /\
  (0 < FrameLimit cfg -> len payload + 5 <= FrameLimit cfg).

(** The header bytes a decoder has consumed and latched. *)
Inductive latched (cfg : TLVConfig) : TLVFrameDecoder -> list byte -> Prop :=
| latched_none tv lv :
    latched cfg (mkDecoder cfg false false tv lv) []
| latched_tag lv :
    latched cfg (mkDecoder cfg true false (TagValue cfg) lv) [TagValue cfg]
| latched_length b0 b1 b2 b3 :
    latched cfg (mkDecoder cfg true true (TagValue cfg) (Uint32 b0 b1 b2 b3))
            [TagValue cfg; b0; b1; b2; b3].

(** The bytes that arrived and were not yet handed over as a frame. *)
Definition pending (cfg : TLVConfig) (c : TLVFrameDecoder)
    (inb : elasticUnsafeByteBuf) (s : list byte) : Prop :=
  in_bounds inb /\ exists h, latched cfg c h /\ s = h ++ readable inb.

End TLVSpec.

Module TLVStream.
Import Slice ByteBuf Binary TLV TLVSpec.

(** The concatenated wire image of a sequence of payloads. *)
Definition wire (cfg : TLVConfig) (payloads : list (list byte)) : list byte :=
  concat (map (frame cfg) payloads).

(** What is pending after a drain: nothing, or a proper prefix of the next
    frame. *)
Definition awaiting (cfg : TLVConfig) (t : list byte)
    (payloads : list (list byte)) : Prop :=
  t = [] \/
  exists p ps u, payloads = p :: ps /\ u <> [] /\ t ++ u = frame cfg p.

End TLVStream.

(** ** codec: Apollo frames, typed messages on top of TLV *)

(** [DecodeError.Error()], [EncodeError.Error()] and the [errors.New]
    string. *)
Definition Error (e : error) : string :=
  match e with
  | DecodeError decoder msg =>
      (if bool_decide (decoder = "") then "" else decoder +:+ " ") +:+
      "decode error" +:+
      (if bool_decide (msg = "") then "" else " cause " +:+ msg)
  | EncodeError encoder msg =>
      (if bool_decide (encoder = "") then "" else encoder +:+ " ") +:+
      "encode error" +:+
      (if bool_decide (msg = "") then "" else " cause " +:+ msg)
  | ErrorString s => s
  end.

Module Apollo.
Import Slice ByteBuf Binary TLV.

Section WithEntities.
(** The non-nil [ApolloEntity] values, with their [TypeCode()] (a
    [uint16]) and [msgpack.Unmarshal(data, entity)], which fills the entity
    or fails. *)
Variable Entity : Type.
Variable TypeCode : Entity -> Z.
Variable Unmarshal : list byte -> Entity -> error + Entity.

(** [ApolloConfig]: the embedded [TLVConfig] and
    [entityConstructors map[uint16]func() ApolloEntity]; a stored
    constructor is a non-nil func, given by the interface value it returns
    ([None] is the nil interface). *)
Record ApolloConfig := mkApolloConfig {
  tlvConfig : TLVConfig;
  entityConstructors : gmap Z (option Entity)
}.

(** [RegisterEntity(constructor)]; the argument [None] is a nil func. *)
Definition RegisterEntity (c : ApolloConfig) (ctor : option (option Entity))
  : ApolloConfig :=
  match ctor with
  | Some (Some testEntity as k) =>
      mkApolloConfig (tlvConfig c)
                     (<[TypeCode testEntity := k]> (entityConstructors c))
  | _ => c
  end.

(** [createEntity(typeCode)]: a missing key reads as the nil func. *)
Definition createEntity (c : ApolloConfig) (typeCode : Z) : option Entity :=
  match entityConstructors c !! typeCode with
  | Some ctor => ctor
  | None => None
  end.

Record ApolloFrameDecoder := mkApolloDecoder {
  Config : ApolloConfig;
  tlvDecoder : option TLVFrameDecoder
}.

Definition NewApolloFrameDecoder (config : ApolloConfig) : ApolloFrameDecoder :=
  mkApolloDecoder config None.

(** The pair [(interface{}, error)] returned by [Decode]; the interface
    holds an entity or is nil. *)
Definition apolloRet : Type := option Entity * option error.

Definition apolloNothing : apolloRet := (None, None).

Definition apolloFailure (cause : string) : apolloRet :=
  (None, Some (DecodeError "ApolloFrameDecoder" cause)).

Definition initTLVDecoder (d : ApolloFrameDecoder) : TLVFrameDecoder :=
  match tlvDecoder d with
  | Some c => c
  | None => NewTLVFrameDecoder (tlvConfig (Config d))
  end.

(** [binary.Read(buf, binary.BigEndian, &typeCode)] with [typeCode]
    initially 0: [io.ReadFull] calls [buf.Read] until two bytes are there
    or an error comes back; on error [typeCode] is left at 0. *)
Definition Read_typeCode (pb : elasticUnsafeByteBuf)
  : option (Z * elasticUnsafeByteBuf) :=
  match Read pb [x00; x00] with
  | None => None
  | Some (n, eof, p, pb) =>
      if (eof : bool) then Some (0, pb)
      else if n =? 2 then
        match p with
        | [b0; b1] => Some (Uint16 b0 b1, pb)
        | _ => Some (0, pb)
        end
      else
        '(_, pb) ← Read pb [x00];
        Some (0, pb)
  end.

(** [ApolloFrameDecoder.Decode]; [None] is a panic. *)
Definition Decode (d : ApolloFrameDecoder) (inb : elasticUnsafeByteBuf)
  : option (apolloRet * ApolloFrameDecoder * elasticUnsafeByteBuf) :=
  if ReadableBytes inb =? 0 then Some (apolloNothing, d, inb)
  else
    let c := initTLVDecoder d in
    '(r, c, inb) ← TLV.Decode c inb;
    let d := mkApolloDecoder (Config d) (Some c) in
    match r with
    | (None, None) => Some (apolloNothing, d, inb)
    | (_, Some tlvErr) => Some (apolloFailure (Error tlvErr), d, inb)
    | (Some tlvPayload, None) =>
        tlvPayloadByteBuffer ←
          WriteBytes (NewElasticUnsafeByteBuf (len tlvPayload)) tlvPayload;
        if ReadableBytes tlvPayloadByteBuffer <? 2
        then Some (apolloFailure "illegal payload", d, inb)
        else
          '(typeCode, tlvPayloadByteBuffer) ← Read_typeCode tlvPayloadByteBuffer;
          '(serializedBytes, _) ←
            ReadBytes tlvPayloadByteBuffer (ReadableBytes tlvPayloadByteBuffer);
          match createEntity (Config d) typeCode with
          | Some entity =>
              match Unmarshal serializedBytes entity with
              | inl unmarshalErr =>
                  Some (apolloFailure (Error unmarshalErr), d, inb)
              | inr entity => Some ((Some entity, None), d, inb)
              end
          | None => Some (apolloNothing, d, inb)
          end
    end.

(** The bytes that arrived at an Apollo decoder and were not yet consumed
    as a frame. *)
Definition apolloPending (d : ApolloFrameDecoder) (inb : elasticUnsafeByteBuf)
    (s : list byte) : Prop :=
  TLVSpec.pending (tlvConfig (Config d)) (initTLVDecoder d) inb s.

End WithEntities.

Arguments mkApolloConfig {Entity} tlvConfig entityConstructors.
Arguments tlvConfig {Entity} a.
Arguments entityConstructors {Entity} a.
Arguments RegisterEntity {Entity} TypeCode c ctor.
Arguments createEntity {Entity} c typeCode.
Arguments mkApolloDecoder {Entity} Config tlvDecoder.
Arguments Config {Entity} a.
Arguments tlvDecoder {Entity} a.
Arguments NewApolloFrameDecoder {Entity} config.
Arguments apolloNothing {Entity}.
Arguments apolloFailure {Entity} cause.
Arguments initTLVDecoder {Entity} d.
Arguments Decode {Entity} Unmarshal d inb.
Arguments apolloPending {Entity} d inb s.

End Apollo.

(** ** Go channels, as far as one goroutine at a time sees them *)

Module Chan.

Record chan (A : Type) := mkChan {
  queue : list A;     (* the buffered elements, oldest first *)
  cap : nat;
  closed : bool
}.
Arguments mkChan {A} queue cap closed.
Arguments queue {A} c.
Arguments cap {A} c.
Arguments closed {A} c.

(** What an operation that may block or panic does. *)
Inductive outcome (A : Type) :=
| Returns (a : A)
| Blocks
| Panics.
Arguments Returns {A} a.
Arguments Blocks {A}.
Arguments Panics {A}.

(** [make(chan A, n)]. *)
Definition make {A} (n : nat) : chan A := mkChan [] n false.

(** [c <- v] with no receiver waiting: a nil channel blocks for ever, a
    closed one panics, a full one blocks. *)
Definition send {A} (c : option (chan A)) (v : A) : outcome (chan A) :=
  match c with
  | None => Blocks
  | Some c =>
      if closed c then Panics
      else if bool_decide (length (queue c) < cap c)%nat
           then Returns (mkChan (queue c ++ [v]) (cap c) (closed c))
           else Blocks
  end.

(** [v, ok := <-c] with no sender waiting; on a closed and drained channel
    the value is [None] (the zero value, [ok = false]). *)
Definition recv {A} (c : option (chan A)) : outcome (option A * chan A) :=
  match c with
  | None => Blocks
  | Some c =>
      match queue c with
      | v :: q => Returns (Some v, mkChan q (cap c) (closed c))
      | [] => if closed c then Returns (None, c) else Blocks
      end
  end.

(** [close(c)]: panics on a nil or closed channel. *)
Definition close {A} (c : option (chan A)) : option (chan A) :=
  match c with
  | None => None
  | Some c => if closed c then None else Some (mkChan (queue c) (cap c) true)
  end.

End Chan.

(** ** peer: SafeAckManager (net/tcp/peer/ack.go) *)

Module Ack.
Import Chan.

Definition AckTimeoutError : error := ErrorString "ack timeout".

Section WithKeys.
(** The non-nil keys (comparable values) and the non-nil data values; a nil
    [interface{}] is [None]. *)
Context {K : Type} `{Countable K}.
Variable V : Type.

Record ackRespEntity := mkResp {
  data : option V;
  err : option error
}.

(** [ackRespChanMap sync.Map], holding an [ackRespChan] for each key. *)
Record SafeAckManager := mkManager {
  ackRespChanMap : gmap K (chan ackRespEntity)
}.

Definition NewAckManager : SafeAckManager := mkManager ∅.

(** [InitAck(key)]. *)
Definition InitAck (m : SafeAckManager) (key : option K) : SafeAckManager :=
  match key with
  | None => m
  | Some k =>
      match ackRespChanMap m !! k with
      | Some _ => m
      | None => mkManager (<[k := make 2]> (ackRespChanMap m))
      end
  end.

(** [CommitAck(key, data)]. *)
Definition CommitAck (m : SafeAckManager) (key : option K) (d : option V)
  : outcome SafeAckManager :=
  match key with
  | None => Returns m
  | Some k =>
      match ackRespChanMap m !! k with
      | Some c =>
          match send (Some c) (mkResp d None) with
          | Returns c' => Returns (mkManager (<[k := c']> (ackRespChanMap m)))
          | Blocks => Blocks
          | Panics => Panics
          end
      | None => Returns m
      end
  end.

(** [WaitAck(key, timeout)] when no other goroutine commits meanwhile.
    [timeout] is in nanoseconds; no timer is set unless it is positive.
    [timerFirst] says whether the [select] finds the timer expired and takes
    that case.  The deferred [Delete] runs when the function returns. *)
Definition WaitAck (m : SafeAckManager) (key : option K) (timeout : Z)
    (timerFirst : bool)
  : outcome (option V * option error * SafeAckManager) :=
  match key with
  | None => Returns (None, None, m)
  | Some k =>
      match ackRespChanMap m !! k with
      | Some c =>
          let m' := mkManager (delete k (ackRespChanMap m)) in
          if (0 <? timeout) && timerFirst
          then Returns (None, Some AckTimeoutError, m')
          else
            match recv (Some c) with
            | Returns (Some respEntity, _) =>
                Returns (data respEntity, err respEntity, m')
            | Returns (None, _) => Returns (None, None, m')
            | Blocks =>
                if 0 <? timeout
                then Returns (None, Some AckTimeoutError, m')
                else Blocks
            | Panics => Panics
            end
      | None => Returns (None, None, m)
      end
  end.

End WithKeys.

Arguments mkResp {V} data err.
Arguments data {V} a.
Arguments err {V} a.
Arguments mkManager {K _ _ V} ackRespChanMap.
Arguments ackRespChanMap {K _ _ V} s.
Arguments NewAckManager {K _ _ V}.
Arguments InitAck {K _ _ V} m key.
Arguments CommitAck {K _ _ V} m key d.
Arguments WaitAck {K _ _ V} m key timeout timerFirst.

End Ack.

(** ** peer: duplexPipeline (net/tcp/peer/pipeline.go) *)

Module Pipeline.
Import Chan.

(** State of pipeline. *)
Inductive pipelineState :=
| stateNew
| stateReady
| stateRunning
| stateShutdown.

#[global] Instance pipelineState_eq_dec : EqDecision pipelineState.
Proof. solve_decision. Defined.

Definition dataChanSize : nat := 10.
Definition cmdChanSize : nat := 2.

Definition NilConnError : error := ErrorString "conn is nil".
Definition NilDecoderError : error := ErrorString "decoder is nil".
Definition NilEncoderError : error := ErrorString "encoder is nil".
Definition NilHandlerError : error := ErrorString "handler is nil".

Section WithMessages.
(** The non-nil message values handed to [Send] and [SendFuture]; a nil
    [interface{}] is [None].  Callback closures are told apart by a
    number. *)
Variable Msg : Type.
(** [cp.encoder.Encode(data)] and [cp.conn.Write(encodeResult)]. *)
Variable Encode : Msg -> option (list byte) * option error.
Variable connWrite : option (list byte) -> Z * option error.

Record OutboundEntity := mkEntity {
  Data : Msg;
  Callback : option nat
}.

(** The fields of [duplexPipeline].  Of the collaborators only whether
    they are nil matters here. *)
Record duplexPipeline := mkPipeline {
  encoder : bool;                 (* encoder != nil *)
  decoder : bool;                 (* decoder != nil *)
  handler : bool;                 (* handler != nil *)
  conn : bool;                    (* conn != nil *)
  connClosed : bool;
  channel : bool;                 (* channel != nil *)
  state : pipelineState;
  stateWaitGroup : Z;
  inboundDataC : option (chan Msg);
  outboundDataC : option (chan OutboundEntity);
  inboundHandlerStopC : option (chan Z);
  outboundHandlerStopC : option (chan Z);
  connReadHandler : bool;         (* goroutine started, handle != nil *)
  inboundHandler : bool;
  outboundHandler : bool
}.

(** [&duplexPipeline{conn, decoder, encoder, handler}] of [InitPipeline]:
    every other field has its zero value. *)
Definition newPipeline (conn decoder encoder handler : bool) : duplexPipeline :=
  mkPipeline encoder decoder handler conn false false stateNew 0
             None None None None false false false.

(** [Init()]: the pipeline after the call and the error returned. *)
Definition Init (cp : duplexPipeline) : duplexPipeline * option error :=
  if bool_decide (state cp = stateNew) then
    if negb (conn cp) then (cp, Some NilConnError)
    else if negb (decoder cp) then (cp, Some NilDecoderError)
    else if negb (encoder cp) then (cp, Some NilEncoderError)
    else if negb (handler cp) then (cp, Some NilHandlerError)
    else
      (mkPipeline (encoder cp) (decoder cp) (handler cp) (conn cp)
                  (connClosed cp) true stateReady (stateWaitGroup cp)
                  (Some (make dataChanSize)) (Some (make dataChanSize))
                  (Some (make cmdChanSize)) (Some (make cmdChanSize))
                  (connReadHandler cp) (inboundHandler cp) (outboundHandler cp),
       None)
  else (cp, None).

(** The pipeline [InitPipeline] returns when all collaborators are there. *)
Definition readyPipeline : duplexPipeline :=
  (Init (newPipeline true true true true)).1.

(** [Start()]. *)
Definition Start (cp : duplexPipeline) : duplexPipeline * option error :=
  if bool_decide (state cp ≠ stateReady) then (cp, None)
  else
    (mkPipeline (encoder cp) (decoder cp) (handler cp) (conn cp)
                (connClosed cp) (channel cp) stateRunning
                (stateWaitGroup cp + 1)
                (inboundDataC cp) (outboundDataC cp)
                (inboundHandlerStopC cp) (outboundHandlerStopC cp)
                true true true,
     None).

(** [Stop()], once the three joins have returned; [None] is a panic (the
    [close] of a nil or closed channel). *)
Definition Stop (cp : duplexPipeline) : option duplexPipeline :=
  if bool_decide (state cp ≠ stateRunning) then Some cp
  else
    inStop ← close (inboundHandlerStopC cp);
    outStop ← close (outboundHandlerStopC cp);
    inData ← close (inboundDataC cp);
    outData ← close (outboundDataC cp);
    Some (mkPipeline (encoder cp) (decoder cp) (handler cp) (conn cp)
                     true (channel cp) stateShutdown
                     (stateWaitGroup cp - 1)
                     (Some inData) (Some outData)
                     (Some inStop) (Some outStop)
                     false false false).

Definition IsRunning (cp : duplexPipeline) : bool :=
  bool_decide (state cp = stateRunning).

(** What the callers and the handler see happen. *)
Inductive event :=
| Invoked (callback : nat) (err : option error)
| ChannelError (err : error)
| Written (bytes : option (list byte)).

(** How a call ends, with what happened until then. *)
Inductive ending :=
| Returned (cp : duplexPipeline)
| Blocked
| Panicked.

Definition closedError : error := ErrorString "pipeline closed".

Definition withOutbound (cp : duplexPipeline) (c : chan OutboundEntity)
  : duplexPipeline :=
  mkPipeline (encoder cp) (decoder cp) (handler cp) (conn cp)
             (connClosed cp) (channel cp) (state cp) (stateWaitGroup cp)
             (inboundDataC cp) (Some c)
             (inboundHandlerStopC cp) (outboundHandlerStopC cp)
             (connReadHandler cp) (inboundHandler cp) (outboundHandler cp).

(** [SendFuture(msg, callback)], with no receiver waiting on the
    outbound queue. *)
Definition SendFuture (cp : duplexPipeline) (msg : option Msg)
    (callback : option nat) : list event * ending :=
  match msg with
  | None => ([], Returned cp)
  | Some m =>
      let evs :=
        if bool_decide (state cp ≠ stateRunning) then
          match callback with
          | Some cb => [Invoked cb (Some closedError)]
          | None => []
          end
        else [] in
      match outboundDataC cp with
      | Some c =>
          match send (Some c) (mkEntity m callback) with
          | Returns c' => (evs, Returned (withOutbound cp c'))
          | Blocks => (evs, Blocked)
          | Panics => (evs, Panicked)
          end
      | None => (evs, Returned cp)
      end
  end.

(** The body of the [case outboundData := <-cp.outboundDataC] of
    [handleOutbound]. *)
Definition handleOutboundData (outboundData : OutboundEntity) : list event :=
  match Encode (Data outboundData) with
  | (_, Some encodeErr) =>
      ChannelError encodeErr ::
      match Callback outboundData with
      | Some cb => [Invoked cb (Some encodeErr)]
      | None => []
      end
  | (encodeResult, None) =>
      let '(_, writeErr) := connWrite encodeResult in
      Written encodeResult ::
      match Callback outboundData with
      | Some cb => [Invoked cb writeErr]
      | None => []
      end
  end.

(** One turn of the outbound worker's loop that takes the data case: the
    worker runs and an entry is queued. *)
Definition outboundTurn (cp : duplexPipeline)
  : option (list event * duplexPipeline) :=
  if outboundHandler cp then
    match outboundDataC cp with
    | Some c =>
        match queue c with
        | outboundData :: q =>
            Some (handleOutboundData outboundData,
                  withOutbound cp (mkChan q (cap c) (closed c)))
        | [] => None
        end
    | None => None
    end
  else None.

(** How often a callback was invoked. *)
Definition isInvocation (cb : nat) (e : event) : bool :=
  match e with
  | Invoked cb' _ => Nat.eqb cb' cb
  | _ => false
  end.

Definition invocations (cb : nat) (evs : list event) : nat :=
  length (List.filter (isInvocation cb) evs).

(** The callbacks of the queued outbound entries. *)
Definition queuedCallbacks (cp : duplexPipeline) : list nat :=
  match outboundDataC cp with
  | Some c => omap Callback (queue c)
  | None => []
  end.

(** The lifecycle calls, by any caller; the state mutex makes them take
    turns. *)
Inductive lifecycleCall := CallInit | CallStart | CallStop.

Definition call (cp : duplexPipeline) (op : lifecycleCall)
  : option duplexPipeline :=
  match op with
  | CallInit => Some (Init cp).1
  | CallStart => Some (Start cp).1
  | CallStop => Stop cp
  end.

(** The changes of state during a sequence of calls, in order;
    [None] is a panic. *)
Fixpoint transitions (cp : duplexPipeline) (ops : list lifecycleCall)
  : option (list (pipelineState * pipelineState)) :=
  match ops with
  | [] => Some []
  | op :: ops =>
      cp' ← call cp op;
      ts ← transitions cp' ops;
      Some (if bool_decide (state cp' = state cp) then ts
            else (state cp, state cp') :: ts)
  end.

(** The order of the states. *)
Definition edges : list (pipelineState * pipelineState) :=
  [(stateNew, stateReady); (stateReady, stateRunning);
   (stateRunning, stateShutdown)].

(** The edges still ahead of a state. *)
Definition edgesFrom (s : pipelineState) : list (pipelineState * pipelineState) :=
  match s with
  | stateNew => edges
  | stateReady => [(stateReady, stateRunning); (stateRunning, stateShutdown)]
  | stateRunning => [(stateRunning, stateShutdown)]
  | stateShutdown => []
  end.

(** What [Init] sets up stays in place while the pipeline is ready or
    running: the four channels exist and are open. *)
Definition channelsOpen (cp : duplexPipeline) : Prop :=
  match state cp with
  | stateReady | stateRunning =>
      (exists c, inboundDataC cp = Some c /\ closed c = false) /\
      (exists c, outboundDataC cp = Some c /\ closed c = false) /\
      (exists c, inboundHandlerStopC cp = Some c /\ closed c = false) /\
      (exists c, outboundHandlerStopC cp = Some c /\ closed c = false)
  | _ => True
  end.

(** What goes on around a caller blocked in [Send] on its result channel:
    turns of the outbound worker, lifecycle calls, and [SendFuture] calls of
    other goroutines, whose callbacks are other closures. *)
Inductive step (self : nat) : duplexPipeline -> list event -> duplexPipeline -> Prop :=
| step_turn cp evs cp' :
    outboundTurn cp = Some (evs, cp') -> step self cp evs cp'
| step_call cp op cp' :
    call cp op = Some cp' -> step self cp [] cp'
| step_send cp msg callback evs cp' :
    callback <> Some self ->
    SendFuture cp msg callback = (evs, Returned cp') ->
    step self cp evs cp'.

Inductive steps (self : nat) : duplexPipeline -> list event -> duplexPipeline -> Prop :=
| steps_nil cp : steps self cp [] cp
| steps_cons cp evs cp' evs' cp'' :
    step self cp evs cp' -> steps self cp' evs' cp'' ->
    steps self cp (evs ++ evs') cp''.

(** The error with which a callback was first invoked, if it was. *)
Fixpoint firstInvocation (cb : nat) (evs : list event) : option (option error) :=
  match evs with
  | [] => None
  | Invoked cb' err :: evs =>
      if Nat.eqb cb' cb then Some err else firstInvocation cb evs
  | _ :: evs => firstInvocation cb evs
  end.

(** How [Send] stands after [SendFuture]: it has the error its callback
    put on [sendResultChan], or it waits on the still empty channel, or
    [SendFuture] itself blocked or panicked. *)
Inductive sendEnding :=
| Received (err : option error) (cp : duplexPipeline)
| Waiting (cp : duplexPipeline)
| SendBlocked
| SendPanicked.

(** [Send(msg)] up to the receive from [sendResultChan]; [self] is the
    callback closure made for this call. *)
Definition Send (cp : duplexPipeline) (msg : option Msg) (self : nat)
  : list event * sendEnding :=
  match SendFuture cp msg (Some self) with
  | (evs, Returned cp') =>
      match firstInvocation self evs with
      | Some err => (evs, Received err cp')
      | None => (evs, Waiting cp')
      end
  | (evs, Blocked) => (evs, SendBlocked)
  | (evs, Panicked) => (evs, SendPanicked)
  end.

End WithMessages.

Arguments mkEntity {Msg} Data Callback.
Arguments Data {Msg} o.
Arguments Callback {Msg} o.
Arguments encoder {Msg} d.
Arguments decoder {Msg} d.
Arguments handler {Msg} d.
Arguments conn {Msg} d.
Arguments connClosed {Msg} d.
Arguments channel {Msg} d.
Arguments state {Msg} d.
Arguments stateWaitGroup {Msg} d.
Arguments inboundDataC {Msg} d.
Arguments outboundDataC {Msg} d.
Arguments inboundHandlerStopC {Msg} d.
Arguments outboundHandlerStopC {Msg} d.
Arguments connReadHandler {Msg} d.
Arguments inboundHandler {Msg} d.
Arguments outboundHandler {Msg} d.
Arguments newPipeline {Msg} conn decoder encoder handler.
Arguments Init {Msg} cp.
Arguments readyPipeline {Msg}.
Arguments Start {Msg} cp.
Arguments Stop {Msg} cp.
Arguments IsRunning {Msg} cp.
Arguments Returned {Msg} cp.
Arguments Blocked {Msg}.
Arguments Panicked {Msg}.
Arguments withOutbound {Msg} cp c.
Arguments SendFuture {Msg} cp msg callback.
Arguments handleOutboundData {Msg} Encode connWrite outboundData.
Arguments outboundTurn {Msg} Encode connWrite cp.
Arguments queuedCallbacks {Msg} cp.
Arguments call {Msg} cp op.
Arguments transitions {Msg} cp ops.
Arguments channelsOpen {Msg} cp.
Arguments step {Msg} Encode connWrite self _ _ _.
Arguments steps {Msg} Encode connWrite self _ _ _.
Arguments Received {Msg} err cp.
Arguments Waiting {Msg} cp.
Arguments SendBlocked {Msg}.
Arguments SendPanicked {Msg}.
Arguments Send {Msg} cp msg self.

End Pipeline.

(** ** Concrete inputs used in the statements below *)

Module Examples.
Import Slice ByteBuf BufOps Binary TLV.

(** [[]byte("Hello World.")] *)
Definition helloWorld : list byte :=
  ["H"; "e"; "l"; "l"; "o"; " "; "W"; "o"; "r"; "l"; "d"; "."]%byte.

(** The configuration of [TestTLVCodec]: tag 170, limit 4 MiB. *)
Definition testConfig : TLVConfig := mkConfig xaa (1024 * 1024 * 4).

Definition helloFrame : list byte :=
  [xaa; x00; x00; x00; x0c;
   "H"; "e"; "l"; "l"; "o"; " "; "W"; "o"; "r"; "l"; "d"; "."]%byte.

(** No frame limit. *)
Definition unlimitedConfig : TLVConfig := mkConfig xaa 0.

(** A buffer of capacity 4 holding the two unread bytes 1, 2. *)
Definition twoUnread : elasticUnsafeByteBuf :=
  mkBuf [x01; x02; x00; x00] 0 2 4.

(** Write three bytes, read them, release, then write five more in two
    calls and read them back. *)
Definition releaseThenWrite : list bufOp :=
  [OpWrite [x01; x02; x03]; OpReadBytes 3; OpRelease;
   OpWrite [x07; x08]; OpWrite [x09; x09; x09]; OpReadBytes 5].

(** The same up to the first write after the release, then a read. *)
Definition releaseThenRead : list bufOp :=
  [OpWrite [x01; x02; x03]; OpReadBytes 3; OpRelease;
   OpWrite [x07; x08]; OpReadBytes 2].

End Examples.

Module BigPayloads.
Import Slice TLV.

(** A payload of [2^32] zero bytes. *)
Definition payload_4GiB : list byte := replicate (Z.to_nat (2 ^ 32)) x00.

End BigPayloads.

Module TypedExamples.
Import Slice ByteBuf TLV Apollo Chan Pipeline Examples.

(** The message of the typed round trip: [{id: int64, name: string}] under
    type code 1. *)
Record command := mkCommand { cmdId : Z; cmdName : string }.

Definition commandTypeCode (e : command) : Z := 1.

(** A stand-in for [msgpack.Unmarshal]: it leaves the entity as it is. *)
Definition commandUnmarshal (body : list byte) (e : command) : error + command :=
  inr e.

Definition commandConfig : ApolloConfig command :=
  RegisterEntity commandTypeCode (mkApolloConfig testConfig ∅)
                 (Some (Some (mkCommand 0 ""))).

(** An input buffer holding one frame whose value is the type code 2 and a
    one-byte body. *)
Definition unknownCodeInput : elasticUnsafeByteBuf :=
  mkBuf [xaa; x00; x00; x00; x03; x00; x02; x01] 0 8 8.

(** A running pipeline with one entry queued, whose callback is closure 1. *)
Definition busyPipeline : duplexPipeline Z :=
  withOutbound (Start (Init (newPipeline true true true true)).1).1
               (mkChan [mkEntity 7 (Some 1%nat)] dataChanSize false).

Definition echoEncode (m : Z) : option (list byte) * option error :=
  (Some [Binary.byte_of_Z m], None).

Definition writeAll (bs : option (list byte)) : Z * option error :=
  (len (default [] bs), None).

End TypedExamples.

(** ** A byte queue, the reference behaviour of a [ByteBuf] *)

Module ByteQueue.
Import Slice ByteBuf BufOps.

(** The same operations on a first-in first-out queue of bytes, given by
    its content: a write appends, [ReadBytes(n)] takes the first [n] bytes
    and pads a short read with zero bytes, a release changes nothing. *)
Fixpoint queueOps (q : list byte) (ops : list bufOp)
  : list (list byte) * list byte :=
  match ops with
  | [] => ([], q)
  | OpWrite bytes :: ops' => queueOps (q ++ bytes) ops'
  | OpReadBytes n :: ops' =>
      let '(rs, q') := queueOps (drop (Z.to_nat n) q) ops' in
      ((take (Z.to_nat n) q ++ replicate (Z.to_nat n - length q) x00) :: rs, q')
  | OpRelease :: ops' => queueOps q ops'
  end.

Definition isWrite (op : bufOp) : bool :=
  match op with
  | OpWrite _ => true
  | _ => false
  end.

Definition isRelease (op : bufOp) : bool :=
  match op with
  | OpRelease => true
  | _ => false
  end.

(** The number of bytes an operation asks [make] for on the caller's
    word: the length of a [ReadBytes]. *)
Definition readLength (op : bufOp) : Z :=
  match op with
  | OpReadBytes n => n
  | _ => 0
  end.

(** The backing array holds the readable region and is not larger than the
    [capacity] field says: what is left of the index invariant after a
    [Release]. *)
Definition backed (pb : elasticUnsafeByteBuf) : Prop :=
  in_bounds pb /\ len (buffer pb) <= capacity pb.

(** [pb'] is [pb] with the read index moved forward and nothing else
    changed. *)
Definition readAdvanced (pb pb' : elasticUnsafeByteBuf) : Prop :=
  buffer pb' = buffer pb /\ writeIndex pb' = writeIndex pb /\
  capacity pb' = capacity pb /\
  readIndex pb <= readIndex pb' <= writeIndex pb.

End ByteQueue.

(** ** codec: the Apollo encoder *)

Module ApolloEncoder.
Import Slice ByteBuf Binary TLV.

Section WithEntities.
(** The non-nil [ApolloEntity] values with their [TypeCode()], and
    [msgpack.Marshal(entity)]. *)
Variable Entity : Type.
Variable TypeCode : Entity -> Z.
Variable Marshal : Entity -> error + list byte.

(** The [msg interface{}] handed to [Encode] by its dynamic type: an
    [ApolloEntity], or anything else, the nil interface included. *)
Inductive message :=
| IsEntity (entity : Entity)
| NotEntity.

Record ApolloFrameEncoder := mkApolloEncoder {
  Config : Apollo.ApolloConfig Entity;
  tlvEncoder : option TLVFrameEncoder
}.

Definition NewApolloFrameEncoder (config : Apollo.ApolloConfig Entity)
  : ApolloFrameEncoder :=
  mkApolloEncoder config None.

Definition initTLVEncoder (e : ApolloFrameEncoder) : TLVFrameEncoder :=
  match tlvEncoder e with
  | Some c => c
  | None => NewTLVFrameEncoder (Apollo.tlvConfig (Config e))
  end.

Definition encodeSuccess (result : option (list byte)) : encodeRet :=
  (result, None).

Definition encodeFailure (cause : string) : encodeRet :=
  (None, Some (EncodeError "ApolloFrameEncoder" cause)).

(** [ApolloFrameEncoder.Encode]; [None] is a panic.  The two
    [binary.Write] calls put the type code and the marshaled bytes through
    the buffer's [Write]; their results are not looked at. *)
Definition Encode (e : ApolloFrameEncoder) (msg : message)
  : option (encodeRet * ApolloFrameEncoder) :=
  match msg with
  | NotEntity =>
      Some (encodeFailure
              "message is not valid implementation of ApolloEntity interface",
            e)
  | IsEntity entity =>
      let typeCode := TypeCode entity in
      match Marshal entity with
      | inl marshalErr => Some (encodeFailure (Error marshalErr), e)
      | inr marshaledBytes =>
          let payloadByteBuffer :=
            NewElasticUnsafeByteBuf (2 + len marshaledBytes) in
          '(_, payloadByteBuffer) ← Write payloadByteBuffer (PutUint16 typeCode);
          '(_, payloadByteBuffer) ← Write payloadByteBuffer marshaledBytes;
          let c := initTLVEncoder e in
          let e := mkApolloEncoder (Config e) (Some c) in
          '(payload, _) ←
            ReadBytes payloadByteBuffer (ReadableBytes payloadByteBuffer);
          r ← TLV.Encode c (AnyBytes payload);
          match r with
          | (_, Some encodeErr) => Some (encodeFailure (Error encodeErr), e)
          | (frameBytes, None) => Some (encodeSuccess frameBytes, e)
          end
      end
  end.

End WithEntities.

Arguments IsEntity {Entity} entity.
Arguments NotEntity {Entity}.
Arguments mkApolloEncoder {Entity} Config tlvEncoder.
Arguments Config {Entity} a.
Arguments tlvEncoder {Entity} a.
Arguments NewApolloFrameEncoder {Entity} config.
Arguments initTLVEncoder {Entity} e.
Arguments Encode {Entity} TypeCode Marshal e msg.

End ApolloEncoder.

(** ** peer: the connection reader with a TLV decoder *)

Module ConnRead.
Import Slice ByteBuf TLV.

Definition readBufferSize : Z := 1024.
Definition byteBufferSize : Z := 2 * readBufferSize.

(** One pass of the loop of [handleConnRead] after [conn.Read] returned
    the bytes [chunk] and no error:
[[
    byteBuffer.WriteBytes(readBuffer[:count])
    for { ... cp.decoder.Decode(byteBuffer) ... }
    byteBuffer.Release()
]]
    The value lists what the pass handed over. *)
Definition connReadTurn (fuel : nat) (c : TLVFrameDecoder)
    (byteBuffer : elasticUnsafeByteBuf) (chunk : list byte)
  : run (list emitted * TLVFrameDecoder * elasticUnsafeByteBuf) :=
  match feed fuel c byteBuffer chunk with
  | Done (out, c, byteBuffer) =>
      match Release byteBuffer with
      | Some byteBuffer => Done (out, c, byteBuffer)
      | None => Panicked
      end
  | r => r
  end.

(** The passes for the reads of a connection, one after the other. *)
Fixpoint connReadLoop (fuel : nat) (c : TLVFrameDecoder)
    (byteBuffer : elasticUnsafeByteBuf) (chunks : list (list byte))
  : run (list (list emitted) * TLVFrameDecoder * elasticUnsafeByteBuf) :=
  match chunks with
  | [] => Done ([], c, byteBuffer)
  | chunk :: chunks =>
      match connReadTurn fuel c byteBuffer chunk with
      | Done (out, c, byteBuffer) =>
          match connReadLoop fuel c byteBuffer chunks with
          | Done (outs, c, byteBuffer) => Done (out :: outs, c, byteBuffer)
          | r => r
          end
      | Panicked => Panicked
      | OutOfFuel => OutOfFuel
      end
  end.

(** The byte buffer between two passes when every read ended on a frame
    boundary: empty, with the capacity it started with and an array that
    still takes a full read. *)
Definition betweenReads (byteBuffer : elasticUnsafeByteBuf) : Prop :=
  readIndex byteBuffer = 0 /\ writeIndex byteBuffer = 0 /\
  capacity byteBuffer = byteBufferSize /\
  readBufferSize <= len (buffer byteBuffer) <= byteBufferSize.

End ConnRead.

(** ** codec: the string codec (net/tcp/codec/string.go) *)

Module StringCodec.
Import Slice ByteBuf TLV.

(** The [msg interface{}] handed to [Encode] by its dynamic type; a Go
    string is its sequence of bytes. *)
Inductive message :=
| IsNil
| IsString (payload : list byte)
| NotString.

(** [StringFrameEncoder.Encode]. *)
Definition Encode (msg : message) : encodeRet :=
  match msg with
  | IsNil => (Some [], None)
  | IsString payload => (Some payload, None)
  | NotString =>
      (None, Some (EncodeError "StringFrameEncoder"
                               "can not transform input to string"))
  end.

(** [binary.Read(in, binary.BigEndian, &result)] with [result string]:
    [Read] takes a pointer to a fixed-size value or a slice of such; for
    any other type it returns this error before it reads from [in]. *)
Definition Read_string : string := "binary.Read: invalid type *string".

(** [StringFrameDecoder.Decode]: the result and the buffer after the
    call. *)
Definition Decode (inb : elasticUnsafeByteBuf)
  : decodeRet * elasticUnsafeByteBuf :=
  if ReadableBytes inb =? 0 then ((None, None), inb)
  else ((None, Some (DecodeError "StringFrameDecoder" Read_string)), inb).

(** The read loop of the pipeline's connection reader with this
    decoder. *)
Fixpoint drain (fuel : nat) (inb : elasticUnsafeByteBuf)
  : run (list emitted * elasticUnsafeByteBuf) :=
  match fuel with
  | O => OutOfFuel
  | S fuel =>
      match Decode inb with
      | ((_, Some err), inb) =>
          match drain fuel inb with
          | Done (out, inb) => Done (Failed err :: out, inb)
          | r => r
          end
      | ((Some result, None), inb) =>
          match drain fuel inb with
          | Done (out, inb) => Done (Frame result :: out, inb)
          | r => r
          end
      | ((None, None), inb) => Done ([], inb)
      end
  end.

End StringCodec.

(** ** peer: runs of the outbound queue *)

Module Outbound.
Import Chan Pipeline.

Section WithMessages.
Variable Msg : Type.
Variable Encode : Msg -> option (list byte) * option error.
Variable connWrite : option (list byte) -> Z * option error.

(** One sender calling [SendFuture] for each entry in turn, with no
    receiver waiting; it gets as far as the first call that blocks or
    panics. *)
Fixpoint sendFutures (cp : duplexPipeline Msg)
    (entries : list (OutboundEntity Msg)) : list event * ending Msg :=
  match entries with
  | [] => ([], Returned cp)
  | entry :: entries =>
      match SendFuture cp (Some (Data entry)) (Callback entry) with
      | (evs, Returned cp') =>
          let '(evs', r) := sendFutures cp' entries in (evs ++ evs', r)
      | r => r
      end
  end.

(** [n] turns of the outbound worker's loop, each taking the data case. *)
Fixpoint outboundTurns (n : nat) (cp : duplexPipeline Msg)
  : option (list event * duplexPipeline Msg) :=
  match n with
  | O => Some ([], cp)
  | S n =>
      '(evs, cp') ← outboundTurn Encode connWrite cp;
      '(evs', cp'') ← outboundTurns n cp';
      Some (evs ++ evs', cp'')
  end.

(** The queued outbound entries. *)
Definition queued (cp : duplexPipeline Msg) : list (OutboundEntity Msg) :=
  match outboundDataC cp with
  | Some c => queue c
  | None => []
  end.

End WithMessages.

Arguments sendFutures {Msg} cp entries.
Arguments outboundTurns {Msg} Encode connWrite n cp.
Arguments queued {Msg} cp.

End Outbound.

(** ** peer: pipelineChannel (net/tcp/peer/channel.go) *)

Module Channel.
Import Chan Pipeline.

Definition ErrInvalidChannel : error := ErrorString "invalid channel".

Section WithMessages.
Variable Msg : Type.
(** The non-nil values kept in the context map; a nil [interface{}] is
    [None]. *)
Variable Val : Type.

(** [pipeline] is [None] for a nil pipeline, [contextMap] for a nil map. *)
Record pipelineChannel := mkChannel {
  pipeline : option (duplexPipeline Msg);
  contextMap : option (gmap string (option Val))
}.

Definition NewChannel (pipeline : option (duplexPipeline Msg))
  : pipelineChannel :=
  mkChannel pipeline (Some ∅).

Definition IsConnected (c : pipelineChannel) : bool :=
  match pipeline c with
  | Some cp => IsRunning cp
  | None => false
  end.

(** [SendFuture(data, callback)]: what happens during the call, and the
    channel after it. *)
Definition SendFuture (c : pipelineChannel) (data : option Msg)
    (callback : option nat) : list event * outcome pipelineChannel :=
  match pipeline c with
  | Some cp =>
      if IsRunning cp then
        match Pipeline.SendFuture cp data callback with
        | (evs, Returned cp') => (evs, Returns (mkChannel (Some cp') (contextMap c)))
        | (evs, Blocked) => (evs, Blocks)
        | (evs, Panicked) => (evs, Panics)
        end
      else
        (match callback with
         | Some cb => [Invoked cb (Some ErrInvalidChannel)]
         | None => []
         end, Returns c)
  | None =>
      (match callback with
       | Some cb => [Invoked cb (Some ErrInvalidChannel)]
       | None => []
       end, Returns c)
  end.

(** [Close()]; [None] is a panic. *)
Definition Close (c : pipelineChannel) : option pipelineChannel :=
  match pipeline c with
  | Some cp => cp' ← Stop cp; Some (mkChannel (Some cp') (contextMap c))
  | None => Some c
  end.

(** [GetContext(key)]: a missing key reads as nil. *)
Definition GetContext (c : pipelineChannel) (key : string) : option Val :=
  match contextMap c with
  | Some m =>
      match m !! key with
      | Some val => val
      | None => None
      end
  | None => None
  end.

Definition AddContext (c : pipelineChannel) (key : string) (val : option Val)
  : pipelineChannel :=
  match contextMap c with
  | Some m => mkChannel (pipeline c) (Some (<[key := val]> m))
  | None => c
  end.

Definition DelContext (c : pipelineChannel) (key : string) : pipelineChannel :=
  match contextMap c with
  | Some m => mkChannel (pipeline c) (Some (delete key m))
  | None => c
  end.

End WithMessages.

Arguments mkChannel {Msg Val} pipeline contextMap.
Arguments pipeline {Msg Val} p.
Arguments contextMap {Msg Val} p.
Arguments NewChannel {Msg Val} pipeline.
Arguments IsConnected {Msg Val} c.
Arguments SendFuture {Msg Val} c data callback.
Arguments Close {Msg Val} c.
Arguments GetContext {Msg Val} c key.
Arguments AddContext {Msg Val} c key val.
Arguments DelContext {Msg Val} c key.

End Channel.

(** ** util: byteSliceBitSet (util/bitset.go) *)

Module BitSet.
Import Slice Binary.

(** [bytes] is the backing slice, whose [cap] is its [len] here: it is nil,
    empty, or came from [make]. *)
Record byteSliceBitSet := mkBitSet {
  bytes : list byte;
  wordInUse : Z
}.

(** The [index] of a call is any [int]; [index + 1] wraps at 64 bits. *)
Definition int64 (v : Z) : Z := (v + 2 ^ 63) mod 2 ^ 64 - 2 ^ 63.

(** [s[i]]: panics unless [0 <= i < len(s)]. *)
Definition at_index (s : list byte) (i : Z) : option byte :=
  if (0 <=? i) && (i <? len s) then s !! Z.to_nat i else None.

(** [s[i] = v]. *)
Definition set_index (s : list byte) (i : Z) (v : byte) : option (list byte) :=
  if (0 <=? i) && (i <? len s) then Some (<[Z.to_nat i := v]> s) else None.

(** [byte(1 << byte(bitIndex))]: the shift is done on a [byte]. *)
Definition mask (bitIndex : Z) : byte :=
  byte_of_Z (Z.shiftl 1 (bitIndex mod 256)).

Definition NewByteSliceBitSet : byteSliceBitSet := mkBitSet [] 0.

Definition checkCapacity (bs : byteSliceBitSet) (index : Z) : bool :=
  negb (len (bytes bs) * 8 - 1 <? index).

(** Go's [/] and [%] truncate toward zero. *)
Definition locateBit (index : Z) : Z * Z :=
  if Z.rem (int64 (index + 1)) 8 =? 0
  then (Z.quot (int64 (index + 1)) 8 - 1, 7)
  else (Z.quot (int64 (index + 1)) 8, Z.rem (int64 (index + 1)) 8 - 1).

(** [None] is a panic: the [make] of a negative size. *)
Definition checkAndIncreaseCapacity (bs : byteSliceBitSet) (index : Z)
  : option byteSliceBitSet :=
  if index <? 0 then Some bs
  else if negb (checkCapacity bs index) then
    let newCapacity :=
      if Z.rem (int64 (index + 1)) 8 =? 0
      then Z.quot (int64 (index + 1)) 8
      else Z.quot (int64 (index + 1)) 8 + 1 in
    newBytes ← make newCapacity;
    Some (mkBitSet (copy newBytes (bytes bs)) (wordInUse bs))
  else Some bs.

(** [Set(index)]. *)
Definition SetBit (bs : byteSliceBitSet) (index : Z) : option byteSliceBitSet :=
  if index <? 0 then Some bs
  else
    bs ← checkAndIncreaseCapacity bs index;
    let '(byteIndex, bitIndex) := locateBit index in
    b ← at_index (bytes bs) byteIndex;
    bytes' ← set_index (bytes bs) byteIndex
               (byte_of_Z (Z.lor (byte_to_Z b) (byte_to_Z (mask bitIndex))));
    Some (mkBitSet bytes' (wordInUse bs + 1)).

(** [Clear(index)]. *)
Definition Clear (bs : byteSliceBitSet) (index : Z) : option byteSliceBitSet :=
  if index <? 0 then Some bs
  else if negb (checkCapacity bs index) then Some bs
  else
    bs ← checkAndIncreaseCapacity bs index;
    let '(byteIndex, bitIndex) := locateBit index in
    b ← at_index (bytes bs) byteIndex;
    let wordInUse' :=
      if negb (Z.land (byte_to_Z b) (byte_to_Z (mask bitIndex)) =? 0)
      then wordInUse bs - 1 else wordInUse bs in
    b ← at_index (bytes bs) byteIndex;
    bytes' ← set_index (bytes bs) byteIndex
               (byte_of_Z (Z.land (byte_to_Z b)
                                  (Z.lnot (byte_to_Z (mask bitIndex)))));
    Some (mkBitSet bytes' wordInUse').

(** [Get(index)]. *)
Definition Get (bs : byteSliceBitSet) (index : Z) : option bool :=
  if index <? 0 then Some false
  else if negb (checkCapacity bs index) then Some false
  else
    let '(byteIndex, bitIndex) := locateBit index in
    b ← at_index (bytes bs) byteIndex;
    Some (negb (Z.land (byte_to_Z b) (byte_to_Z (mask bitIndex)) =? 0)).

Definition IsEmpty (bs : byteSliceBitSet) : bool := wordInUse bs =? 0.

Definition Reset (bs : byteSliceBitSet) : byteSliceBitSet := mkBitSet [] 0.

(** The bit a backing slice holds for an index: bit [index mod 8] of byte
    [index / 8], and [false] outside the slice. *)
Definition bitOf (s : list byte) (index : Z) : bool :=
  if index <? 0 then false
  else
    match s !! Z.to_nat (index / 8) with
    | Some b => Z.testbit (byte_to_Z b) (index mod 8)
    | None => false
    end.

(** The number of bits set in a backing slice. *)
Definition setBits (s : list byte) : nat :=
  length (List.filter (fun i => bitOf s (Z.of_nat i))
                      (seq 0 (8 * length s))).

(** The calls that change a bit set. *)
Inductive bitOp :=
| OpSet (index : Z)
| OpClear (index : Z)
| OpReset.

Definition opIndex (op : bitOp) : Z :=
  match op with
  | OpSet index => index
  | OpClear index => index
  | OpReset => 0
  end.

Fixpoint runBitOps (bs : byteSliceBitSet) (ops : list bitOp)
  : option byteSliceBitSet :=
  match ops with
  | [] => Some bs
  | OpSet index :: ops' => bs' ← SetBit bs index; runBitOps bs' ops'
  | OpClear index :: ops' => bs' ← Clear bs index; runBitOps bs' ops'
  | OpReset :: ops' => runBitOps (Reset bs) ops'
  end.

End BitSet.

(** ** More concrete inputs *)

Module MoreExamples.
Import Slice ByteBuf BufOps Binary TLV Examples TypedExamples.

(** Writes and reads with no release, the last read asking for one byte
    more than is there. *)
Definition writesAndReads : list bufOp :=
  [OpWrite [x01; x02; x03]; OpReadBytes 2; OpWrite [x07; x08; x09];
   OpReadBytes 5].

(** One write of five bytes. *)
Definition writeFive : list bufOp := [OpWrite [x04; x05; x06; x07; x08]].

(** Reads and releases after the last write. *)
Definition readsAndReleases : list bufOp :=
  [OpReadBytes 1; OpRelease; OpReadBytes 1; OpRelease; OpReadBytes 2].

(** Three bytes that are not the tag of [testConfig], then a frame. *)
Definition garbage : list byte := [x01; x02; x03].

(** A limit of 8 bytes, which a frame of four value bytes exceeds. *)
Definition tinyConfig : TLVConfig := mkConfig xaa 8.

Definition fourBytes : list byte := [x01; x02; x03; x04].

(** A well-formed frame of one value byte and five bytes more. *)
Definition afterOversize : list byte :=
  [xaa; x00; x00; x00; x01; x09; x05; x06; x07; x08; x0a].

(** Stand-ins for [msgpack.Marshal] and [msgpack.Unmarshal] on [command]:
    the id as one byte. *)
Definition commandMarshal (e : command) : error + list byte :=
  inr [Binary.byte_of_Z (cmdId e)].

Definition commandDecode (body : list byte) (e : command) : error + command :=
  match body with
  | [b] => inr (mkCommand (Binary.byte_to_Z b) (cmdName e))
  | _ => inl (ErrorString "msgpack: invalid code")
  end.

(** An input buffer holding one frame whose value is the type code 1 and a
    body of two bytes, which [commandDecode] rejects. *)
Definition badBodyInput : elasticUnsafeByteBuf :=
  mkBuf [xaa; x00; x00; x00; x04; x00; x01; x07; x07] 0 9 9.

(** An input buffer holding one frame whose value is a single byte. *)
Definition shortValueInput : elasticUnsafeByteBuf :=
  mkBuf [xaa; x00; x00; x00; x01; x00] 0 6 6.

(** An ack manager whose slot 7 buffers one commit. *)
Definition committedManager : Ack.SafeAckManager (K := Z) Z :=
  Ack.mkManager {[ 7 := Chan.mkChan [Ack.mkResp (Some 42) None] 2 false ]}.

(** The pipeline [InitPipeline] returns, started. *)
Definition runningPipeline : Pipeline.duplexPipeline Z :=
  (Pipeline.Start Pipeline.readyPipeline).1.

Definition twoEntries : list (Pipeline.OutboundEntity Z) :=
  [Pipeline.mkEntity 7 (Some 1%nat); Pipeline.mkEntity 8 (Some 2%nat)].

(** The channel bound to [busyPipeline], and the one of a pipeline that
    was not started. *)
Definition busyChannel : Channel.pipelineChannel Z Z :=
  Channel.NewChannel (Some busyPipeline).

Definition idleChannel : Channel.pipelineChannel Z Z :=
  Channel.NewChannel (Some Pipeline.readyPipeline).

(** Setting bit 1 twice and clearing it once. *)
Definition setTwiceClearOnce : list BitSet.bitOp :=
  [BitSet.OpSet 1; BitSet.OpSet 1; BitSet.OpClear 1].

(** A bit set holding the bits 3 and 9. *)
Definition bits3and9 : BitSet.byteSliceBitSet :=
  BitSet.mkBitSet [x08; x02] 2.

End MoreExamples.

(** * Part II: properties *)

Import Slice ByteBuf.

(** ** Growth policy *)

Lemma f32_round_lb v : 0 <= v -> (2 ^ 24 - 1) * v <= 2 ^ 24 * f32_round v.
Proof.
  intros Hv. unfold f32_round.
  destruct (Z.ltb_spec v (2 ^ 24)) as [Hlt | Hge]; [lia |].
  assert (Hpos : 0 < v) by lia.
  pose proof (Z.log2_spec v Hpos) as [Hlo _].
  assert (Hlog : 24 <= Z.log2 v).
  { apply Z.log2_le_pow2; lia. }
  set (e := Z.log2 v - 23) in *.
  assert (He : 1 <= e) by lia.
  assert (Hpow : 2 ^ Z.log2 v = 2 ^ 23 * 2 ^ e).
  { rewrite <- Z.pow_add_r by lia. f_equal. lia. }
  assert (Hhalf : 2 ^ e = 2 * 2 ^ (e - 1)).
  { rewrite <- Z.pow_succ_r by lia. f_equal. lia. }
  assert (Hh : 0 < 2 ^ (e - 1)) by (apply Z.pow_pos_nonneg; lia).
  pose proof (Z.div_mod v (2 ^ e) ltac:(lia)) as Hdm.
  pose proof (Z.mod_pos_bound v (2 ^ e) ltac:(lia)) as Hmod.
  set (P := 2 ^ e) in *. set (h := 2 ^ (e - 1)) in *.
  set (q := v / P) in *. set (r := v mod P) in *.
  change (2 ^ 24) with 16777216 in *. change (2 ^ 23) with 8388608 in *.
  destruct ((h <? r) || ((r =? h) && Z.odd q)) eqn:Hc.
  - nia.
  - apply orb_false_iff in Hc as [Hc _]. apply Z.ltb_ge in Hc. nia.
Qed.

Lemma f32_round_nonneg v : 0 <= v -> 0 <= f32_round v.
Proof. intros Hv. pose proof (f32_round_lb v Hv). lia. Qed.

(** The reallocated array always has room for the pending write. *)
Lemma growSize_ge x : 0 <= x -> x <= growSize x.
Proof.
  intros Hx. unfold growSize, f32_1_2_num.
  destruct (Z.eq_dec x 0) as [-> | Hne]; [reflexivity |].
  rewrite Z.sgn_pos, Z.abs_eq, Z.mul_1_l by lia.
  pose proof (f32_round_lb x Hx) as H1.
  pose proof (f32_round_nonneg x Hx) as H0.
  pose proof (f32_round_lb (f32_round x * 10066330) ltac:(lia)) as H2.
  apply Z.div_le_lower_bound; [lia |].
  change (2 ^ 24) with 16777216 in *. change (2 ^ 23) with 8388608 in *.
  lia.
Qed.

Example growSize_values :
  map growSize [1; 2; 5; 100; 1024; 2048; 16777217]
    = [1; 2; 6; 120; 1228; 2457; 20132660].
Proof. reflexivity. Qed.

(** ** Slices *)

Lemma make_Some n : 0 <= n -> make n = Some (replicate (Z.to_nat n) x00).
Proof. intros Hn. unfold make. destruct (Z.ltb_spec n 0); [lia | done]. Qed.

Lemma slice_Some s lo hi :
  0 <= lo -> lo <= hi -> hi <= len s ->
  slice s lo hi = Some (take (Z.to_nat (hi - lo)) (drop (Z.to_nat lo) s)).
Proof.
  intros H1 H2 H3. unfold slice.
  destruct (Z.leb_spec 0 lo); [| lia].
  destruct (Z.leb_spec lo hi); [| lia].
  destruct (Z.leb_spec hi (len s)); [| lia]. done.
Qed.

Lemma slice_from_Some s lo :
  0 <= lo -> lo <= len s -> slice_from s lo = Some (drop (Z.to_nat lo) s).
Proof.
  intros H1 H2. unfold slice_from. rewrite slice_Some by lia.
  f_equal. apply take_ge. rewrite length_drop. unfold len. lia.
Qed.

Lemma copy_short dst src :
  (length src <= length dst)%nat -> copy dst src = src ++ drop (length src) dst.
Proof. intros H. unfold copy. by rewrite take_ge. Qed.

Lemma copy_length dst src : length (copy dst src) = length dst.
Proof. unfold copy. rewrite length_app, length_take, length_drop. lia. Qed.

(** ** ByteBuf: the backing array split at the two indexes *)

Lemma in_bounds_split pb :
  in_bounds pb ->
  buffer pb =
    take (Z.to_nat (readIndex pb)) (buffer pb) ++ readable pb ++
    drop (Z.to_nat (writeIndex pb)) (buffer pb) /\
  length (take (Z.to_nat (readIndex pb)) (buffer pb)) = Z.to_nat (readIndex pb) /\
  length (readable pb) = Z.to_nat (writeIndex pb - readIndex pb).
Proof.
  intros (Hr & Hrw & Hw). unfold len in Hw. unfold readable.
  split; [| split].
  - rewrite <- (take_drop (Z.to_nat (readIndex pb)) (buffer pb)) at 1.
    f_equal.
    rewrite <- (take_drop (Z.to_nat (writeIndex pb - readIndex pb))
                  (drop (Z.to_nat (readIndex pb)) (buffer pb))) at 1.
    f_equal. rewrite drop_drop. f_equal. lia.
  - rewrite length_take. lia.
  - rewrite length_take, length_drop. lia.
Qed.

Lemma wf_in_bounds pb : wf pb -> in_bounds pb.
Proof. unfold wf, in_bounds. lia. Qed.

Lemma readable_length pb :
  in_bounds pb -> len (readable pb) = calcReadableBytes pb.
Proof.
  intros H. destruct (in_bounds_split pb H) as (_ & _ & Hl).
  destruct H as (? & ? & ?).
  unfold len, calcReadableBytes. rewrite Hl. lia.
Qed.

(** ** ByteBuf: ReadBytes *)

Lemma ReadBytes_negative pb n : n < 0 -> ReadBytes pb n = Some ([], pb).
Proof. intros Hn. unfold ReadBytes. destruct (Z.ltb_spec n 0); [done | lia]. Qed.

Lemma ReadBytes_spec pb n :
  in_bounds pb -> 0 <= n ->
  let k := Z.min n (calcReadableBytes pb) in
  ReadBytes pb n =
    Some (take (Z.to_nat k) (readable pb) ++ replicate (Z.to_nat (n - k)) x00,
          mkBuf (buffer pb) (readIndex pb + k) (writeIndex pb) (capacity pb)).
Proof.
  intros Hb Hn k. pose proof Hb as (Hr & Hrw & Hw).
  unfold ReadBytes. destruct (Z.ltb_spec n 0) as [? | _]; [lia |].
  rewrite make_Some by lia. cbn [mbind option_bind].
  set (t := if readIndex pb + n <=? writeIndex pb
            then readIndex pb + n else writeIndex pb).
  assert (Ht : t = readIndex pb + k).
  { subst t k. unfold calcReadableBytes.
    destruct (Z.leb_spec (readIndex pb + n) (writeIndex pb)); lia. }
  assert (Hk : 0 <= k <= n /\ k <= writeIndex pb - readIndex pb).
  { subst k. unfold calcReadableBytes. lia. }
  rewrite Ht. rewrite slice_Some by lia. cbn [mbind option_bind].
  replace (readIndex pb + k - readIndex pb) with k by lia.
  assert (Hsrc : take (Z.to_nat k) (drop (Z.to_nat (readIndex pb)) (buffer pb))
                 = take (Z.to_nat k) (readable pb)).
  { unfold readable. rewrite take_take. f_equal. lia. }
  rewrite Hsrc.
  assert (Hlen : length (take (Z.to_nat k) (readable pb)) = Z.to_nat k).
  { rewrite length_take.
    destruct (in_bounds_split pb Hb) as (_ & _ & Hl). rewrite Hl. lia. }
  rewrite copy_short by (rewrite length_replicate, Hlen; lia).
  rewrite Hlen, drop_replicate. do 4 f_equal. lia.
Qed.

(** ** ByteBuf: WriteBytes *)

Lemma WriteBytes_spec pb bs :
  wf pb ->
  exists pb',
    WriteBytes pb bs = Some pb' /\ wf pb' /\
    readable pb' = readable pb ++ bs /\
    readIndex pb' = readIndex pb /\
    writeIndex pb' = writeIndex pb + len bs.
Proof.
  intros Hwf. pose proof Hwf as (Hr & Hrw & Hw & Hcap).
  unfold WriteBytes.
  destruct (Z.eqb_spec (len bs) 0) as [H0 | Hne].
  { exists pb. assert (bs = []) as ->.
    { destruct bs; [done | unfold len in H0; simpl in H0; lia]. }
    rewrite app_nil_r. unfold len in *. simpl. repeat split; try done; try lia. }
  assert (Hbs : 0 < len bs) by (unfold len in *; lia).
  (* the reallocation step keeps the content and makes room *)
  assert (Hstep : exists pb1,
    (if calcWritableBytes pb <? len bs then
       newBuffer ← make (growSize (len bs + writeIndex pb));
       Some (mkBuf (copy newBuffer (buffer pb)) (readIndex pb)
                   (writeIndex pb) (growSize (len bs + writeIndex pb)))
     else Some pb) = Some pb1 /\
    wf pb1 /\ readIndex pb1 = readIndex pb /\ writeIndex pb1 = writeIndex pb /\
    len bs <= capacity pb1 - writeIndex pb1 /\
    exists zs, buffer pb1 = buffer pb ++ zs).
  { destruct (Z.ltb_spec (calcWritableBytes pb) (len bs)) as [Hfull | Hroom].
    - pose proof (growSize_ge (len bs + writeIndex pb) ltac:(lia)) as Hg.
      set (newSize := growSize (len bs + writeIndex pb)) in *.
      unfold calcWritableBytes in Hfull.
      rewrite make_Some by lia. cbn [mbind option_bind].
      eexists. split; [reflexivity |].
      assert (Hcopy : copy (replicate (Z.to_nat newSize) x00) (buffer pb) =
                      buffer pb ++ replicate (Z.to_nat newSize - length (buffer pb)) x00).
      { unfold len in Hcap. rewrite copy_short by (rewrite length_replicate; lia).
        by rewrite drop_replicate. }
      rewrite Hcopy. unfold wf, len in *. cbn.
      rewrite length_app, length_replicate.
      repeat split; try lia. eauto.
    - exists pb. unfold calcWritableBytes in Hroom.
      repeat split; try done; try lia. exists []. by rewrite app_nil_r. }
  destruct Hstep as (pb1 & -> & Hwf1 & Hr1 & Hw1 & Hroom & zs & Hbuf).
  cbn [mbind option_bind].
  destruct Hwf1 as (_ & _ & Hw1c & Hcap1).
  rewrite slice_from_Some by lia. cbn [mbind option_bind].
  eexists. split; [reflexivity |].
  assert (Hlb : (Z.to_nat (writeIndex pb1) + length bs <= length (buffer pb1))%nat).
  { unfold len in *. lia. }
  rewrite copy_short by (rewrite length_drop; lia).
  rewrite drop_drop.
  unfold wf, readable, len in *. cbn.
  rewrite !length_app, length_take, length_drop.
  split; [lia |]. split; [| lia].
  rewrite Hr1, Hw1.
  set (r := Z.to_nat (readIndex pb)). set (w := Z.to_nat (writeIndex pb)).
  assert (Hrw' : (r <= w)%nat) by lia.
  assert (Hwl : (w <= length (buffer pb))%nat) by lia.
  replace (Z.to_nat (writeIndex pb + Z.of_nat (length bs) - readIndex pb))
    with ((w - r) + length bs)%nat by lia.
  replace (Z.to_nat (writeIndex pb - readIndex pb)) with (w - r)%nat by lia.
  rewrite Hbuf.
  rewrite (take_app_le (buffer pb) zs w) by lia.
  rewrite drop_app_le by (rewrite length_take; lia).
  rewrite take_app_add' by (rewrite length_drop, length_take; lia).
  rewrite take_app_length.
  f_equal.
  rewrite <- (take_drop w (buffer pb)) at 2.
  rewrite drop_app_le by (rewrite length_take; lia).
  rewrite take_app_length' by (rewrite length_drop, length_take; lia).
  done.
Qed.

(** ** ByteBuf: Release *)

(** On a well-formed buffer [Release] copies the readable region to the
    front of the new array bit for bit; what it breaks is the equality of
    [capacity] and the size of the array. *)
Lemma Release_spec pb :
  wf pb ->
  exists pb',
    Release pb = Some pb' /\ in_bounds pb' /\
    readable pb' = readable pb /\
    readIndex pb' = 0 /\ writeIndex pb' = writeIndex pb - readIndex pb /\
    capacity pb' = capacity pb /\
    len (buffer pb') = capacity pb - readIndex pb.
Proof.
  intros (Hr & Hrw & Hw & Hcap). unfold Release.
  rewrite make_Some by lia. cbn [mbind option_bind].
  rewrite slice_Some by lia. cbn [mbind option_bind].
  eexists. split; [reflexivity |].
  fold (readable pb).
  assert (Hl : length (readable pb) = Z.to_nat (writeIndex pb - readIndex pb)).
  { unfold readable, len in *. rewrite length_take, length_drop. lia. }
  rewrite copy_short by (rewrite length_replicate; lia).
  unfold in_bounds, len. cbn.
  rewrite length_app, length_drop, length_replicate.
  repeat split; try done; try lia.
  unfold readable at 1. cbn.
  by rewrite Z.sub_0_r, drop_0, <- Hl, take_app_length.
Qed.

(** ** Big-endian integers *)

Import Binary.

Lemma byte_to_Z_range b : 0 <= byte_to_Z b < 256.
Proof.
  unfold byte_to_Z. pose proof (Byte.to_N_bounded b). lia.
Qed.

Lemma byte_to_of_Z v : byte_to_Z (byte_of_Z v) = v mod 256.
Proof.
  unfold byte_to_Z, byte_of_Z.
  pose proof (Z.mod_pos_bound v 256 ltac:(lia)) as Hb.
  destruct (Byte.of_N (Z.to_N (v mod 256))) as [b |] eqn:Hof.
  - apply Byte.to_of_N in Hof. simpl. rewrite Hof. lia.
  - apply Byte.of_N_None_iff in Hof. lia.
Qed.

Lemma byte_of_to_Z b : byte_of_Z (byte_to_Z b) = b.
Proof.
  unfold byte_to_Z, byte_of_Z.
  pose proof (Byte.to_N_bounded b) as Hb.
  rewrite Z.mod_small by lia. rewrite N2Z.id, Byte.of_to_N. done.
Qed.

Lemma byte_testbit v n :
  Z.testbit (byte_to_Z (byte_of_Z v)) n =
  if (0 <=? n) && (n <? 8) then Z.testbit v n else false.
Proof.
  rewrite byte_to_of_Z. change 256 with (2 ^ 8).
  destruct (Z.leb_spec 0 n) as [Hn | Hn]; cbn [andb].
  - rewrite Z.testbit_mod_pow2 by lia.
    destruct (Z.ltb_spec n 8); done.
  - by rewrite Z.testbit_neg_r by lia.
Qed.

Lemma Uint32_PutUint32 v rest :
  0 <= v < 2 ^ 32 -> Read_uint32 (PutUint32 v ++ rest) = inr v.
Proof.
  intros Hv. unfold PutUint32. cbn [app Read_uint32]. f_equal.
  unfold Uint32. apply Z.bits_inj'. intros n Hn.
  rewrite !Z.lor_spec, !Z.shiftl_spec, !byte_testbit by lia.
  destruct (Z.ltb_spec n 32) as [Hlt | Hge].
  - destruct (Z.leb_spec 0 n); [| lia].
    destruct (Z.leb_spec 0 (n - 8)), (Z.leb_spec 0 (n - 16)),
             (Z.leb_spec 0 (n - 24)),
             (Z.ltb_spec n 8), (Z.ltb_spec (n - 8) 8),
             (Z.ltb_spec (n - 16) 8), (Z.ltb_spec (n - 24) 8);
      cbn [andb orb]; try lia;
      rewrite ?orb_false_r, ?Z.shiftr_spec by lia; f_equal; lia.
  - assert (Z.testbit v n = false) as ->.
    { destruct (Z.eq_dec v 0) as [-> | Hne]; [apply Z.bits_0 |].
      apply Z.bits_above_log2; [lia |].
      assert (Z.log2 v < 32) by (apply Z.log2_lt_pow2; lia). lia. }
    destruct (Z.leb_spec 0 n); [| lia].
    destruct (Z.ltb_spec n 8), (Z.ltb_spec (n - 8) 8),
             (Z.ltb_spec (n - 16) 8), (Z.ltb_spec (n - 24) 8);
      try lia.
    by rewrite !andb_false_r.
Qed.

Lemma PutUint32_length v : length (PutUint32 v) = 4%nat.
Proof. done. Qed.

(** ** TLV decoder: one block at a time *)

Import TLV TLVSpec.

Lemma NewElasticUnsafeByteBuf_wf n :
  wf (NewElasticUnsafeByteBuf n) /\ readable (NewElasticUnsafeByteBuf n) = [].
Proof.
  unfold NewElasticUnsafeByteBuf, wf, readable, len. cbn.
  rewrite length_replicate.
  destruct (Z.ltb_spec n 0); repeat split; try done; lia.
Qed.

(** Reading exactly a prefix of the readable region. *)
Lemma ReadBytes_prefix inb a l :
  in_bounds inb -> readable inb = a ++ l ->
  exists inb',
    ReadBytes inb (len a) = Some (a, inb') /\ in_bounds inb' /\
    readable inb' = l.
Proof.
  intros Hb Hrd.
  pose proof (readable_length _ Hb) as Hlen.
  rewrite Hrd in Hlen. unfold len in Hlen. rewrite length_app in Hlen.
  assert (Hmin : Z.min (len a) (calcReadableBytes inb) = len a)
    by (unfold len; lia).
  eexists. split; [| split].
  - rewrite ReadBytes_spec by (done || unfold len; lia).
    cbv zeta. rewrite Hmin, Hrd. unfold len at 1. rewrite Nat2Z.id.
    rewrite take_app_length, Z.sub_diag. cbn [Z.to_nat replicate].
    by rewrite app_nil_r.
  - destruct Hb as (? & ? & ?). unfold in_bounds, calcReadableBytes, len in *.
    cbn. lia.
  - destruct Hb as (? & ? & ?).
    unfold readable in *. cbn. unfold calcReadableBytes, len in *.
    replace (Z.to_nat (readIndex inb + Z.of_nat (length a)))
      with (Z.to_nat (readIndex inb) + length a)%nat by lia.
    rewrite <- drop_drop.
    replace (Z.to_nat (writeIndex inb - (readIndex inb + Z.of_nat (length a))))
      with (Z.to_nat (writeIndex inb - readIndex inb) - length a)%nat by lia.
    rewrite <- skipn_firstn_comm, Hrd. apply drop_app_length.
Qed.

(** Reading moves the read index only: a well-formed buffer stays so. *)
Lemma ReadBytes_wf inb n bs inb' :
  wf inb -> ReadBytes inb n = Some (bs, inb') -> wf inb'.
Proof.
  intros (Hr & Hrw & Hw & Hcap). unfold ReadBytes.
  destruct (Z.ltb_spec n 0) as [_ | Hn]; [by intros [= _ <-] |].
  rewrite make_Some by done. cbn [mbind option_bind].
  unfold slice.
  destruct (Z.leb_spec (readIndex inb + n) (writeIndex inb)) as [Hfit | Hcut].
  - destruct ((0 <=? readIndex inb) && (readIndex inb <=? readIndex inb + n) &&
              (readIndex inb + n <=? len (buffer inb))); [| discriminate].
    cbn [mbind option_bind]. intros [= _ <-]. unfold wf. cbn. lia.
  - destruct ((0 <=? readIndex inb) && (readIndex inb <=? writeIndex inb) &&
              (writeIndex inb <=? len (buffer inb))); [| discriminate].
    cbn [mbind option_bind]. intros [= _ <-]. unfold wf. cbn. lia.
Qed.

Section Blocks.
Variable cfg : TLVConfig.

Lemma parseTag_skip c inb :
  hasTag c = true -> parseTag c inb = Some (Next (c, inb)).
Proof. intros H. unfold parseTag. by rewrite H. Qed.

Lemma parseLength_skip c inb :
  hasLength c = true -> parseLength c inb = Some (Next (c, inb)).
Proof.
  intros H. unfold parseLength. rewrite H.
  by rewrite andb_false_r.
Qed.

Lemma parseTag_empty tv lv inb :
  in_bounds inb -> readable inb = [] ->
  parseTag (mkDecoder cfg false false tv lv) inb =
    Some (Return ((None, None), mkDecoder cfg false false tv lv, inb)).
Proof.
  intros Hwf Hrd. unfold parseTag. cbn [hasTag negb].
  pose proof (readable_length _ Hwf) as Hl.
  rewrite Hrd in Hl. unfold ReadableBytes, TagSize.
  destruct (Z.ltb_spec (calcReadableBytes inb) 1) as [_ | Hge];
    [done | unfold len in Hl; simpl in Hl; lia].
Qed.

Lemma parseTag_read tv lv inb l :
  in_bounds inb -> readable inb = TagValue cfg :: l ->
  exists inb',
    parseTag (mkDecoder cfg false false tv lv) inb =
      Some (Next (mkDecoder cfg true false (TagValue cfg) lv, inb')) /\
    in_bounds inb' /\ readable inb' = l.
Proof.
  intros Hwf Hrd. unfold parseTag. cbn [hasTag negb].
  pose proof (readable_length _ Hwf) as Hl.
  rewrite Hrd in Hl. unfold ReadableBytes, TagSize.
  destruct (Z.ltb_spec (calcReadableBytes inb) 1) as [Hlt | _];
    [unfold len in Hl; simpl in Hl; lia |].
  destruct (ReadBytes_prefix inb [TagValue cfg] l Hwf Hrd)
    as (inb' & Hread & Hwf' & Hrd').
  change (len [TagValue cfg]) with 1 in Hread. rewrite Hread.
  cbn [mbind option_bind Read_uint8 Config hasLength lengthValue].
  rewrite bool_decide_eq_false_2 by (intros Hne; by apply Hne).
  eauto.
Qed.

Lemma parseLength_short lv inb :
  in_bounds inb -> len (readable inb) < 4 ->
  parseLength (mkDecoder cfg true false (TagValue cfg) lv) inb =
    Some (Return ((None, None),
                  mkDecoder cfg true false (TagValue cfg) lv, inb)).
Proof.
  intros Hwf Hshort. unfold parseLength. cbn [hasTag hasLength negb andb].
  rewrite (readable_length _ Hwf) in Hshort.
  unfold ReadableBytes, LengthSize.
  destruct (Z.ltb_spec (calcReadableBytes inb) 4); [done | lia].
Qed.

Lemma parseLength_read lv inb b0 b1 b2 b3 l :
  in_bounds inb -> readable inb = b0 :: b1 :: b2 :: b3 :: l ->
  exists inb',
    parseLength (mkDecoder cfg true false (TagValue cfg) lv) inb =
      Some (Next (mkDecoder cfg true true (TagValue cfg)
                            (Uint32 b0 b1 b2 b3), inb')) /\
    in_bounds inb' /\ readable inb' = l.
Proof.
  intros Hwf Hrd. unfold parseLength. cbn [hasTag hasLength negb andb].
  pose proof (readable_length _ Hwf) as Hl.
  rewrite Hrd in Hl. unfold ReadableBytes, LengthSize.
  destruct (Z.ltb_spec (calcReadableBytes inb) 4) as [Hlt | _];
    [unfold len in Hl; simpl in Hl; lia |].
  destruct (ReadBytes_prefix inb [b0; b1; b2; b3] l Hwf Hrd)
    as (inb' & Hread & Hwf' & Hrd').
  change (len [b0; b1; b2; b3]) with 4 in Hread. rewrite Hread.
  cbn [mbind option_bind Read_uint32 Config hasTag tagValue].
  eauto.
Qed.

Lemma parseValue_short b0 b1 b2 b3 inb :
  in_bounds inb -> len (readable inb) < Uint32 b0 b1 b2 b3 ->
  parseValue (mkDecoder cfg true true (TagValue cfg) (Uint32 b0 b1 b2 b3)) inb =
    Some ((None, None),
          mkDecoder cfg true true (TagValue cfg) (Uint32 b0 b1 b2 b3), inb).
Proof.
  intros Hwf Hshort. unfold parseValue.
  cbn [hasTag hasLength andb lengthValue].
  rewrite (readable_length _ Hwf) in Hshort.
  unfold ReadableBytes.
  destruct (Z.ltb_spec (calcReadableBytes inb) (Uint32 b0 b1 b2 b3));
    [done | lia].
Qed.

Lemma parseValue_read b0 b1 b2 b3 inb p rest :
  in_bounds inb -> readable inb = p ++ rest ->
  Uint32 b0 b1 b2 b3 = len p ->
  (0 < FrameLimit cfg -> len p + 5 <= FrameLimit cfg) ->
  exists inb',
    parseValue (mkDecoder cfg true true (TagValue cfg) (Uint32 b0 b1 b2 b3)) inb =
      Some ((Some p, None), NewTLVFrameDecoder cfg, inb') /\
    in_bounds inb' /\ readable inb' = rest.
Proof.
  intros Hwf Hrd HL Hlim. unfold parseValue.
  cbn [hasTag hasLength andb lengthValue Config].
  pose proof (readable_length _ Hwf) as Hl.
  rewrite Hrd in Hl. unfold len in Hl. rewrite length_app in Hl.
  unfold ReadableBytes. rewrite HL.
  destruct (Z.ltb_spec (calcReadableBytes inb) (len p)) as [Hlt | _];
    [unfold len in Hlt; lia |].
  destruct (ReadBytes_prefix inb p rest Hwf Hrd)
    as (inb' & Hread & Hwf' & Hrd').
  rewrite Hread. cbn [mbind option_bind].
  unfold TagSize, LengthSize.
  assert (Hok : (0 <? FrameLimit cfg) && (FrameLimit cfg <? 1 + 4 + len p)
                = false).
  { destruct (Z.ltb_spec 0 (FrameLimit cfg)); [| done].
    destruct (Z.ltb_spec (FrameLimit cfg) (1 + 4 + len p)); [lia | done]. }
  rewrite Hok. eauto.
Qed.

End Blocks.

(** ** TLV encoder *)

Lemma Write_spec pb bs :
  wf pb ->
  exists pb',
    Write pb bs = Some (len bs, pb') /\ wf pb' /\
    readable pb' = readable pb ++ bs.
Proof.
  intros Hwf. destruct (WriteBytes_spec pb bs Hwf) as (pb' & Hw & Hwf' & Hrd & _).
  exists pb'. unfold Write. rewrite Hw. done.
Qed.

Lemma assemble_spec c payload :
  exists fb,
    assemble c payload = Some fb /\ wf fb /\
    readable fb =
      TagValue (EncConfig c) :: PutUint32 (payloadLength payload) ++ payload.
Proof.
  unfold assemble.
  destruct (NewElasticUnsafeByteBuf_wf (frameSize payload)) as [Hwf0 Hrd0].
  destruct (Write_spec _ [TagValue (EncConfig c)] Hwf0)
    as (fb1 & -> & Hwf1 & Hrd1).
  cbn [mbind option_bind].
  destruct (Write_spec _ (PutUint32 (payloadLength payload)) Hwf1)
    as (fb2 & -> & Hwf2 & Hrd2).
  cbn [mbind option_bind].
  destruct (WriteBytes_spec _ payload Hwf2) as (fb3 & -> & Hwf3 & Hrd3 & _).
  exists fb3. split; [done |]. split; [done |].
  by rewrite Hrd3, Hrd2, Hrd1, Hrd0.
Qed.

Lemma assemble_readable_bytes c payload fb :
  assemble c payload = Some fb -> ReadableBytes fb = 1 + 4 + len payload.
Proof.
  intros Ha. destruct (assemble_spec c payload) as (fb' & Ha' & Hwf & Hrd).
  rewrite Ha in Ha'. injection Ha' as <-.
  unfold ReadableBytes. rewrite <- (readable_length _ (wf_in_bounds _ Hwf)).
  rewrite Hrd. unfold len. cbn [length]. rewrite length_app, PutUint32_length.
  lia.
Qed.

Lemma frameSize_small payload :
  len payload + 5 < 2 ^ 32 ->
  payloadLength payload = len payload /\ frameSize payload = 1 + 4 + len payload.
Proof.
  intros H. unfold frameSize, payloadLength, LengthSize, TagSize.
  assert (0 <= len payload) by (unfold len; lia).
  rewrite (Z.mod_small (len payload)) by lia.
  rewrite Z.mod_small by lia. lia.
Qed.

Lemma frameSize_wrapped payload :
  2 ^ 32 <= len payload + 5 -> frameSize payload < 1 + 4 + len payload.
Proof.
  intros H. unfold frameSize.
  pose proof (Z.mod_pos_bound (payloadLength payload + LengthSize + TagSize)
                (2 ^ 32) ltac:(lia)).
  lia.
Qed.

(** What [Encode] returns on a byte slice, case by case. *)
Lemma Encode_bytes_spec c payload :
  Encode c (AnyBytes payload) =
    Some (if (0 <? FrameLimit (EncConfig c)) &&
             (FrameLimit (EncConfig c) <? frameSize payload)
          then encodeFailure
                 ("frame size " +:+ pretty (frameSize payload) +:+
                  " larger than limit " +:+ pretty (FrameLimit (EncConfig c)))
          else if len payload + 5 <? 2 ^ 32
               then encodeSuccess (frame (EncConfig c) payload)
               else encodeFailure "ByteBuf issue").
Proof.
  unfold Encode.
  destruct ((0 <? FrameLimit (EncConfig c)) &&
            (FrameLimit (EncConfig c) <? frameSize payload)); [done |].
  destruct (assemble_spec c payload) as (fb & Ha & Hwf & Hrd).
  pose proof (assemble_readable_bytes _ _ _ Ha) as Hn.
  rewrite Ha. cbn [mbind option_bind].
  destruct (Z.ltb_spec (len payload + 5) (2 ^ 32)) as [Hsmall | Hbig].
  - destruct (frameSize_small payload Hsmall) as [Hpl Hfs].
    rewrite Hn, Hfs, Z.eqb_refl. cbn [negb].
    destruct (ReadBytes_prefix fb (readable fb) [] (wf_in_bounds _ Hwf))
      as (fb' & Hread & _).
    { by rewrite app_nil_r. }
    rewrite (readable_length _ (wf_in_bounds _ Hwf)) in Hread.
    unfold ReadableBytes in Hn. rewrite Hn in Hread. rewrite Hread.
    cbn [mbind option_bind]. unfold frame. by rewrite Hrd, Hpl.
  - pose proof (frameSize_wrapped payload Hbig) as Hlt.
    rewrite Hn. destruct (Z.eqb_spec (frameSize payload) (1 + 4 + len payload));
      [lia | done].
Qed.

Lemma Encode_success_inv cfg payload f :
  Encode (mkEncoder cfg) (AnyBytes payload) = Some (Some f, None) ->
  encodable cfg payload /\ f = frame cfg payload.
Proof.
  rewrite Encode_bytes_spec. cbn [EncConfig]. intros H.
  destruct (Z.ltb_spec 0 (FrameLimit cfg)) as [Hpos | Hzero];
    destruct (Z.ltb_spec (FrameLimit cfg) (frameSize payload)) as [Hover | Hfit];
    cbn [andb] in H; try discriminate;
    destruct (Z.ltb_spec (len payload + 5) (2 ^ 32)) as [Hsmall | Hbig];
    try discriminate;
    injection H as <-; (split; [| done]); split; try done;
    destruct (frameSize_small payload Hsmall) as [_ Hfs]; lia.
Qed.

(** ** TLV decoder: a whole call *)

Lemma PutUint32_inv v b0 b1 b2 b3 :
  0 <= v < 2 ^ 32 -> PutUint32 v = [b0; b1; b2; b3] -> Uint32 b0 b1 b2 b3 = v.
Proof.
  intros Hv Heq. pose proof (Uint32_PutUint32 v [] Hv) as H.
  rewrite Heq in H. cbn in H. by injection H.
Qed.

Lemma PutUint32_cons v :
  exists b0 b1 b2 b3, PutUint32 v = [b0; b1; b2; b3].
Proof. unfold PutUint32. eauto. Qed.

Lemma encodable_range cfg p : encodable cfg p -> 0 <= len p < 2 ^ 32.
Proof. intros [H _]. unfold len in *. lia. Qed.

Section DecodeCall.
Variable cfg : TLVConfig.

(** With the length latched and the value incomplete nothing is handed
    over. *)
Lemma Decode_value_short b0 b1 b2 b3 inb u p :
  in_bounds inb -> encodable cfg p ->
  Uint32 b0 b1 b2 b3 = len p -> readable inb ++ u = p -> u <> [] ->
  Decode (mkDecoder cfg true true (TagValue cfg) (Uint32 b0 b1 b2 b3)) inb =
    Some ((None, None),
          mkDecoder cfg true true (TagValue cfg) (Uint32 b0 b1 b2 b3), inb).
Proof.
  intros Hwf Henc HL Hp Hu. unfold Decode.
  rewrite parseTag_skip by done. cbn [mbind option_bind].
  rewrite parseLength_skip by done. cbn [mbind option_bind].
  apply parseValue_short; [done |].
  rewrite HL, <- Hp. unfold len. rewrite length_app.
  destruct u; [done | cbn [length]; lia].
Qed.

(** With the tag latched and the frame incomplete nothing is handed over;
    the length is latched as soon as its four bytes are there. *)
Lemma Decode_length_short lv inb u p :
  in_bounds inb -> encodable cfg p ->
  readable inb ++ u = PutUint32 (len p) ++ p -> u <> [] ->
  exists c' inb',
    Decode (mkDecoder cfg true false (TagValue cfg) lv) inb =
      Some ((None, None), c', inb') /\
    pending cfg c' inb' (TagValue cfg :: readable inb).
Proof.
  intros Hwf Henc Hs Hu.
  destruct (PutUint32_cons (len p)) as (b0 & b1 & b2 & b3 & Hput).
  pose proof (PutUint32_inv _ _ _ _ _ (encodable_range _ _ Henc) Hput) as HL.
  rewrite Hput in Hs.
  destruct (decide (len (readable inb) < 4)) as [Hshort | Hlong].
  - exists (mkDecoder cfg true false (TagValue cfg) lv), inb. split.
    + unfold Decode. rewrite parseTag_skip by done.
      cbn [mbind option_bind]. by rewrite parseLength_short.
    + split; [done |]. eexists. split; [constructor | done].
  - destruct (readable inb) as [| c0 [| c1 [| c2 [| c3 l]]]] eqn:Hrd;
      try (exfalso; apply Hlong; unfold len; cbn [length]; lia).
    cbn in Hs. injection Hs as -> -> -> -> Hl.
    destruct (parseLength_read cfg lv inb b0 b1 b2 b3 l Hwf Hrd)
      as (inb' & Hpl & Hwf' & Hrd').
    exists (mkDecoder cfg true true (TagValue cfg) (Uint32 b0 b1 b2 b3)), inb'.
    split.
    + unfold Decode. rewrite parseTag_skip by done.
      cbn [mbind option_bind]. rewrite Hpl. cbn [mbind option_bind].
      apply parseValue_short; [done |].
      rewrite HL, Hrd', <- Hl. unfold len. rewrite length_app.
      destruct u; [done | cbn [length]; lia].
    + split; [done |]. eexists. split; [constructor |].
      by rewrite Hrd'.
Qed.

(** A call on an incomplete frame hands nothing over and loses no byte. *)
Lemma Decode_incomplete c inb t u p :
  pending cfg c inb t -> encodable cfg p ->
  t ++ u = frame cfg p -> u <> [] ->
  exists c' inb',
    Decode c inb = Some ((None, None), c', inb') /\ pending cfg c' inb' t.
Proof.
  intros (Hwf & h & Hlat & ->) Henc Hs Hu. unfold frame in Hs.
  destruct Hlat as [tv lv | lv | b0 b1 b2 b3].
  - (* nothing latched *)
    cbn [app] in Hs.
    destruct (readable inb) as [| b l] eqn:Hrd.
    + exists (mkDecoder cfg false false tv lv), inb. split.
      * unfold Decode. by rewrite parseTag_empty.
      * split; [done |]. exists []. split; [constructor | by rewrite Hrd].
    + cbn in Hs. injection Hs as -> Hs.
      destruct (parseTag_read cfg tv lv inb l Hwf Hrd)
        as (inb1 & Hpt & Hwf1 & Hrd1).
      rewrite <- Hrd1 in Hs.
      destruct (Decode_length_short lv inb1 u p Hwf1 Henc Hs Hu)
        as (c' & inb' & Hdec & Hpend).
      exists c', inb'. split.
      * unfold Decode in *. rewrite Hpt. cbn [mbind option_bind].
        rewrite parseTag_skip in Hdec by done. exact Hdec.
      * by rewrite Hrd1 in Hpend.
  - (* tag latched *)
    cbn in Hs. injection Hs as Hs.
    destruct (Decode_length_short lv inb u p Hwf Henc Hs Hu)
      as (c' & inb' & Hdec & Hpend).
    eauto.
  - (* tag and length latched *)
    destruct (PutUint32_cons (len p)) as (c0 & c1 & c2 & c3 & Hput).
    pose proof (PutUint32_inv _ _ _ _ _ (encodable_range _ _ Henc) Hput) as HL.
    rewrite Hput in Hs. cbn in Hs. injection Hs as -> -> -> -> Hs.
    eexists _, inb. split.
    + by apply (Decode_value_short c0 c1 c2 c3 inb u p).
    + split; [done |]. eexists. split; [constructor | done].
Qed.

Lemma Decode_idle c inb :
  pending cfg c inb [] ->
  exists c' inb',
    Decode c inb = Some ((None, None), c', inb') /\ pending cfg c' inb' [].
Proof.
  intros (Hwf & h & Hlat & Hs).
  symmetry in Hs. apply app_eq_nil in Hs as [-> Hrd].
  inversion Hlat as [tv lv | |]; subst.
  exists (mkDecoder cfg false false tv lv), inb. split.
  - unfold Decode. by rewrite parseTag_empty.
  - split; [done |]. exists []. split; [constructor | by rewrite Hrd].
Qed.

(** A call on a complete frame hands over its payload and leaves what
    follows the frame. *)
Lemma Decode_complete c inb p rest :
  pending cfg c inb (frame cfg p ++ rest) -> encodable cfg p ->
  exists inb',
    Decode c inb = Some ((Some p, None), NewTLVFrameDecoder cfg, inb') /\
    pending cfg (NewTLVFrameDecoder cfg) inb' rest.
Proof.
  intros (Hwf & h & Hlat & Hs) Henc. unfold frame in Hs.
  destruct (PutUint32_cons (len p)) as (c0 & c1 & c2 & c3 & Hput).
  pose proof (PutUint32_inv _ _ _ _ _ (encodable_range _ _ Henc) Hput) as HL.
  rewrite Hput in Hs. cbn [app] in Hs.
  assert (Hfin : forall inb1 inb',
    in_bounds inb1 -> readable inb1 = p ++ rest ->
    parseValue (mkDecoder cfg true true (TagValue cfg) (Uint32 c0 c1 c2 c3)) inb1
      = Some ((Some p, None), NewTLVFrameDecoder cfg, inb') ->
    in_bounds inb' -> readable inb' = rest ->
    pending cfg (NewTLVFrameDecoder cfg) inb' rest).
  { intros inb1 inb' _ _ _ Hwf' Hrd'. split; [done |].
    exists []. split; [constructor | by rewrite Hrd']. }
  destruct Henc as [_ Hlim].
  destruct Hlat as [tv lv | lv | b0 b1 b2 b3].
  - cbn [app] in Hs. symmetry in Hs.
    destruct (parseTag_read cfg tv lv inb _ Hwf Hs)
      as (inb1 & Hpt & Hwf1 & Hrd1).
    destruct (parseLength_read cfg lv inb1 _ _ _ _ _ Hwf1 Hrd1)
      as (inb2 & Hpl & Hwf2 & Hrd2).
    destruct (parseValue_read cfg _ _ _ _ inb2 p rest Hwf2 Hrd2 HL Hlim)
      as (inb3 & Hpv & Hwf3 & Hrd3).
    exists inb3. split; [| eauto].
    unfold Decode. rewrite Hpt. cbn [mbind option_bind].
    rewrite Hpl. cbn [mbind option_bind]. exact Hpv.
  - cbn in Hs. injection Hs as Hs. symmetry in Hs.
    destruct (parseLength_read cfg lv inb _ _ _ _ _ Hwf Hs)
      as (inb2 & Hpl & Hwf2 & Hrd2).
    destruct (parseValue_read cfg _ _ _ _ inb2 p rest Hwf2 Hrd2 HL Hlim)
      as (inb3 & Hpv & Hwf3 & Hrd3).
    exists inb3. split; [| eauto].
    unfold Decode. rewrite parseTag_skip by done. cbn [mbind option_bind].
    rewrite Hpl. cbn [mbind option_bind]. exact Hpv.
  - cbn in Hs. injection Hs as <- <- <- <- Hs. symmetry in Hs.
    destruct (parseValue_read cfg _ _ _ _ inb p rest Hwf Hs HL Hlim)
      as (inb3 & Hpv & Hwf3 & Hrd3).
    exists inb3. split; [| eauto].
    unfold Decode. rewrite parseTag_skip by done. cbn [mbind option_bind].
    rewrite parseLength_skip by done. cbn [mbind option_bind]. exact Hpv.
Qed.

(** A call leaves a well-formed buffer well-formed. *)
Lemma parseTag_wf c inb f :
  wf inb -> parseTag c inb = Some f ->
  match f with
  | Next (_, inb') => wf inb'
  | Return (_, inb') => wf inb'
  end.
Proof.
  intros Hwf. unfold parseTag.
  destruct (negb (hasTag c)); [| by intros [= <-]].
  destruct (ReadableBytes inb <? TagSize); [by intros [= <-] |].
  destruct (ReadBytes inb TagSize) as [[tmp inb1] |] eqn:Hr; [| discriminate].
  apply (ReadBytes_wf _ _ _ _ Hwf) in Hr. cbn [mbind option_bind].
  destruct (Read_uint8 tmp); [by intros [= <-] |].
  destruct (bool_decide _); by intros [= <-].
Qed.

Lemma parseLength_wf c inb f :
  wf inb -> parseLength c inb = Some f ->
  match f with
  | Next (_, inb') => wf inb'
  | Return (_, inb') => wf inb'
  end.
Proof.
  intros Hwf. unfold parseLength.
  destruct (hasTag c && negb (hasLength c)); [| by intros [= <-]].
  destruct (ReadableBytes inb <? LengthSize); [by intros [= <-] |].
  destruct (ReadBytes inb LengthSize) as [[tmp inb1] |] eqn:Hr; [| discriminate].
  apply (ReadBytes_wf _ _ _ _ Hwf) in Hr. cbn [mbind option_bind].
  destruct (Read_uint32 tmp); by intros [= <-].
Qed.

Lemma parseValue_wf c inb r c' inb' :
  wf inb -> parseValue c inb = Some (r, c', inb') -> wf inb'.
Proof.
  intros Hwf. unfold parseValue.
  destruct (hasTag c && hasLength c); [| by intros [= _ _ <-]].
  destruct (ReadableBytes inb <? lengthValue c); [by intros [= _ _ <-] |].
  destruct (ReadBytes inb (lengthValue c)) as [[tmp inb1] |] eqn:Hr;
    [| discriminate].
  apply (ReadBytes_wf _ _ _ _ Hwf) in Hr. cbn [mbind option_bind].
  destruct (_ && _); by intros [= _ _ <-].
Qed.

Lemma Decode_wf c inb r c' inb' :
  wf inb -> Decode c inb = Some (r, c', inb') -> wf inb'.
Proof.
  intros Hwf. unfold Decode.
  destruct (parseTag c inb) as [f1 |] eqn:H1; [| discriminate].
  pose proof (parseTag_wf _ _ _ Hwf H1) as Hwf1. cbn [mbind option_bind].
  destruct f1 as [[c1 inb1] | [[r1 c1] inb1]]; [| by intros [= _ _ <-]].
  destruct (parseLength c1 inb1) as [f2 |] eqn:H2; [| discriminate].
  pose proof (parseLength_wf _ _ _ Hwf1 H2) as Hwf2. cbn [mbind option_bind].
  destruct f2 as [[c2 inb2] | [[r2 c2] inb2]]; [| by intros [= _ _ <-]].
  by apply parseValue_wf.
Qed.

End DecodeCall.

(** ** TLV decoder: draining, and arrivals in chunks *)

Import TLVStream.

Section Chunks.
Variable cfg : TLVConfig.

Lemma frame_nonempty p : frame cfg p <> [].
Proof. done. Qed.

Lemma wire_cons p ps : wire cfg (p :: ps) = frame cfg p ++ wire cfg ps.
Proof. done. Qed.

Lemma wire_app ps1 ps2 : wire cfg (ps1 ++ ps2) = wire cfg ps1 ++ wire cfg ps2.
Proof. unfold wire. by rewrite map_app, concat_app. Qed.

(** Draining hands over the complete frames, in order, and stops at the
    incomplete one. *)
Lemma drain_frames ps : forall fuel c inb t rest,
  wf inb ->
  pending cfg c inb (wire cfg ps ++ t) ->
  Forall (encodable cfg) (ps ++ rest) ->
  awaiting cfg t rest ->
  (length ps < fuel)%nat ->
  exists c' inb',
    drain fuel c inb = Done (map Frame ps, c', inb') /\
    wf inb' /\ pending cfg c' inb' t.
Proof.
  induction ps as [| p ps IH];
    intros fuel c inb t rest Hwf Hpend Henc Hawait Hfuel.
  - destruct fuel as [| fuel]; [cbn in Hfuel; lia |].
    cbn [wire map concat app] in Hpend. cbn [app] in Henc.
    assert (Hdec : exists c' inb',
      Decode c inb = Some ((None, None), c', inb') /\ pending cfg c' inb' t).
    { destruct Hawait as [-> | (p & ps & u & -> & Hu & Hframe)].
      - by apply Decode_idle.
      - apply Forall_cons in Henc as [Hp _].
        by apply (Decode_incomplete cfg c inb t u p). }
    destruct Hdec as (c' & inb' & Hdec & Hpend').
    exists c', inb'. cbn [drain]. rewrite Hdec.
    split; [done |]. split; [by eapply Decode_wf | done].
  - destruct fuel as [| fuel]; [cbn in Hfuel; lia |].
    rewrite wire_cons, <- app_assoc in Hpend.
    cbn [app] in Henc. apply Forall_cons in Henc as [Hp Henc].
    destruct (Decode_complete cfg c inb p _ Hpend Hp) as (inb1 & Hdec & Hpend1).
    pose proof (Decode_wf _ _ _ _ _ Hwf Hdec) as Hwf1.
    destruct (IH fuel _ inb1 t rest Hwf1 Hpend1 Henc Hawait)
      as (c' & inb' & Hdr & Hwf' & Hpend');
      [cbn [length] in Hfuel; lia |].
    exists c', inb'. cbn [drain]. rewrite Hdec, Hdr. done.
Qed.

Lemma WriteBytes_pending c inb s chunk :
  wf inb -> pending cfg c inb s ->
  exists inb',
    WriteBytes inb chunk = Some inb' /\ wf inb' /\
    pending cfg c inb' (s ++ chunk).
Proof.
  intros Hwf (_ & h & Hlat & ->).
  destruct (WriteBytes_spec inb chunk Hwf) as (inb' & Hw & Hwf' & Hrd & _).
  exists inb'. split; [done |]. split; [done |].
  split; [by apply wf_in_bounds |].
  exists h. split; [done |]. by rewrite Hrd, app_assoc.
Qed.

(** Any prefix of a wire image is a number of whole frames followed by a
    proper prefix of the next one. *)
Lemma wire_split ps : forall x y,
  x ++ y = wire cfg ps ->
  exists ps1 ps2 t,
    ps = ps1 ++ ps2 /\ x = wire cfg ps1 ++ t /\
    awaiting cfg t ps2 /\ t ++ y = wire cfg ps2.
Proof.
  induction ps as [| p ps IH]; intros x y Hxy.
  - cbn in Hxy. apply app_eq_nil in Hxy as [-> ->].
    exists [], [], []. repeat split; try done; by left.
  - rewrite wire_cons in Hxy.
    apply app_eq_inv in Hxy as [(k & Hx & Hy) | (k & Hx & Hy)].
    + (* [x] covers the first frame *)
      destruct (IH k y (eq_sym Hy)) as (ps1 & ps2 & t & -> & -> & Haw & Hrest).
      exists (p :: ps1), ps2, t. rewrite wire_cons, <- app_assoc.
      repeat split; try done.
    + (* [x] ends inside the first frame *)
      destruct k as [| b k].
      * rewrite app_nil_r in Hx. cbn [app] in Hy. subst y.
        destruct (IH [] (wire cfg ps) eq_refl)
          as (ps1 & ps2 & t & -> & Ht & Haw & Hrest).
        symmetry in Ht. apply app_eq_nil in Ht as [Hw1 ->].
        exists (p :: ps1), ps2, []. rewrite wire_cons, Hw1, <- Hx.
        rewrite !app_nil_r. repeat split; try done; by left.
      * exists [], (p :: ps), x. rewrite wire_cons. subst y.
        repeat split; try done.
        -- right. exists p, ps, (b :: k). by rewrite Hx.
        -- by rewrite Hx, <- app_assoc.
Qed.

Lemma awaiting_all_arrived t ps : awaiting cfg t ps -> t = wire cfg ps -> ps = [].
Proof.
  intros [-> | (p & ps' & u & -> & Hu & Hframe)] Ht.
  - destruct ps as [| p ps]; [done |]. by rewrite wire_cons in Ht.
  - rewrite wire_cons in Ht. rewrite Ht, <- app_assoc in Hframe.
    rewrite <- (app_nil_r (frame cfg p)) in Hframe at 2.
    apply app_inv_head in Hframe. apply app_eq_nil in Hframe as [_ ->].
    done.
Qed.

(** Chunk after chunk, the frames handed over are the payloads, in
    order. *)
Lemma feedAll_frames chunks : forall fuel c inb t ps,
  wf inb ->
  pending cfg c inb t ->
  Forall (encodable cfg) ps ->
  awaiting cfg t ps ->
  t ++ concat chunks = wire cfg ps ->
  (length ps < fuel)%nat ->
  exists outs c' inb',
    feedAll fuel c inb chunks = Done (outs, c', inb') /\
    length outs = length chunks /\
    concat outs = map Frame ps.
Proof.
  induction chunks as [| chunk chunks IH];
    intros fuel c inb t ps Hwf Hpend Henc Haw Hs Hfuel.
  - cbn [concat] in Hs. rewrite app_nil_r in Hs.
    rewrite (awaiting_all_arrived t ps Haw Hs).
    exists [], c, inb. done.
  - cbn [concat] in Hs. rewrite app_assoc in Hs.
    destruct (wire_split ps _ _ Hs)
      as (ps1 & ps2 & t' & -> & Hx & Haw' & Hrest).
    destruct (WriteBytes_pending c inb t chunk Hwf Hpend)
      as (inb1 & Hw & Hwf1 & Hpend1).
    rewrite Hx in Hpend1. rewrite length_app in Hfuel.
    destruct (drain_frames ps1 fuel c inb1 t' ps2 Hwf1 Hpend1 Henc Haw')
      as (c2 & inb2 & Hdr & Hwf2 & Hpend2); [lia |].
    apply Forall_app in Henc as [_ Henc2].
    destruct (IH fuel c2 inb2 t' ps2 Hwf2 Hpend2 Henc2 Haw' Hrest)
      as (outs & c' & inb' & Hfeed & Hlen & Houts); [lia |].
    exists (map Frame ps1 :: outs), c', inb'.
    cbn [feedAll]. unfold feed. rewrite Hw, Hdr, Hfeed.
    split; [done |]. split; [cbn [length]; lia |].
    cbn [concat]. by rewrite Houts, map_app.
Qed.

Lemma pending_initial n :
  pending cfg (NewTLVFrameDecoder cfg) (NewElasticUnsafeByteBuf n) [].
Proof.
  destruct (NewElasticUnsafeByteBuf_wf n) as [Hwf Hrd].
  split; [by apply wf_in_bounds |].
  exists []. split; [constructor | by rewrite Hrd].
Qed.

Lemma encoded_frames payloads frames :
  Forall2 (fun p f => Encode (mkEncoder cfg) (AnyBytes p) = Some (Some f, None))
          payloads frames ->
  Forall (encodable cfg) payloads /\ concat frames = wire cfg payloads.
Proof.
  induction 1 as [| p f ps fs Hpf _ [IH1 IH2]]; [done |].
  apply Encode_success_inv in Hpf as [Hp ->].
  split; [by constructor |]. rewrite wire_cons. cbn [concat]. by rewrite IH2.
Qed.

End Chunks.

(** ** The scenarios of the TLV codec on the model *)

Import Examples.

(** Two copies of the frame back to back: two payloads, nothing left. *)
Example TLV_round_trip :
  exists c b,
    feedAll 3 (NewTLVFrameDecoder testConfig) (NewElasticUnsafeByteBuf 1024)
            [helloFrame; helloFrame]
      = Done ([[Frame helloWorld]; [Frame helloWorld]], c, b) /\
    readable b = [].
Proof. eexists _, _. split; vm_compute; reflexivity. Qed.

(** A first byte that is not the tag. *)
Example TLV_illegal_tag :
  exists c b,
    Decode (NewTLVFrameDecoder testConfig)
           (mkBuf [xbb; x00; x00; x00; x00] 0 5 5)
      = Some ((None, Some (DecodeError "TLVFrameDecoder" "illegal tag found")), c, b).
Proof. eexists _, _. vm_compute. reflexivity. Qed.

(** A 20-byte payload under a limit of 16. *)
Example TLV_oversize :
  Encode (mkEncoder (mkConfig xaa 16)) (AnyBytes (replicate 20 x00))
    = Some (None, Some (EncodeError "TLVFrameEncoder"
                                    "frame size 25 larger than limit 16")).
Proof. vm_compute. reflexivity. Qed.

(** * The claims *)

Import BufOps.

(** ** C1 *)

(** C1.  The claim: over any sequence of writes, reads and releases the
    reads return the written bytes in order.  The code does not: [Release]
    shrinks the backing array to [capacity - readIndex] bytes and leaves the
    [capacity] field as it was, so the next [WriteBytes] believes in room the
    array does not have and [copy] drops the bytes that do not fit.  On a
    buffer of capacity 4, after writing 1 2 3, reading them and releasing,
    the writes 7 8 and 9 9 9 are read back as 7 0 9 9 9; reading right after
    the write of 7 8 panics instead of returning them. *)
Theorem Release_then_write_loses_bytes :
  (exists pb,
     runOps (NewElasticUnsafeByteBuf 4) releaseThenWrite =
       Some ([[x01; x02; x03]; [x07; x00; x09; x09; x09]], pb)) /\
  runOps (NewElasticUnsafeByteBuf 4) releaseThenRead = None /\
  (exists pb,
     runOps (NewElasticUnsafeByteBuf 4)
            [OpWrite [x01; x02; x03]; OpReadBytes 3; OpRelease] = Some ([[x01; x02; x03]], pb) /\
     capacity pb = 4 /\ len (buffer pb) = 1).
Proof.
  split; [| split].
  - eexists. vm_compute. reflexivity.
  - vm_compute. reflexivity.
  - eexists. split; [vm_compute; reflexivity |]. split; reflexivity.
Qed.

(** ** C2 *)

(** C2, the claim as stated fails: with two unread bytes, [ReadBytes(3)]
    returns three bytes, more than [min(3, w - r) = 2], and does not advance
    the read index by the number of bytes returned. *)
Lemma ReadBytes_returns_requested_length :
  ~ (exists bs pb',
       ReadBytes twoUnread 3 = Some (bs, pb') /\
       len bs <= Z.min 3 (writeIndex twoUnread - readIndex twoUnread) /\
       readIndex pb' = readIndex twoUnread + len bs).
Proof.
  intros (bs & pb' & Hread & Hlen & _).
  vm_compute in Hread. injection Hread as <- <-.
  vm_compute in Hlen. by apply Hlen.
Qed.

(** C2, amended.  On a buffer whose indexes lie within the backing array,
    [ReadBytes(n)] returns when [n] is no larger than that array: its result
    is then no larger than an array the buffer already holds.  A larger [n]
    makes it allocate [n] bytes, and it panics when they cannot be
    allocated.  Whenever it returns, with [n >= 0] it returns exactly [n]
    bytes: the next [min(n, w - r)] unread bytes followed by zero bytes, and
    advances the read index by [min(n, w - r)], leaving everything else as
    it was; with [n < 0], and with [n = 0], the result is empty and the
    buffer is unchanged. *)
Theorem ReadBytes_amended pb n :
  in_bounds pb ->
  (n <= len (buffer pb) -> is_Some (ReadBytes pb n)) /\
  forall bs pb',
    ReadBytes pb n = Some (bs, pb') ->
    buffer pb' = buffer pb /\ writeIndex pb' = writeIndex pb /\
    capacity pb' = capacity pb /\
    if n <? 0 then bs = [] /\ readIndex pb' = readIndex pb
    else
      let k := Z.min n (writeIndex pb - readIndex pb) in
      len bs = n /\
      bs = take (Z.to_nat k) (readable pb) ++ replicate (Z.to_nat (n - k)) x00 /\
      len (take (Z.to_nat k) (readable pb)) = k /\
      readIndex pb' = readIndex pb + k /\
      (n = 0 -> bs = [] /\ readIndex pb' = readIndex pb).
Proof.
  intros Hb. destruct (Z.ltb_spec n 0) as [Hneg | Hnn].
  - rewrite ReadBytes_negative by done. split; [intros _; by eexists |].
    by intros bs pb' [= <- <-].
  - pose proof (ReadBytes_spec pb n Hb Hnn) as Hspec. cbv zeta in Hspec.
    rewrite Hspec. split; [intros _; by eexists |].
    intros bs pb' [= <- <-].
    fold (calcReadableBytes pb).
    set (k := Z.min n (calcReadableBytes pb)) in *.
    pose proof (readable_length pb Hb) as Hrl.
    pose proof Hb as (Hr & Hrw & Hw).
    assert (Hk : 0 <= k <= n /\ k <= calcReadableBytes pb)
      by (subst k; unfold calcReadableBytes; lia).
    assert (Hlk : len (take (Z.to_nat k) (readable pb)) = k).
    { unfold len in *. rewrite length_take. lia. }
    cbn [buffer writeIndex capacity readIndex].
    split; [done |]. split; [done |]. split; [done |].
    cbv zeta. fold (calcReadableBytes pb). fold k.
    clearbody k.
    split; [| split; [done | split; [done | split; [done |]]]].
    + unfold len in *. rewrite length_app, length_replicate. lia.
    + intros ->. assert (k = 0) as -> by lia. split; [done | lia].
Qed.

Lemma ReadBytes_amended_witness :
  in_bounds twoUnread /\
  3 <= len (buffer twoUnread) /\
  ReadBytes twoUnread 3 =
    Some ([x01; x02; x00], mkBuf [x01; x02; x00; x00] 2 2 4) /\
  len [x01; x02; x00] = 3 /\
  readIndex (mkBuf [x01; x02; x00; x00] 2 2 4) = readIndex twoUnread + 2.
Proof.
  assert (Hb : in_bounds twoUnread) by (unfold in_bounds, len; cbn; lia).
  assert (Hn : 3 <= len (buffer twoUnread)) by (unfold len; cbn; lia).
  assert (Hread : ReadBytes twoUnread 3 =
                  Some ([x01; x02; x00], mkBuf [x01; x02; x00; x00] 2 2 4))
    by reflexivity.
  split; [exact Hb |]. split; [exact Hn |]. split; [exact Hread |].
  destruct (ReadBytes_amended twoUnread 3 Hb) as [_ Hafter].
  destruct (Hafter _ _ Hread) as (_ & _ & _ & Hrest).
  cbn in Hrest. destruct Hrest as (Hlen & _ & _ & Hri & _).
  split; [exact Hlen | exact Hri].
Defined.

(** ** C4 *)

(** C4.  Let the encoder of configuration [cfg] have produced [frames] from
    [payloads], and let [chunks] be any partition of the concatenated frame
    bytes.  Feeding the chunks one at a time to one decoder (append the
    chunk to the input buffer, drain [Decode] until it reports that it needs
    more bytes) hands over exactly the payloads, in order, and so does
    feeding the whole stream at once.  The 17-byte frame of "Hello World."
    fed one byte at a time hands over nothing for sixteen bytes and its
    payload on the seventeenth.  The loop is given fuel; any amount above the
    number of frames is enough. *)
Theorem TLV_chunking_invariance cfg payloads frames chunks n fuel :
  Forall2 (fun p f => Encode (mkEncoder cfg) (AnyBytes p) = Some (Some f, None))
          payloads frames ->
  concat chunks = concat frames ->
  (length payloads < fuel)%nat ->
  (exists outs c1 b1 c2 b2,
     feedAll fuel (NewTLVFrameDecoder cfg) (NewElasticUnsafeByteBuf n) chunks
       = Done (outs, c1, b1) /\
     feedAll fuel (NewTLVFrameDecoder cfg) (NewElasticUnsafeByteBuf n)
             [concat frames]
       = Done ([map Frame payloads], c2, b2) /\
     length outs = length chunks /\
     concat outs = map Frame payloads) /\
  (Encode (mkEncoder testConfig) (AnyBytes helloWorld) = Some (Some helloFrame, None) /\
   length helloFrame = 17%nat /\
   exists c b,
     feedAll 2 (NewTLVFrameDecoder testConfig) (NewElasticUnsafeByteBuf 2048)
             (map (fun x => [x]) helloFrame)
       = Done (replicate 16 [] ++ [[Frame helloWorld]], c, b)).
Proof.
  intros Henc Hchunks Hfuel. split.
  - destruct (encoded_frames cfg payloads frames Henc) as [Hall Hwire].
    rewrite Hwire in *.
    pose proof (proj1 (NewElasticUnsafeByteBuf_wf n)) as Hwf.
    destruct (feedAll_frames cfg chunks fuel _ _ [] payloads Hwf
                (pending_initial cfg n) Hall (or_introl eq_refl) Hchunks Hfuel)
      as (outs & c1 & b1 & Hfeed & Hlen & Houts).
    destruct (feedAll_frames cfg [wire cfg payloads] fuel _ _ [] payloads Hwf
                (pending_initial cfg n) Hall (or_introl eq_refl))
      as (outs' & c2 & b2 & Hfeed' & Hlen' & Houts'); [| done |].
    { cbn [concat app]. by rewrite app_nil_r. }
    destruct outs' as [| o [| ? ?]]; try discriminate Hlen'.
    cbn [concat] in Houts'. rewrite app_nil_r in Houts'. subst o.
    exists outs, c1, b1, c2, b2. done.
  - split; [vm_compute; reflexivity |]. split; [reflexivity |].
    eexists _, _. vm_compute. reflexivity.
Qed.

Lemma TLV_chunking_invariance_witness :
  Forall2 (fun p f => Encode (mkEncoder testConfig) (AnyBytes p) = Some (Some f, None))
          [helloWorld; helloWorld] [helloFrame; helloFrame] /\
  exists outs c b,
    feedAll 3 (NewTLVFrameDecoder testConfig) (NewElasticUnsafeByteBuf 2048)
            [take 3 helloFrame; drop 3 helloFrame ++ take 9 helloFrame;
             drop 9 helloFrame]
      = Done (outs, c, b) /\
    concat outs = [Frame helloWorld; Frame helloWorld].
Proof.
  assert (Henc : Forall2 (fun p f => Encode (mkEncoder testConfig) (AnyBytes p)
                                     = Some (Some f, None))
                         [helloWorld; helloWorld] [helloFrame; helloFrame]).
  { repeat constructor; vm_compute; reflexivity. }
  split; [exact Henc |].
  destruct (TLV_chunking_invariance testConfig [helloWorld; helloWorld]
              [helloFrame; helloFrame]
              [take 3 helloFrame; drop 3 helloFrame ++ take 9 helloFrame;
               drop 9 helloFrame] 2048 3 Henc)
    as [(outs & c1 & b1 & c2 & b2 & Hfeed & _ & _ & Houts) _].
  - reflexivity.
  - cbn; lia.
  - exists outs, c1, b1. split; [exact Hfeed | exact Houts].
Defined.

(** ** C5 *)

Import BigPayloads.

Lemma len_replicate n (b : byte) : 0 <= n -> len (replicate (Z.to_nat n) b) = n.
Proof. intros Hn. unfold len. rewrite length_replicate. apply Z2Nat.id, Hn. Qed.

(** Beyond 32 bits of frame size the encoder fails, with one of its two
    causes. *)
Lemma Encode_oversize c payload :
  2 ^ 32 <= len payload + 5 ->
  exists cause,
    Encode c (AnyBytes payload) = Some (encodeFailure cause) /\
    ((0 <? FrameLimit (EncConfig c)) &&
     (FrameLimit (EncConfig c) <? frameSize payload) = false ->
     cause = "ByteBuf issue").
Proof.
  intros Hbig. rewrite Encode_bytes_spec.
  destruct ((0 <? FrameLimit (EncConfig c)) &&
            (FrameLimit (EncConfig c) <? frameSize payload)).
  - eexists. split; [reflexivity | discriminate].
  - destruct (Z.ltb_spec (len payload + 5) (2 ^ 32)); [lia |].
    eexists. split; [reflexivity | done].
Qed.

(** C5, the claim as stated fails: for a byte slice of [2^32] bytes, which
    the 32-bit length field cannot describe, the computed frame size is 5, not
    [1 + 4 + len(payload)], and without a frame limit [Encode] does not return
    tag, length and payload but the "ByteBuf issue" error. *)
Lemma Encode_4GiB_payload_fails :
  frameSize payload_4GiB = 5 /\
  frameSize payload_4GiB <> 1 + 4 + len payload_4GiB /\
  FrameLimit unlimitedConfig = 0 /\
  Encode (mkEncoder unlimitedConfig) (AnyBytes payload_4GiB)
    = Some (None, Some (EncodeError "TLVFrameEncoder" "ByteBuf issue")) /\
  Encode (mkEncoder unlimitedConfig) (AnyBytes payload_4GiB)
    <> Some (Some (TagValue unlimitedConfig ::
                   PutUint32 (len payload_4GiB) ++ payload_4GiB),
             None).
Proof.
  assert (Hlen : len payload_4GiB = 2 ^ 32).
  { unfold payload_4GiB. by apply len_replicate. }
  assert (Hfs : frameSize payload_4GiB = 5).
  { unfold frameSize, payloadLength. rewrite Hlen. reflexivity. }
  assert (Henc : Encode (mkEncoder unlimitedConfig) (AnyBytes payload_4GiB)
                 = Some (None, Some (EncodeError "TLVFrameEncoder" "ByteBuf issue"))).
  { destruct (Encode_oversize (mkEncoder unlimitedConfig) payload_4GiB)
      as (cause & -> & Hcause); [rewrite Hlen; lia |].
    rewrite Hcause; done. }
  split; [exact Hfs |]. split; [rewrite Hfs, Hlen; lia |].
  split; [reflexivity |]. split; [exact Henc |].
  rewrite Henc. discriminate.
Qed.

(** C5, amended.  An input that is not a byte slice fails with
    [EncodeError].  For every byte slice whose frame size
    [1 + 4 + len(payload)] is below [2^32], [Encode] computes that frame
    size, returns an [EncodeError] when [frameLimit > 0] and the frame size
    exceeds it, and otherwise returns exactly the tag, the payload length as a
    big-endian 32-bit value and the payload.  "Hello World." under tag 0xAA
    encodes to the seventeen bytes of the scenario. *)
Theorem Encode_amended c payload v :
  len payload + 5 < 2 ^ 32 ->
  Encode c (AnyOther v) =
    Some (None, Some (EncodeError "TLVFrameEncoder"
                                  "can not transform input to []byte")) /\
  frameSize payload = 1 + 4 + len payload /\
  Encode c (AnyBytes payload) =
    Some (if (0 <? FrameLimit (EncConfig c)) &&
             (FrameLimit (EncConfig c) <? 1 + 4 + len payload)
          then (None,
                Some (EncodeError "TLVFrameEncoder"
                        ("frame size " +:+ pretty (1 + 4 + len payload) +:+
                         " larger than limit " +:+
                         pretty (FrameLimit (EncConfig c)))))
          else (Some (TagValue (EncConfig c) ::
                      PutUint32 (len payload) ++ payload), None)) /\
  Encode (mkEncoder testConfig) (AnyBytes helloWorld) =
    Some (Some [xaa; x00; x00; x00; x0c;
                "H"; "e"; "l"; "l"; "o"; " "; "W"; "o"; "r"; "l"; "d"; "."]%byte,
          None).
Proof.
  intros Hsmall. split; [reflexivity |].
  destruct (frameSize_small payload Hsmall) as [_ Hfs].
  split; [exact Hfs |]. split; [| vm_compute; reflexivity].
  rewrite Encode_bytes_spec, Hfs.
  destruct (Z.ltb_spec (len payload + 5) (2 ^ 32)); [done | lia].
Qed.

Lemma Encode_amended_witness :
  len (replicate 20 x00) + 5 < 2 ^ 32 /\
  Encode (mkEncoder (mkConfig xaa 16)) (AnyBytes (replicate 20 x00)) =
    Some (None,
          Some (EncodeError "TLVFrameEncoder"
                            "frame size 25 larger than limit 16")) /\
  Encode (mkEncoder testConfig) (AnyBytes helloWorld) = Some (Some helloFrame, None).
Proof.
  assert (H : len (replicate 20 x00) + 5 < 2 ^ 32) by (vm_compute; reflexivity).
  split; [exact H |].
  destruct (Encode_amended (mkEncoder (mkConfig xaa 16)) (replicate 20 x00) 0 H)
    as (_ & _ & Henc & Hhello).
  split; [rewrite Henc; vm_compute; reflexivity | exact Hhello].
Defined.

(** ** C9 *)

(** C9, the claim as stated fails: a byte slice of [2^32] bytes passes the
    frame-limit check of the 4 MiB configuration (its [uint32] frame size
    wraps to 5), the assembled buffer holds [2^32 + 5] readable bytes and
    [Encode] returns the "ByteBuf issue" error. *)
Lemma Encode_ByteBuf_issue_reachable :
  (0 <? FrameLimit testConfig) &&
    (FrameLimit testConfig <? frameSize payload_4GiB) = false /\
  (exists fb,
     assemble (mkEncoder testConfig) payload_4GiB = Some fb /\
     ReadableBytes fb <> frameSize payload_4GiB) /\
  Encode (mkEncoder testConfig) (AnyBytes payload_4GiB)
    = Some (None, Some (EncodeError "TLVFrameEncoder" "ByteBuf issue")).
Proof.
  assert (Hlen : len payload_4GiB = 2 ^ 32).
  { unfold payload_4GiB. by apply len_replicate. }
  assert (Hfs : frameSize payload_4GiB = 5).
  { unfold frameSize, payloadLength. rewrite Hlen. reflexivity. }
  assert (Hpass : (0 <? FrameLimit testConfig) &&
                  (FrameLimit testConfig <? frameSize payload_4GiB) = false).
  { rewrite Hfs. reflexivity. }
  split; [exact Hpass |]. split.
  - destruct (assemble_spec (mkEncoder testConfig) payload_4GiB)
      as (fb & Ha & _ & _).
    exists fb. split; [exact Ha |].
    rewrite (assemble_readable_bytes _ _ _ Ha), Hfs, Hlen. lia.
  - destruct (Encode_oversize (mkEncoder testConfig) payload_4GiB)
      as (cause & -> & Hcause); [rewrite Hlen; lia |].
    by rewrite (Hcause Hpass).
Qed.

(** C9, amended.  For every byte slice whose frame size
    [1 + 4 + len(payload)] is below [2^32], the assembled buffer's readable
    byte count equals the predicted frame size and [Encode] does not return
    the "ByteBuf issue" error. *)
Theorem Encode_ByteBuf_issue_unreachable c payload :
  len payload + 5 < 2 ^ 32 ->
  exists fb,
    assemble c payload = Some fb /\
    ReadableBytes fb = frameSize payload /\
    Encode c (AnyBytes payload) <>
      Some (None, Some (EncodeError "TLVFrameEncoder" "ByteBuf issue")).
Proof.
  intros Hsmall.
  destruct (assemble_spec c payload) as (fb & Ha & _ & _).
  destruct (frameSize_small payload Hsmall) as [_ Hfs].
  exists fb. split; [exact Ha |]. split.
  - by rewrite (assemble_readable_bytes _ _ _ Ha), Hfs.
  - rewrite Encode_bytes_spec.
    destruct ((0 <? FrameLimit (EncConfig c)) &&
              (FrameLimit (EncConfig c) <? frameSize payload)).
    + unfold encodeFailure. cbn. intros H. discriminate H.
    + destruct (Z.ltb_spec (len payload + 5) (2 ^ 32)); [| lia].
      discriminate.
Qed.

Lemma Encode_ByteBuf_issue_unreachable_witness :
  len helloWorld + 5 < 2 ^ 32 /\
  exists fb,
    assemble (mkEncoder testConfig) helloWorld = Some fb /\
    ReadableBytes fb = frameSize helloWorld /\
    Encode (mkEncoder testConfig) (AnyBytes helloWorld) <>
      Some (None, Some (EncodeError "TLVFrameEncoder" "ByteBuf issue")).
Proof.
  assert (H : len helloWorld + 5 < 2 ^ 32) by (vm_compute; reflexivity).
  split; [exact H |].
  exact (Encode_ByteBuf_issue_unreachable (mkEncoder testConfig) helloWorld H).
Defined.

(** ** C8 *)

Lemma Uint16_PutUint16 v b0 b1 :
  0 <= v < 2 ^ 16 -> PutUint16 v = [b0; b1] -> Uint16 b0 b1 = v.
Proof.
  intros Hv Heq. unfold PutUint16 in Heq. injection Heq as <- <-.
  unfold Uint16. apply Z.bits_inj'. intros n Hn.
  rewrite !Z.lor_spec, !Z.shiftl_spec, !byte_testbit by lia.
  destruct (Z.ltb_spec n 16) as [Hlt | Hge].
  - destruct (Z.leb_spec 0 n); [| lia].
    destruct (Z.leb_spec 0 (n - 8)), (Z.ltb_spec n 8), (Z.ltb_spec (n - 8) 8);
      cbn [andb orb]; try lia;
      rewrite ?orb_false_r, ?Z.shiftr_spec by lia; f_equal; lia.
  - assert (Z.testbit v n = false) as ->.
    { destruct (Z.eq_dec v 0) as [-> | Hne]; [apply Z.bits_0 |].
      apply Z.bits_above_log2; [lia |].
      assert (Z.log2 v < 16) by (apply Z.log2_lt_pow2; lia). lia. }
    destruct (Z.leb_spec 0 n); [| lia].
    destruct (Z.ltb_spec n 8), (Z.ltb_spec (n - 8) 8); try lia.
    by rewrite !andb_false_r.
Qed.

Import Apollo TypedExamples.

Section ApolloDecode.
Context {Entity : Type}.
Variable Unmarshal : list byte -> Entity -> error + Entity.

(** C8.  Let the bytes pending at an Apollo decoder begin with a
    well-formed TLV frame (right tag, length fitting 32 bits, size within
    the frame limit) whose VALUE is a 2-byte big-endian type code followed
    by a body, and let no constructor be registered for that type code.
    Then [Decode] consumes the frame and returns [(nil, nil)]: no message
    and no error. *)
Theorem Apollo_unknown_type_code_skipped
    (d : ApolloFrameDecoder Entity) inb typeCode body rest :
  apolloPending d inb
    (frame (tlvConfig (Config d)) (PutUint16 typeCode ++ body) ++ rest) ->
  encodable (tlvConfig (Config d)) (PutUint16 typeCode ++ body) ->
  0 <= typeCode < 2 ^ 16 ->
  entityConstructors (Config d) !! typeCode = None ->
  exists d' inb',
    Apollo.Decode Unmarshal d inb = Some ((None, None), d', inb') /\
    apolloPending d' inb' rest.
Proof.
  intros Hpend Henc Hcode Hunreg.
  set (cfg := tlvConfig (Config d)) in *.
  set (value := PutUint16 typeCode ++ body) in *.
  unfold apolloPending in Hpend. fold cfg in Hpend.
  destruct (PutUint16 typeCode) as [| b0 [| b1 [| ? ?]]] eqn:Hput;
    try discriminate Hput.
  pose proof (Uint16_PutUint16 _ _ _ Hcode Hput) as Htc.
  (* the input buffer is not empty *)
  assert (Hne : (ReadableBytes inb =? 0) = false).
  { destruct Hpend as (Hwf & h & Hlat & Hs).
    pose proof (readable_length _ Hwf) as Hl.
    apply (f_equal (@length byte)) in Hs.
    unfold frame in Hs. subst value.
    rewrite !length_app in Hs. cbn [length] in Hs.
    rewrite !length_app, PutUint32_length in Hs. cbn [length] in Hs.
    assert (length h <= 5)%nat by (destruct Hlat; cbn; lia).
    unfold ReadableBytes. rewrite <- Hl. unfold len.
    apply Z.eqb_neq. lia. }
  destruct (Decode_complete cfg _ inb value rest Hpend Henc)
    as (inb1 & Hdec & Hpend1).
  (* the scratch buffer holds the value *)
  destruct (NewElasticUnsafeByteBuf_wf (len value)) as [Hwf0 Hrd0].
  destruct (WriteBytes_spec _ value Hwf0) as (vb & Hwv & Hwfv & Hrdv & _).
  rewrite Hrd0 in Hrdv. cbn [app] in Hrdv.
  pose proof (readable_length _ (wf_in_bounds _ Hwfv)) as Hlv.
  rewrite Hrdv in Hlv.
  assert (Hlen2 : 2 <= calcReadableBytes vb).
  { rewrite <- Hlv. subst value. unfold len. cbn [app length]. lia. }
  (* the two bytes of the type code *)
  destruct (ReadBytes_prefix vb [b0; b1] body (wf_in_bounds _ Hwfv))
  as (vb1 & Hr1 & Hwf1 & Hrd1).
  { by rewrite Hrdv. }
  change (len [b0; b1]) with 2 in Hr1.
  (* the body *)
  destruct (ReadBytes_prefix vb1 (readable vb1) [] Hwf1) as (vb2 & Hr2 & _).
  { by rewrite app_nil_r. }
  rewrite (readable_length _ Hwf1) in Hr2.
  eexists _, inb1. split.
  - unfold Apollo.Decode. rewrite Hne. cbv zeta.
    fold cfg. rewrite Hdec. cbn [mbind option_bind].
    rewrite Hwv. cbn [mbind option_bind].
    unfold ReadableBytes.
    destruct (Z.ltb_spec (calcReadableBytes vb) 2); [lia |].
    unfold Read_typeCode, Read.
    change (len [x00; x00]) with 2.
    destruct (Z.ltb_spec 2 (calcReadableBytes vb)) as [_ | Heq2].
    + cbn [Z.eqb]. rewrite Hr1. cbn [mbind option_bind].
      unfold copy. cbn [length take drop app Z.eqb Pos.eqb mbind option_bind].
      rewrite Hr2. cbn [mbind option_bind].
      unfold createEntity. cbn [Config].
      rewrite Htc, Hunreg. reflexivity.
    + assert (calcReadableBytes vb = 2) as -> by lia.
      cbn [Z.eqb Pos.eqb]. rewrite Hr1. cbn [mbind option_bind].
      unfold copy. cbn [length take drop app Z.eqb Pos.eqb mbind option_bind].
      rewrite Hr2. cbn [mbind option_bind].
      unfold createEntity. cbn [Config].
      rewrite Htc, Hunreg. reflexivity.
  - exact Hpend1.
Qed.

End ApolloDecode.

Lemma Apollo_unknown_type_code_skipped_witness :
  entityConstructors (Config (NewApolloFrameDecoder commandConfig)) !! 2 = None /\
  exists d' inb',
    Apollo.Decode commandUnmarshal (NewApolloFrameDecoder commandConfig)
                  unknownCodeInput
      = Some ((None, None), d', inb') /\
    apolloPending d' inb' [].
Proof.
  assert (Hunreg : entityConstructors (Config (NewApolloFrameDecoder commandConfig))
                     !! 2 = None) by reflexivity.
  split; [exact Hunreg |].
  apply (Apollo_unknown_type_code_skipped commandUnmarshal
           (NewApolloFrameDecoder commandConfig) unknownCodeInput 2 [x01] []).
  - split; [unfold in_bounds, len; cbn; lia |].
    exists []. split; [apply latched_none | reflexivity].
  - unfold encodable, len. cbn. lia.
  - lia.
  - exact Hunreg.
Defined.

(** ** C7 *)

Import Chan Ack.

(** C7, the claim as stated fails, in two ways.  With the nil key the three
    calls return at once and [WaitAck] yields [(nil, nil)], not the committed
    value.  With a key whose slot already buffers an earlier commit,
    [InitAck] does nothing and [WaitAck] yields the earlier value. *)
Lemma WaitAck_nil_key_and_stale_slot :
  (exists m : SafeAckManager (K := Z) Z,
     CommitAck (InitAck NewAckManager None) None (Some 5) = Returns m /\
     WaitAck m None 0 false = Returns (None, None, m)) /\
  (exists m1 m2 m3 : SafeAckManager (K := Z) Z,
     CommitAck (InitAck NewAckManager (Some 7)) (Some 7) (Some 1) = Returns m1 /\
     CommitAck (InitAck m1 (Some 7)) (Some 7) (Some 2) = Returns m2 /\
     WaitAck m2 (Some 7) 0 false = Returns (Some 1, None, m3)).
Proof.
  split.
  - eexists. split; reflexivity.
  - eexists _, _, _. split; [| split]; vm_compute; reflexivity.
Qed.

(** C7, amended.  For every non-nil key [k] for which the manager holds no
    slot and every value [v], [InitAck(k)], then [CommitAck(k, v)], then
    [WaitAck(k, t)] without a timer ([t <= 0]) returns [(v, nil)]: the commit
    does not block, its value is buffered in the slot's channel and handed to
    the waiter, and the waiter removes the slot, which leaves the manager as
    it was before [InitAck]. *)
Theorem Ack_commit_then_wait `{Countable K} {V : Type}
    (m : SafeAckManager (K := K) V) (k : K) (v : option V)
    (timeout : Z) (timerFirst : bool) :
  ackRespChanMap m !! k = None ->
  timeout <= 0 ->
  exists m1 m2,
    CommitAck (InitAck m (Some k)) (Some k) v = Returns m1 /\
    (exists c, ackRespChanMap m1 !! k = Some c /\ queue c = [mkResp v None]) /\
    WaitAck m1 (Some k) timeout timerFirst = Returns (v, None, m2) /\
    ackRespChanMap m2 !! k = None /\
    m2 = m.
Proof.
  intros Hfree Ht. destruct m as [slots]. cbn [ackRespChanMap] in Hfree.
  eexists _, _. split; [| split; [| split; [| split]]].
  - unfold InitAck, CommitAck. cbn [ackRespChanMap]. rewrite Hfree.
    cbn [ackRespChanMap]. rewrite lookup_insert_eq. reflexivity.
  - eexists. cbn [ackRespChanMap]. rewrite lookup_insert_eq.
    split; reflexivity.
  - unfold WaitAck. cbn [ackRespChanMap]. rewrite lookup_insert_eq.
    destruct (Z.ltb_spec 0 timeout) as [Hpos | _]; [lia |].
    cbn [andb recv queue data err]. reflexivity.
  - cbn [ackRespChanMap]. apply lookup_delete_eq.
  - f_equal. rewrite !delete_insert_eq. by apply delete_id.
Qed.

Lemma Ack_commit_then_wait_witness :
  ackRespChanMap (NewAckManager (K := Z) (V := Z)) !! 7 = None /\
  exists m1 : SafeAckManager (K := Z) Z,
    CommitAck (InitAck NewAckManager (Some 7)) (Some 7) (Some 42) = Returns m1 /\
    WaitAck m1 (Some 7) 0 false = Returns (Some 42, None, NewAckManager).
Proof.
  assert (Hfree : ackRespChanMap (NewAckManager (K := Z) (V := Z)) !! 7 = None)
    by reflexivity.
  split; [exact Hfree |].
  destruct (Ack_commit_then_wait (NewAckManager (K := Z) (V := Z)) 7 (Some 42) 0 false
              Hfree)
    as (m1 & m2 & Hc & _ & Hw & _ & Hm).
  - lia.
  - exists m1. split; [exact Hc |]. rewrite Hw, Hm. reflexivity.
Defined.

(** ** C6 *)

Import Pipeline.

Section Lifecycle.
Context {Msg : Type}.
Implicit Types cp : duplexPipeline Msg.

Lemma Init_cases cp :
  (state cp = stateNew /\ (Init cp).1 = cp /\ (Init cp).2 <> None) \/
  (state cp = stateNew /\ state (Init cp).1 = stateReady /\
   (Init cp).2 = None /\ channelsOpen (Init cp).1) \/
  (state cp <> stateNew /\ Init cp = (cp, None)).
Proof.
  unfold Init. case_bool_decide as Hs; [| by right; right].
  destruct (conn cp); cbn [negb]; [| by left].
  destruct (decoder cp); cbn [negb]; [| by left].
  destruct (encoder cp); cbn [negb]; [| by left].
  destruct (handler cp); cbn [negb]; [| by left].
  right; left. unfold channelsOpen. cbn.
  repeat split; try done; eexists; split; reflexivity.
Qed.

Lemma Start_cases cp :
  (state cp = stateReady /\ state (Start cp).1 = stateRunning /\
   (channelsOpen cp -> channelsOpen (Start cp).1)) \/
  (state cp <> stateReady /\ Start cp = (cp, None)).
Proof.
  unfold Start. case_bool_decide as Hs; [by right |].
  left. split; [done |]. split; [done |].
  unfold channelsOpen. rewrite Hs. cbn. done.
Qed.

Lemma Stop_cases cp :
  (state cp = stateRunning /\
   (Stop cp = None \/
    exists cp', Stop cp = Some cp' /\ state cp' = stateShutdown)) \/
  (state cp <> stateRunning /\ Stop cp = Some cp).
Proof.
  unfold Stop. case_bool_decide as Hs; [by right |].
  left. split; [done |].
  destruct (close (inboundHandlerStopC cp)); [| by left].
  destruct (close (outboundHandlerStopC cp)); [| by left].
  destruct (close (inboundDataC cp)); [| by left].
  destruct (close (outboundDataC cp)); [| by left].
  right. eexists. split; reflexivity.
Qed.

Lemma Stop_running cp :
  state cp = stateRunning -> channelsOpen cp ->
  exists cp', Stop cp = Some cp' /\ state cp' = stateShutdown.
Proof.
  intros Hs Hopen. unfold channelsOpen in Hopen. rewrite Hs in Hopen.
  destruct Hopen as ((c1 & H1 & Hc1) & (c2 & H2 & Hc2) &
                     (c3 & H3 & Hc3) & (c4 & H4 & Hc4)).
  unfold Stop. rewrite bool_decide_eq_false_2 by (intros Hne; by apply Hne).
  rewrite H1, H2, H3, H4. unfold close. rewrite Hc1, Hc2, Hc3, Hc4.
  cbn [mbind option_bind]. eexists. split; reflexivity.
Qed.

(** One call moves the state along at most one edge, and keeps the
    channels in place. *)
Lemma call_edge cp op :
  channelsOpen cp ->
  exists cp',
    call cp op = Some cp' /\ channelsOpen cp' /\
    ((state cp' = state cp /\
      edgesFrom (state cp') = edgesFrom (state cp)) \/
     exists rest,
       edgesFrom (state cp) = (state cp, state cp') :: rest /\
       edgesFrom (state cp') = rest /\
       state cp' <> state cp).
Proof.
  intros Hopen. destruct op; cbn [call].
  - eexists. split; [reflexivity |].
    destruct (Init_cases cp) as [(Hs & -> & _) | [(Hs & Hs' & _ & Hopen') | (Hs & ->)]].
    + split; [done |]. by left.
    + split; [done |]. right. rewrite Hs, Hs'. by eexists.
    + split; [done |]. by left.
  - eexists. split; [reflexivity |].
    destruct (Start_cases cp) as [(Hs & Hs' & Hopen') | (Hs & ->)].
    + split; [by apply Hopen' |]. right. rewrite Hs, Hs'. by eexists.
    + split; [done |]. by left.
  - destruct (decide (state cp = stateRunning)) as [Hs | Hs].
    + destruct (Stop_running cp Hs Hopen) as (cp' & Hstop & Hs').
      exists cp'. split; [done |].
      split; [unfold channelsOpen; by rewrite Hs' |].
      right. rewrite Hs, Hs'. by eexists.
    + exists cp. unfold Stop. rewrite bool_decide_eq_true_2 by done.
      split; [done |]. split; [done |]. by left.
Qed.

Lemma transitions_ahead ops : forall cp,
  channelsOpen cp ->
  exists ts,
    transitions cp ops = Some ts /\
    ts `sublist_of` edgesFrom (state cp).
Proof.
  induction ops as [| op ops IH]; intros cp Hopen.
  - exists []. split; [done |]. apply sublist_nil_l.
  - destruct (call_edge cp op Hopen) as (cp' & Hcall & Hopen' & Hedge).
    destruct (IH cp' Hopen') as (ts & Hts & Hsub).
    cbn [transitions]. rewrite Hcall. cbn [mbind option_bind].
    rewrite Hts. cbn [mbind option_bind].
    destruct Hedge as [(Hsame & Hedges) | (rest & Hfrom & Hrest & Hne)].
    + exists ts. rewrite bool_decide_eq_true_2 by done.
      split; [done |]. by rewrite <- Hedges.
    + eexists. rewrite bool_decide_eq_false_2 by done.
      split; [reflexivity |]. rewrite Hfrom. apply sublist_skip.
      by rewrite <- Hrest.
Qed.

(** C6.  Take a pipeline as [InitPipeline] builds it, with any of its
    collaborators nil or not, and any sequence of [Init], [Start] and [Stop]
    calls by any callers.  No call panics, and the changes of state that
    occur are, in this order and each at most once, New to Ready, Ready to
    Running, Running to Shutdown.  On any pipeline, [Init] moves only from
    New to Ready (or fails its validation and leaves New), [Start] only from
    Ready to Running and [Stop] only from Running to Shutdown; in any other
    state each of them returns the pipeline as it was. *)
Theorem Pipeline_lifecycle_order
    (conn decoder encoder handler : bool) (ops : list lifecycleCall)
    cp :
  (exists ts,
     transitions (newPipeline (Msg := Msg) conn decoder encoder handler) ops = Some ts /\
     ts `sublist_of` edges) /\
  ((state cp = stateNew /\ (Init cp).1 = cp /\ (Init cp).2 <> None) \/
   (state cp = stateNew /\ state (Init cp).1 = stateReady /\
    (Init cp).2 = None) \/
   (state cp <> stateNew /\ Init cp = (cp, None))) /\
  ((state cp = stateReady /\ state (Start cp).1 = stateRunning) \/
   (state cp <> stateReady /\ Start cp = (cp, None))) /\
  ((state cp = stateRunning /\
    (Stop cp = None \/
     exists cp', Stop cp = Some cp' /\ state cp' = stateShutdown)) \/
   (state cp <> stateRunning /\ Stop cp = Some cp)).
Proof.
  split; [| split; [| split]].
  - apply (transitions_ahead ops (newPipeline conn decoder encoder handler)).
    exact I.
  - destruct (Init_cases cp) as [? | [(? & ? & ? & _) | ?]]; auto.
  - destruct (Start_cases cp) as [(? & ? & _) | ?]; auto.
  - apply Stop_cases.
Qed.

End Lifecycle.

(** A run with calls out of turn: only the three edges are taken, once
    each. *)
Example lifecycle_run :
  transitions (newPipeline (Msg := Z) true true true true)
              [CallStart; CallStop; CallInit; CallInit; CallStop; CallStart;
               CallStart; CallInit; CallStop; CallStop; CallStart; CallInit]
    = Some edges.
Proof. reflexivity. Qed.

(** With a nil handler [Init] fails and the pipeline never leaves New. *)
Example lifecycle_nil_handler :
  (Init (newPipeline (Msg := Z) true true true false)).2 = Some NilHandlerError /\
  transitions (newPipeline (Msg := Z) true true true false)
              [CallInit; CallStart; CallStop; CallInit] = Some [].
Proof. split; reflexivity. Qed.

(** ** C3 *)

Section Outbound.
Context {Msg : Type}.
Variable Encode : Msg -> option (list byte) * option error.
Variable connWrite : option (list byte) -> Z * option error.
Implicit Types cp : duplexPipeline Msg.

(** The worker invokes the callback of the entry it handles exactly
    once. *)
Lemma handleOutboundData_invocations (m : Msg) cb :
  invocations cb (handleOutboundData Encode connWrite (mkEntity m (Some cb))) = 1%nat.
Proof.
  unfold handleOutboundData, invocations. cbn [Data Callback].
  destruct (Encode m) as [r [e |]].
  - cbn. by rewrite Nat.eqb_refl.
  - destruct (connWrite r) as [n w]. cbn. by rewrite Nat.eqb_refl.
Qed.

(** C3.  The claim: on a pipeline that is not Running, [SendFuture]
    invokes the callback with the closed-pipeline error and does not enqueue
    the entry.  The code has no [return] after that invocation.  On the
    Ready pipeline that [InitPipeline] returns, [SendFuture(msg, cb)] invokes
    [cb] and also pushes the entry; once the pipeline is started the
    outbound worker handles the entry and invokes [cb] a second time.  On a
    stopped pipeline [SendFuture] invokes [cb] and then panics on the closed
    outbound queue. *)
Theorem SendFuture_not_running_still_enqueues (m : Msg) (cb : nat) :
  state (readyPipeline (Msg := Msg)) = stateReady /\
  (exists queued evs after,
     SendFuture readyPipeline (Some m) (Some cb)
       = ([Invoked cb (Some closedError)], Returned queued) /\
     queuedCallbacks queued = [cb] /\
     outboundTurn Encode connWrite (Start queued).1 = Some (evs, after) /\
     invocations cb ([Invoked cb (Some closedError)] ++ evs) = 2%nat) /\
  (exists stopped,
     Stop (Start (readyPipeline (Msg := Msg))).1 = Some stopped /\
     state stopped = stateShutdown /\
     SendFuture stopped (Some m) (Some cb)
       = ([Invoked cb (Some closedError)], Panicked)).
Proof.
  split; [reflexivity |]. split.
  - eexists _, _, _. split; [reflexivity |]. split; [reflexivity |].
    split; [reflexivity |].
    unfold invocations. cbn [app List.filter isInvocation].
    rewrite Nat.eqb_refl. cbn [length]. f_equal.
    apply handleOutboundData_invocations.
  - eexists. split; [reflexivity |]. split; reflexivity.
Qed.

(** ** C10 *)

Lemma invocations_app cb (evs evs' : list event) :
  invocations cb (evs ++ evs') = (invocations cb evs + invocations cb evs')%nat.
Proof. unfold invocations. by rewrite List.filter_app, length_app. Qed.

Lemma handleOutboundData_other self (e : OutboundEntity Msg) :
  Callback e <> Some self ->
  invocations self (handleOutboundData Encode connWrite e) = 0%nat.
Proof.
  intros Hne. unfold handleOutboundData, invocations.
  destruct (Encode (Data e)) as [r [err |]].
  - destruct (Callback e) as [cb |]; [| done]. cbn.
    destruct (Nat.eqb_spec cb self) as [-> | _]; [by destruct Hne | done].
  - destruct (connWrite r) as [n w].
    destruct (Callback e) as [cb |]; [| done]. cbn.
    destruct (Nat.eqb_spec cb self) as [-> | _]; [by destruct Hne | done].
Qed.

Lemma queuedCallbacks_call cp op cp' :
  call cp op = Some cp' ->
  queuedCallbacks cp' = queuedCallbacks cp \/ queuedCallbacks cp' = [].
Proof.
  destruct op; cbn [call].
  - intros [= <-]. unfold Init.
    case_bool_decide; [| by left].
    destruct (conn cp), (decoder cp), (encoder cp), (handler cp);
      cbn [negb fst]; first [left; reflexivity | right; reflexivity].
  - intros [= <-]. unfold Start. case_bool_decide; by left.
  - unfold Stop. case_bool_decide; [by intros [= <-]; left |].
    destruct (inboundHandlerStopC cp) as [[? ? []] |]; try discriminate;
    destruct (outboundHandlerStopC cp) as [[? ? []] |]; try discriminate;
    destruct (inboundDataC cp) as [[? ? []] |]; try discriminate.
    unfold queuedCallbacks.
    destruct (outboundDataC cp) as [[q n []] |]; try discriminate.
    cbn. intros [= <-]. by left.
Qed.

(** While a callback is in no queued entry, nothing that goes on in the
    pipeline invokes it or puts it in the queue. *)
Lemma step_keeps_out self cp evs cp' :
  step Encode connWrite self cp evs cp' ->
  self ∉ queuedCallbacks cp ->
  invocations self evs = 0%nat /\ self ∉ queuedCallbacks cp'.
Proof.
  intros Hstep Hout. destruct Hstep as [cp evs cp' Hturn | cp op cp' Hcall
                                       | cp msg callback evs cp' Hcb Hsend].
  - unfold outboundTurn in Hturn.
    destruct (outboundHandler cp); [| discriminate].
    unfold queuedCallbacks in *.
    destruct (outboundDataC cp) as [c |]; [| discriminate].
    destruct (queue c) as [| e q] eqn:Hq; [discriminate |].
    injection Hturn as <- <-. cbn [omap list_omap] in Hout.
    split.
    + apply handleOutboundData_other. intros Heq. apply Hout.
      rewrite Heq. cbn. apply list_elem_of_here.
    + cbn. intros Hin. apply Hout.
      destruct (Callback e); [by apply list_elem_of_further | done].
  - split; [done |].
    destruct (queuedCallbacks_call _ _ _ Hcall) as [-> | ->]; [done |].
    apply not_elem_of_nil.
  - unfold SendFuture in Hsend. destruct msg as [m |].
    + assert (Hevs : invocations self
                       (if bool_decide (state cp ≠ stateRunning)
                        then match callback with
                             | Some cb => [Invoked cb (Some closedError)]
                             | None => []
                             end
                        else []) = 0%nat).
      { case_bool_decide; [| done]. destruct callback as [cb |]; [| done].
        unfold invocations. cbn.
        destruct (Nat.eqb_spec cb self) as [-> | _]; [by destruct Hcb | done]. }
      unfold queuedCallbacks in *.
      destruct (outboundDataC cp) as [c |] eqn:Hoc.
      * unfold send in Hsend. destruct (closed c); [discriminate |].
        destruct (bool_decide (length (queue c) < cap c)%nat); [| discriminate].
        injection Hsend as <- <-. split; [exact Hevs |].
        cbn. rewrite omap_app. intros Hin.
        apply elem_of_app in Hin as [Hin | Hin]; [by apply Hout |].
        cbn in Hin. destruct callback as [cb |].
        -- apply list_elem_of_singleton in Hin as <-. by apply Hcb.
        -- by apply not_elem_of_nil in Hin.
      * injection Hsend as <- <-. split; [exact Hevs | by rewrite Hoc].
    + injection Hsend as <- <-. done.
Qed.

Lemma steps_keep_out self cp evs cp' :
  steps Encode connWrite self cp evs cp' ->
  self ∉ queuedCallbacks cp ->
  invocations self evs = 0%nat.
Proof.
  induction 1 as [| cp evs cp' evs' cp'' Hstep _ IH]; intros Hout; [done |].
  destruct (step_keeps_out _ _ _ _ Hstep Hout) as [H0 Hout'].
  rewrite invocations_app, H0. by apply IH.
Qed.

(** C10.  For every pipeline and every callback, [SendFuture(nil, cb)]
    returns at once: nothing is enqueued, the pipeline is as it was and [cb]
    is not invoked.  So [Send(nil)] finds its result channel empty and
    waits on it; its callback, a closure made for this call that is in no
    queued entry, is in none afterwards and is never invoked, whatever the
    outbound worker, the lifecycle calls and the other senders do: the wait
    has no end. *)
Theorem Send_nil_blocks_forever cp (callback : option nat) (self : nat) :
  self ∉ queuedCallbacks cp ->
  SendFuture cp None callback = ([], Returned cp) /\
  Send cp None self = ([], Waiting cp) /\
  forall evs cp',
    steps Encode connWrite self cp evs cp' ->
    invocations self evs = 0%nat /\ firstInvocation self evs = None.
Proof.
  intros Hout. split; [reflexivity |]. split; [reflexivity |].
  intros evs cp' Hsteps.
  pose proof (steps_keep_out _ _ _ _ Hsteps Hout) as H0.
  split; [exact H0 |].
  clear -H0. induction evs as [| [cb err | err | bs] evs IH]; [done | | |].
  - unfold invocations in *. cbn in *.
    destruct (Nat.eqb_spec cb self); [discriminate | by apply IH].
  - by apply IH.
  - by apply IH.
Qed.

End Outbound.

Lemma Send_nil_blocks_forever_witness :
  (2%nat ∉ queuedCallbacks busyPipeline) /\
  Send busyPipeline None 2 = ([], Waiting busyPipeline) /\
  forall evs cp',
    steps echoEncode writeAll 2 busyPipeline evs cp' ->
    invocations 2 evs = 0%nat /\ firstInvocation 2 evs = None.
Proof.
  assert (Hout : 2%nat ∉ queuedCallbacks busyPipeline).
  { cbn. apply not_elem_of_cons. split; [lia | apply not_elem_of_nil]. }
  split; [exact Hout |].
  exact (proj2 (Send_nil_blocks_forever echoEncode writeAll busyPipeline None 2 Hout)).
Defined.

(** * Further properties of the code *)

(** ** ByteBuf as a queue of bytes *)

Import ByteQueue MoreExamples.

Lemma readable_advance pb k :
  0 <= readIndex pb -> 0 <= k ->
  readable (mkBuf (buffer pb) (readIndex pb + k) (writeIndex pb) (capacity pb)) =
  drop (Z.to_nat k) (readable pb).
Proof.
  intros Hr Hk. unfold readable. cbn.
  rewrite skipn_firstn_comm, drop_drop. f_equal; [lia |]. f_equal. lia.
Qed.

(** [ReadBytes(n)] as a dequeue: for every [n], negative ones included. *)
Lemma ReadBytes_queue pb n :
  in_bounds pb ->
  exists pb',
    ReadBytes pb n =
      Some (take (Z.to_nat n) (readable pb) ++
            replicate (Z.to_nat n - length (readable pb)) x00, pb') /\
    readable pb' = drop (Z.to_nat n) (readable pb) /\
    in_bounds pb' /\
    buffer pb' = buffer pb /\ writeIndex pb' = writeIndex pb /\
    capacity pb' = capacity pb /\
    readIndex pb <= readIndex pb' <= writeIndex pb.
Proof.
  intros Hb. pose proof Hb as (Hr & Hrw & Hw).
  destruct (in_bounds_split pb Hb) as (_ & _ & Hl).
  destruct (Z.ltb_spec n 0) as [Hneg | Hnn].
  - exists pb. rewrite ReadBytes_negative by done.
    replace (Z.to_nat n) with 0%nat by lia. cbn. rewrite drop_0.
    repeat split; try done; lia.
  - rewrite (ReadBytes_spec pb n Hb Hnn). cbv zeta.
    unfold calcReadableBytes.
    destruct (Z.le_gt_cases n (writeIndex pb - readIndex pb)) as [Hle | Hgt].
    + rewrite Z.min_l by lia. eexists. split; [| split].
      * replace (Z.to_nat n - length (readable pb))%nat
          with (Z.to_nat (n - n)) by (rewrite Hl; lia).
        reflexivity.
      * apply readable_advance; lia.
      * unfold in_bounds. cbn. repeat split; lia.
    + rewrite Z.min_r by lia. eexists. split; [| split].
      * rewrite !take_ge by lia.
        replace (Z.to_nat n - length (readable pb))%nat
          with (Z.to_nat (n - (writeIndex pb - readIndex pb)))
          by (rewrite Hl; lia).
        reflexivity.
      * rewrite readable_advance by lia. by rewrite !drop_ge by lia.
      * unfold in_bounds. cbn. repeat split; lia.
Qed.

Lemma wf_backed pb : wf pb -> backed pb.
Proof. unfold wf, backed, in_bounds. lia. Qed.

(** [Release] loses no readable byte as long as the array is not larger
    than the [capacity] field says. *)
Lemma Release_backed pb :
  backed pb ->
  exists pb',
    Release pb = Some pb' /\ backed pb' /\ readable pb' = readable pb.
Proof.
  intros ((Hr & Hrw & Hw) & Hcap). unfold Release.
  rewrite make_Some by lia. cbn [mbind option_bind].
  rewrite slice_Some by lia. cbn [mbind option_bind].
  eexists. split; [reflexivity |].
  fold (readable pb).
  assert (Hl : length (readable pb) = Z.to_nat (writeIndex pb - readIndex pb)).
  { unfold readable, len in *. rewrite length_take, length_drop. lia. }
  rewrite copy_short by (rewrite length_replicate; lia).
  split.
  - unfold backed, in_bounds, len in *. cbn.
    rewrite length_app, length_drop, length_replicate. lia.
  - unfold readable at 1. cbn.
    by rewrite Z.sub_0_r, drop_0, <- Hl, take_app_length.
Qed.

Lemma ReadBytes_backed pb n pb' bs :
  backed pb -> ReadBytes pb n = Some (bs, pb') -> backed pb'.
Proof.
  intros [Hb Hcap] Hread.
  destruct (ReadBytes_queue pb n Hb) as (pb1 & Hr & _ & Hb1 & Hbuf & _ & Hc & _).
  rewrite Hr in Hread. injection Hread as _ <-.
  split; [done |]. by rewrite Hbuf, Hc.
Qed.

(** With no write, reads and releases in any order behave as the queue. *)
Lemma runOps_queue_backed ops : forall pb,
  backed pb -> Forall (fun op => isWrite op = false) ops ->
  exists pb',
    runOps pb ops = Some ((queueOps (readable pb) ops).1, pb') /\
    backed pb' /\ readable pb' = (queueOps (readable pb) ops).2.
Proof.
  induction ops as [| op ops IH]; intros pb Hb Hno.
  { by exists pb. }
  apply Forall_cons in Hno as [Hop Hno].
  destruct op as [bytes | n |]; [discriminate | |].
  - destruct (ReadBytes_queue pb n (proj1 Hb))
      as (pb1 & Hr & Hrd1 & _).
    pose proof (ReadBytes_backed _ _ _ _ Hb Hr) as Hb1.
    destruct (IH pb1 Hb1 Hno) as (pb' & Hrun & Hb' & Hrd').
    exists pb'. cbn [runOps queueOps]. rewrite Hr. cbn [mbind option_bind].
    rewrite Hrun. cbn [mbind option_bind]. rewrite <- Hrd1.
    destruct (queueOps (readable pb1) ops) as [rs q']. by cbn in *.
  - destruct (Release_backed pb Hb) as (pb1 & Hrel & Hb1 & Hrd1).
    destruct (IH pb1 Hb1 Hno) as (pb' & Hrun & Hb' & Hrd').
    exists pb'. cbn [runOps queueOps]. rewrite Hrel. cbn [mbind option_bind].
    by rewrite <- Hrd1.
Qed.

(** The reallocation of [WriteBytes]: the new capacity, and only when the
    bytes do not fit. *)
Lemma WriteBytes_capacity pb bytes pb' :
  WriteBytes pb bytes = Some pb' ->
  capacity pb' =
    if (negb (len bytes =? 0)) && (calcWritableBytes pb <? len bytes)
    then growSize (len bytes + writeIndex pb) else capacity pb.
Proof.
  unfold WriteBytes. intros Hw.
  destruct (len bytes =? 0); [by injection Hw as <- |].
  cbn [negb andb].
  destruct (calcWritableBytes pb <? len bytes).
  - destruct (Slice.make _) as [newBuffer |]; [| discriminate].
    cbn [mbind option_bind] in Hw.
    destruct (slice_from _ _); [| discriminate]. by injection Hw as <-.
  - cbn [mbind option_bind] in Hw.
    destruct (slice_from _ _); [| discriminate]. by injection Hw as <-.
Qed.

(** X1.  Started on a well-formed buffer, a sequence of [WriteBytes] and
    [ReadBytes] calls with no [Release], in which no read asks for more
    bytes than the array of the buffer holds at the start, never panics and
    behaves as a first-in first-out queue of bytes: each read returns the
    oldest unread bytes in the order they were written, padded with zero
    bytes when it asks for more than is there; the buffer ends well-formed,
    its readable region being what the queue still holds. *)
Theorem ByteBuf_queue_without_Release pb ops :
  wf pb -> Forall (fun op => isRelease op = false) ops ->
  Forall (fun op => readLength op <= capacity pb) ops ->
  exists pb',
    runOps pb ops = Some ((queueOps (readable pb) ops).1, pb') /\
    wf pb' /\ readable pb' = (queueOps (readable pb) ops).2.
Proof.
  intros Hwf Hno _. revert pb Hwf.
  induction ops as [| op ops IH]; intros pb Hwf.
  { by exists pb. }
  apply Forall_cons in Hno as [Hop Hno].
  destruct op as [bytes | n |]; [| | discriminate].
  - destruct (WriteBytes_spec pb bytes Hwf) as (pb1 & Hw & Hwf1 & Hrd1 & _).
    destruct (IH Hno pb1 Hwf1) as (pb' & Hrun & Hwf' & Hrd').
    exists pb'. cbn [runOps queueOps]. rewrite Hw. cbn [mbind option_bind].
    by rewrite <- Hrd1.
  - destruct (ReadBytes_queue pb n (wf_in_bounds _ Hwf))
      as (pb1 & Hr & Hrd1 & _).
    pose proof (ReadBytes_wf _ _ _ _ Hwf Hr) as Hwf1.
    destruct (IH Hno pb1 Hwf1) as (pb' & Hrun & Hwf' & Hrd').
    exists pb'. cbn [runOps queueOps]. rewrite Hr. cbn [mbind option_bind].
    rewrite Hrun. cbn [mbind option_bind]. rewrite <- Hrd1.
    destruct (queueOps (readable pb1) ops) as [rs q']. by cbn in *.
Qed.

Lemma ByteBuf_queue_without_Release_witness :
  wf (NewElasticUnsafeByteBuf 8) /\
  Forall (fun op => isRelease op = false) writesAndReads /\
  Forall (fun op => readLength op <= capacity (NewElasticUnsafeByteBuf 8))
    writesAndReads /\
  exists pb',
    runOps (NewElasticUnsafeByteBuf 8) writesAndReads =
      Some ([[x01; x02]; [x03; x07; x08; x09; x00]], pb') /\
    wf pb' /\ readable pb' = [].
Proof.
  assert (Hwf : wf (NewElasticUnsafeByteBuf 8))
    by apply NewElasticUnsafeByteBuf_wf.
  assert (Hno : Forall (fun op => isRelease op = false) writesAndReads)
    by (repeat constructor).
  assert (Hsz : Forall (fun op => readLength op <=
                                  capacity (NewElasticUnsafeByteBuf 8))
                  writesAndReads)
    by (repeat constructor; cbn; lia).
  split; [exact Hwf |]. split; [exact Hno |]. split; [exact Hsz |].
  exact (ByteBuf_queue_without_Release (NewElasticUnsafeByteBuf 8)
           writesAndReads Hwf Hno Hsz).
Defined.

(** X2.  The queue behaviour lasts until the first write that follows a
    release: after any release-free prefix, [ReadBytes] and [Release] calls
    in any order still return the bytes of the queue, and [Release] drops no
    unread byte, as long as no read asks for more bytes than the array of
    the buffer holds at the start.  What the run leaves is a buffer whose
    array holds the readable region but may be shorter than its [capacity]
    field says. *)
Theorem ByteBuf_queue_until_write_after_Release pb ops1 ops2 :
  wf pb ->
  Forall (fun op => isRelease op = false) ops1 ->
  Forall (fun op => isWrite op = false) ops2 ->
  Forall (fun op => readLength op <= capacity pb) (ops1 ++ ops2) ->
  exists pb',
    runOps pb (ops1 ++ ops2) =
      Some ((queueOps (readable pb) (ops1 ++ ops2)).1, pb') /\
    backed pb' /\ readable pb' = (queueOps (readable pb) (ops1 ++ ops2)).2.
Proof.
  intros Hwf Hno1 Hno2 _. revert pb Hwf.
  induction ops1 as [| op ops1 IH]; intros pb Hwf.
  { exact (runOps_queue_backed ops2 pb (wf_backed _ Hwf) Hno2). }
  apply Forall_cons in Hno1 as [Hop Hno1].
  destruct op as [bytes | n |]; [| | discriminate].
  - destruct (WriteBytes_spec pb bytes Hwf) as (pb1 & Hw & Hwf1 & Hrd1 & _).
    destruct (IH Hno1 pb1 Hwf1) as (pb' & Hrun & Hb' & Hrd').
    exists pb'. cbn [runOps queueOps app]. rewrite Hw. cbn [mbind option_bind].
    by rewrite <- Hrd1.
  - destruct (ReadBytes_queue pb n (wf_in_bounds _ Hwf))
      as (pb1 & Hr & Hrd1 & _).
    pose proof (ReadBytes_wf _ _ _ _ Hwf Hr) as Hwf1.
    destruct (IH Hno1 pb1 Hwf1) as (pb' & Hrun & Hb' & Hrd').
    exists pb'. cbn [runOps queueOps app]. rewrite Hr. cbn [mbind option_bind].
    rewrite Hrun. cbn [mbind option_bind]. rewrite <- Hrd1.
    destruct (queueOps (readable pb1) (ops1 ++ ops2)) as [rs q']. by cbn in *.
Qed.

Lemma ByteBuf_queue_until_write_after_Release_witness :
  wf (NewElasticUnsafeByteBuf 4) /\
  Forall (fun op => isRelease op = false) writeFive /\
  Forall (fun op => isWrite op = false) readsAndReleases /\
  Forall (fun op => readLength op <= capacity (NewElasticUnsafeByteBuf 4))
    (writeFive ++ readsAndReleases) /\
  exists pb',
    runOps (NewElasticUnsafeByteBuf 4) (writeFive ++ readsAndReleases) =
      Some ([[x04]; [x05]; [x06; x07]], pb') /\
    backed pb' /\ readable pb' = [x08].
Proof.
  assert (Hwf : wf (NewElasticUnsafeByteBuf 4))
    by apply NewElasticUnsafeByteBuf_wf.
  assert (Hno1 : Forall (fun op => isRelease op = false) writeFive)
    by (repeat constructor).
  assert (Hno2 : Forall (fun op => isWrite op = false) readsAndReleases)
    by (repeat constructor).
  assert (Hsz : Forall (fun op => readLength op <=
                                  capacity (NewElasticUnsafeByteBuf 4))
                  (writeFive ++ readsAndReleases))
    by (repeat constructor; cbn; lia).
  split; [exact Hwf |]. split; [exact Hno1 |]. split; [exact Hno2 |].
  split; [exact Hsz |].
  exact (ByteBuf_queue_until_write_after_Release (NewElasticUnsafeByteBuf 4)
           writeFive readsAndReleases Hwf Hno1 Hno2 Hsz).
Defined.

(** X3.  [Read(p)], the [io.Reader] side, on a buffer whose indexes lie
    within the backing array: it transfers [min(len(p), readable)] bytes,
    the oldest first, to the front of [p] and leaves the rest of [p] as it
    was, never padding; it reports [io.EOF] exactly when that count is 0,
    which includes an empty [p] in front of unread bytes. *)
Theorem Read_transfers_min pb p :
  in_bounds pb ->
  exists pb',
    Read pb p =
      Some (Z.min (len p) (ReadableBytes pb),
            Z.min (len p) (ReadableBytes pb) =? 0,
            take (length p) (readable pb) ++ drop (length (readable pb)) p,
            pb') /\
    readable pb' = drop (length p) (readable pb) /\
    in_bounds pb'.
Proof.
  intros Hb. pose proof Hb as (Hr & Hrw & Hw).
  destruct (in_bounds_split pb Hb) as (_ & _ & Hl).
  pose proof (readable_length pb Hb) as Hlen.
  unfold Read, ReadableBytes.
  set (n := Z.min (len p) (calcReadableBytes pb)).
  assert (Hn : (if len p <? calcReadableBytes pb then len p
                else calcReadableBytes pb) = n).
  { subst n. destruct (Z.ltb_spec (len p) (calcReadableBytes pb)); lia. }
  rewrite Hn.
  assert (Hn0 : 0 <= n) by (subst n; unfold len, calcReadableBytes; lia).
  assert (Hmin : n = Z.min (len p) (calcReadableBytes pb)) by done.
  clearbody n. clear Hn.
  destruct (Z.eqb_spec n 0) as [H0 | Hne].
  - exists pb. rewrite H0 in *. split; [| split; [| done]].
    + do 2 f_equal.
      destruct (Z.le_gt_cases (len p) (calcReadableBytes pb)).
      * assert (p = []) as ->
          by (destruct p; [done | unfold len in *; cbn in *; lia]).
        by rewrite take_0, drop_nil.
      * assert (readable pb = []) as ->.
        { destruct (readable pb); [done | unfold len in *; cbn in *; lia]. }
        by rewrite take_nil, drop_0.
    + destruct (Z.le_gt_cases (len p) (calcReadableBytes pb)).
      * assert (p = []) as ->
          by (destruct p; [done | unfold len in *; cbn in *; lia]).
        by rewrite drop_0.
      * assert (readable pb = []) as ->.
        { destruct (readable pb); [done | unfold len in *; cbn in *; lia]. }
        by rewrite drop_nil.
  - destruct (ReadBytes_queue pb n Hb)
      as (pb1 & Hread & Hrd1 & Hb1 & _).
    rewrite Hread. cbn [mbind option_bind].
    exists pb1. split; [| split; [| done]].
    + do 2 f_equal.
      replace (Z.to_nat n - length (readable pb))%nat with 0%nat
        by (unfold len, calcReadableBytes in *; lia).
      cbn [replicate]. rewrite app_nil_r. unfold copy.
      rewrite take_take, length_take.
      destruct (Z.le_gt_cases (len p) (calcReadableBytes pb)).
      * rewrite !(drop_ge p) by (unfold len in *; lia).
        do 3 f_equal. unfold len in *. lia.
      * rewrite !(take_ge (readable pb)) by (unfold len in *; lia).
        do 3 f_equal. unfold len in *. lia.
    + rewrite Hrd1.
      destruct (Z.le_gt_cases (len p) (calcReadableBytes pb)).
      * f_equal. unfold len in *. lia.
      * rewrite !drop_ge; [done | unfold len in *; lia | unfold len in *; lia].
Qed.

Lemma Read_transfers_min_witness :
  in_bounds twoUnread /\
  exists pb',
    Read twoUnread [x09; x09; x09] = Some (2, false, [x01; x02; x09], pb') /\
    readable pb' = [].
Proof.
  assert (Hb : in_bounds twoUnread) by (unfold in_bounds, len; cbn; lia).
  split; [exact Hb |].
  destruct (Read_transfers_min twoUnread [x09; x09; x09] Hb)
    as (pb' & Hread & Hrd & _).
  exists pb'. split; [exact Hread | exact Hrd].
Defined.

(** X4.  [WriteBytes] on a well-formed buffer reallocates only when the
    bytes do not fit, then to [int(float32(writeIndex + n) * 1.2)] bytes,
    which the two roundings of the [float32] product never bring below
    [writeIndex + n]: the capacity never shrinks and always covers the new
    write index. *)
Theorem WriteBytes_grows_enough pb bytes :
  wf pb ->
  exists pb',
    WriteBytes pb bytes = Some pb' /\
    capacity pb' =
      (if calcWritableBytes pb <? len bytes
       then growSize (len bytes + writeIndex pb) else capacity pb) /\
    capacity pb <= capacity pb' /\
    writeIndex pb + len bytes <= capacity pb' /\
    len (buffer pb') = capacity pb'.
Proof.
  intros Hwf.
  destruct (WriteBytes_spec pb bytes Hwf)
    as (pb' & Hw & (Hr' & Hrw' & Hwc' & Hcap') & _ & _ & Hwi).
  pose proof Hwf as (Hr & Hrw & Hwc & Hcap).
  exists pb'. split; [exact Hw |].
  pose proof (WriteBytes_capacity _ _ _ Hw) as Hc.
  assert (Hlen : 0 <= len bytes) by (unfold len; lia).
  destruct (Z.eqb_spec (len bytes) 0) as [H0 | Hne]; cbn [negb andb] in Hc.
  - destruct (Z.ltb_spec (calcWritableBytes pb) (len bytes)) as [Hlt | _];
      [unfold calcWritableBytes in Hlt; lia |].
    repeat split; try done; lia.
  - split; [exact Hc |].
    destruct (Z.ltb_spec (calcWritableBytes pb) (len bytes)) as [Hlt | Hge].
    + pose proof (growSize_ge (len bytes + writeIndex pb) ltac:(lia)) as Hg.
      unfold calcWritableBytes in Hlt. repeat split; try done; lia.
    + repeat split; try done; lia.
Qed.

Lemma WriteBytes_grows_enough_witness :
  wf (NewElasticUnsafeByteBuf 4) /\
  exists pb',
    WriteBytes (NewElasticUnsafeByteBuf 4) helloWorld = Some pb' /\
    capacity pb' = 14.
Proof.
  assert (Hwf : wf (NewElasticUnsafeByteBuf 4))
    by apply NewElasticUnsafeByteBuf_wf.
  split; [exact Hwf |].
  destruct (WriteBytes_grows_enough (NewElasticUnsafeByteBuf 4) helloWorld Hwf)
    as (pb' & Hw & Hc & _).
  exists pb'. split; [exact Hw | exact Hc].
Defined.

(** ** TLV codec: round trip, garbage, oversize frames *)

Lemma ReadBytes_advances pb n :
  in_bounds pb ->
  exists bs pb',
    ReadBytes pb n = Some (bs, pb') /\ in_bounds pb' /\ readAdvanced pb pb'.
Proof.
  intros Hb.
  destruct (ReadBytes_queue pb n Hb) as (pb' & Hr & _ & Hb' & H1 & H2 & H3 & H4).
  eexists _, pb'. split; [exact Hr |]. split; [exact Hb' |].
  unfold readAdvanced. repeat split; try done; lia.
Qed.

Lemma readAdvanced_refl pb :
  in_bounds pb -> readAdvanced pb pb.
Proof. intros (? & ? & ?). unfold readAdvanced. repeat split; try done; lia. Qed.

Lemma readAdvanced_trans pb1 pb2 pb3 :
  readAdvanced pb1 pb2 -> readAdvanced pb2 pb3 -> readAdvanced pb1 pb3.
Proof.
  unfold readAdvanced. intros (-> & -> & -> & ?) (-> & -> & -> & ?).
  repeat split; lia.
Qed.

Lemma parseTag_advances c inb :
  in_bounds inb ->
  exists f,
    parseTag c inb = Some f /\
    match f with
    | Next (c', inb') =>
        TLV.Config c' = TLV.Config c /\ in_bounds inb' /\ readAdvanced inb inb'
    | Return (_, c', inb') =>
        TLV.Config c' = TLV.Config c /\ in_bounds inb' /\ readAdvanced inb inb'
    end.
Proof.
  intros Hb. pose proof (readAdvanced_refl _ Hb) as Hrefl.
  unfold parseTag. destruct (hasTag c); cbn [negb]; [by eexists |].
  destruct (ReadableBytes inb <? TagSize); [by eexists |].
  destruct (ReadBytes_advances inb TagSize Hb) as (bs & inb' & -> & Hb' & Hadv).
  cbn [mbind option_bind].
  destruct (Read_uint8 bs) as [err | tag]; [by eexists |].
  case_bool_decide; by eexists.
Qed.

Lemma parseLength_advances c inb :
  in_bounds inb ->
  exists f,
    parseLength c inb = Some f /\
    match f with
    | Next (c', inb') =>
        TLV.Config c' = TLV.Config c /\ in_bounds inb' /\ readAdvanced inb inb'
    | Return (_, c', inb') =>
        TLV.Config c' = TLV.Config c /\ in_bounds inb' /\ readAdvanced inb inb'
    end.
Proof.
  intros Hb. pose proof (readAdvanced_refl _ Hb) as Hrefl.
  unfold parseLength. destruct (hasTag c && negb (hasLength c)); [| by eexists].
  destruct (ReadableBytes inb <? LengthSize); [by eexists |].
  destruct (ReadBytes_advances inb LengthSize Hb) as (bs & inb' & -> & Hb' & Hadv).
  cbn [mbind option_bind].
  destruct (Read_uint32 bs) as [err | length]; by eexists.
Qed.

Lemma parseValue_advances c inb :
  in_bounds inb ->
  exists r c' inb',
    parseValue c inb = Some (r, c', inb') /\
    TLV.Config c' = TLV.Config c /\ in_bounds inb' /\ readAdvanced inb inb'.
Proof.
  intros Hb. pose proof (readAdvanced_refl _ Hb) as Hrefl.
  unfold parseValue. destruct (hasTag c && hasLength c); [| by eexists _, _, _].
  destruct (ReadableBytes inb <? lengthValue c); [by eexists _, _, _ |].
  destruct (ReadBytes_advances inb (lengthValue c) Hb)
    as (bs & inb' & -> & Hb' & Hadv).
  cbn [mbind option_bind].
  destruct ((0 <? FrameLimit (TLV.Config c)) &&
            (FrameLimit (TLV.Config c) <? TagSize + LengthSize + len bs));
    by eexists _, _, _.
Qed.

Lemma Decode_advances c inb :
  in_bounds inb ->
  exists r c' inb',
    TLV.Decode c inb = Some (r, c', inb') /\
    readAdvanced inb inb' /\ in_bounds inb' /\
    TLV.Config c' = TLV.Config c.
Proof.
  intros Hb. unfold TLV.Decode.
  destruct (parseTag_advances c inb Hb) as (f1 & -> & H1).
  cbn [mbind option_bind].
  destruct f1 as [[c1 inb1] | [[r1 c1] inb1]].
  2: { destruct H1 as (Hc1 & Hb1 & Ha1). by exists r1, c1, inb1. }
  destruct H1 as (Hc1 & Hb1 & Ha1).
  destruct (parseLength_advances c1 inb1 Hb1) as (f2 & -> & H2).
  cbn [mbind option_bind].
  destruct f2 as [[c2 inb2] | [[r2 c2] inb2]].
  2: { destruct H2 as (Hc2 & Hb2 & Ha2). exists r2, c2, inb2.
       split; [done |]. split; [by eapply readAdvanced_trans |].
       split; [done | congruence]. }
  destruct H2 as (Hc2 & Hb2 & Ha2).
  destruct (parseValue_advances c2 inb2 Hb2)
    as (r3 & c3 & inb3 & -> & Hc3 & Hb3 & Ha3).
  exists r3, c3, inb3. split; [done |].
  split; [eauto using readAdvanced_trans |]. split; [done | congruence].
Qed.

(** A byte that is not the tag costs one call: an error, the byte
    consumed, the decoder as it was. *)
Lemma Decode_illegal_tag cfg tv lv inb b l :
  in_bounds inb -> readable inb = b :: l -> b <> TagValue cfg ->
  exists inb',
    TLV.Decode (mkDecoder cfg false false tv lv) inb =
      Some ((None, Some (DecodeError "TLVFrameDecoder" "illegal tag found")),
            mkDecoder cfg false false tv lv, inb') /\
    in_bounds inb' /\ readable inb' = l.
Proof.
  intros Hb Hrd Hne.
  destruct (ReadBytes_prefix inb [b] l Hb Hrd) as (inb' & Hr & Hb' & Hrd').
  change (len [b]) with 1 in Hr.
  pose proof (readable_length _ Hb) as Hlen. rewrite Hrd in Hlen.
  exists inb'. split; [| done].
  unfold TLV.Decode, parseTag. cbn [hasTag negb].
  unfold ReadableBytes, TagSize.
  destruct (Z.ltb_spec (calcReadableBytes inb) 1) as [Hlt | _].
  { unfold len in Hlen. cbn [length] in Hlen. lia. }
  rewrite Hr. cbn [mbind option_bind Read_uint8 TLV.Config].
  by rewrite bool_decide_eq_true_2.
Qed.

(** With the length latched beyond the limit a call never yields a frame:
    it waits for the whole value, then consumes it and fails, and the
    latches stay. *)
Lemma Decode_oversize_value cfg tv L inb :
  in_bounds inb -> 0 <= L -> 0 < FrameLimit cfg < 5 + L ->
  (len (readable inb) < L /\
   TLV.Decode (mkDecoder cfg true true tv L) inb =
     Some ((None, None), mkDecoder cfg true true tv L, inb)) \/
  (L <= len (readable inb) /\
   exists inb',
     TLV.Decode (mkDecoder cfg true true tv L) inb =
       Some ((None, Some (DecodeError "TLVFrameDecoder"
                                      "frame size larger than limit")),
             mkDecoder cfg true true tv L, inb') /\
     in_bounds inb' /\ readable inb' = drop (Z.to_nat L) (readable inb)).
Proof.
  intros Hb HL Hlim.
  pose proof (readable_length _ Hb) as Hlen.
  unfold TLV.Decode. rewrite parseTag_skip by done. cbn [mbind option_bind].
  rewrite parseLength_skip by done. cbn [mbind option_bind].
  unfold parseValue. cbn [hasTag hasLength andb lengthValue TLV.Config].
  unfold ReadableBytes. rewrite <- Hlen.
  destruct (Z.ltb_spec (len (readable inb)) L) as [Hshort | Hall]; [by left |].
  right. split; [done |].
  destruct (ReadBytes_prefix inb (take (Z.to_nat L) (readable inb))
              (drop (Z.to_nat L) (readable inb)) Hb)
    as (inb' & Hr & Hb' & Hrd'); [by rewrite take_drop |].
  assert (HlenL : len (take (Z.to_nat L) (readable inb)) = L).
  { unfold len in *. rewrite length_take. lia. }
  rewrite HlenL in Hr. rewrite Hr. cbn [mbind option_bind].
  rewrite HlenL. unfold TagSize, LengthSize.
  destruct (Z.ltb_spec 0 (FrameLimit cfg)); [| lia].
  destruct (Z.ltb_spec (FrameLimit cfg) (1 + 4 + L)); [| lia].
  exists inb'. by cbn [andb].
Qed.

Lemma drain_oversize cfg tv L : forall fuel inb,
  in_bounds inb -> 0 < L -> 0 < FrameLimit cfg < 5 + L ->
  (length (readable inb) < fuel)%nat ->
  exists inb',
    drain fuel (mkDecoder cfg true true tv L) inb =
      Done (replicate (Z.to_nat (len (readable inb) / L))
              (Failed (DecodeError "TLVFrameDecoder"
                                   "frame size larger than limit")),
            mkDecoder cfg true true tv L, inb') /\
    readable inb' =
      drop (Z.to_nat (L * (len (readable inb) / L))) (readable inb).
Proof.
  induction fuel as [| fuel IH]; intros inb Hb HL Hlim Hfuel; [lia |].
  cbn [drain].
  destruct (Decode_oversize_value cfg tv L inb Hb ltac:(lia) Hlim)
    as [(Hshort & ->) | (Hall & inb1 & -> & Hb1 & Hrd1)].
  - exists inb. rewrite Z.div_small by (unfold len in *; lia).
    rewrite Z.mul_0_r. by cbn.
  - assert (Hlen1 : len (readable inb1) = len (readable inb) - L).
    { rewrite Hrd1. unfold len in *. rewrite length_drop. lia. }
    destruct (IH inb1 Hb1 HL Hlim) as (inb' & -> & Hrd').
    { unfold len in *. lia. }
    exists inb'. rewrite Hlen1 in *.
    assert (Hq : len (readable inb) / L = (len (readable inb) - L) / L + 1).
    { replace (len (readable inb)) with ((len (readable inb) - L) + 1 * L) at 1
        by lia.
      rewrite Z.div_add by lia. done. }
    assert (Hq0 : 0 <= (len (readable inb) - L) / L)
      by (apply Z.div_pos; lia).
    split.
    + rewrite Hq, Z2Nat.inj_add by lia. rewrite Nat.add_comm. by cbn.
    + rewrite Hrd', Hrd1, drop_drop. f_equal. rewrite Hq. nia.
Qed.

(** X5.  Round trip of the TLV codec: whatever payload the encoder turns
    into a frame, one [Decode] call on a buffer holding that frame hands the
    payload back unchanged, leaves the decoder in its initial state and no
    readable byte behind. *)
Theorem TLV_decode_inverts_encode cfg payload f n :
  TLV.Encode (NewTLVFrameEncoder cfg) (AnyBytes payload) = Some (Some f, None) ->
  exists inb inb',
    WriteBytes (NewElasticUnsafeByteBuf n) f = Some inb /\
    TLV.Decode (NewTLVFrameDecoder cfg) inb =
      Some ((Some payload, None), NewTLVFrameDecoder cfg, inb') /\
    readable inb' = [].
Proof.
  intros Henc.
  destruct (Encode_success_inv cfg payload f Henc) as [Hok ->].
  destruct (NewElasticUnsafeByteBuf_wf n) as [Hwf0 _].
  destruct (WriteBytes_pending cfg _ _ [] (frame cfg payload) Hwf0
              (pending_initial cfg n))
    as (inb & Hw & Hwf & Hpend).
  cbn [app] in Hpend.
  rewrite <- (app_nil_r (frame cfg payload)) in Hpend.
  destruct (Decode_complete cfg _ inb payload [] Hpend Hok)
    as (inb' & Hdec & _ & h & Hlat & Hs).
  exists inb, inb'. split; [exact Hw |]. split; [exact Hdec |].
  symmetry in Hs. by apply app_eq_nil in Hs as [_ Hs].
Qed.

Lemma TLV_decode_inverts_encode_witness :
  TLV.Encode (NewTLVFrameEncoder testConfig) (AnyBytes helloWorld) =
    Some (Some helloFrame, None) /\
  exists inb inb',
    WriteBytes (NewElasticUnsafeByteBuf 2048) helloFrame = Some inb /\
    TLV.Decode (NewTLVFrameDecoder testConfig) inb =
      Some ((Some helloWorld, None), NewTLVFrameDecoder testConfig, inb') /\
    readable inb' = [].
Proof.
  assert (Henc : TLV.Encode (NewTLVFrameEncoder testConfig) (AnyBytes helloWorld)
                 = Some (Some helloFrame, None)) by (vm_compute; reflexivity).
  split; [exact Henc |].
  exact (TLV_decode_inverts_encode testConfig helloWorld helloFrame 2048 Henc).
Defined.

(** X6.  Bytes that are not the tag, in front of complete frames: the read
    loop reports each such byte as one [illegal tag found] error, consuming
    it, and then hands over the frames in order.  The decoder skips garbage
    byte by byte and picks up at the next tag byte. *)
Theorem TLV_garbage_skipped_bytewise cfg g ps inb tv lv fuel :
  wf inb ->
  readable inb = g ++ wire cfg ps ->
  Forall (fun b => b <> TagValue cfg) g ->
  Forall (encodable cfg) ps ->
  (length g + length ps < fuel)%nat ->
  exists c' inb',
    drain fuel (mkDecoder cfg false false tv lv) inb =
      Done (map (fun _ => Failed (DecodeError "TLVFrameDecoder"
                                              "illegal tag found")) g ++
            map Frame ps, c', inb') /\
    readable inb' = [].
Proof.
  revert inb fuel. induction g as [| b g IH];
    intros inb fuel Hwf Hrd Hg Hps Hfuel.
  - cbn [app map] in *.
    destruct (drain_frames cfg ps fuel (mkDecoder cfg false false tv lv)
                inb [] [] Hwf)
      as (c' & inb' & Hdr & _ & _ & h & Hlat & Hs).
    + split; [by apply wf_in_bounds |].
      exists []. split; [constructor | by rewrite Hrd, app_nil_r].
    + by rewrite app_nil_r.
    + by left.
    + cbn [length] in Hfuel. lia.
    + exists c', inb'. split; [exact Hdr |].
      symmetry in Hs. by apply app_eq_nil in Hs as [_ Hs].
  - apply Forall_cons in Hg as [Hb Hg].
    destruct fuel as [| fuel]; [cbn in Hfuel; lia |].
    destruct (Decode_illegal_tag cfg tv lv inb b (g ++ wire cfg ps)
                (wf_in_bounds _ Hwf) Hrd Hb)
      as (inb1 & Hdec & Hb1 & Hrd1).
    pose proof (Decode_wf _ _ _ _ _ Hwf Hdec) as Hwf1.
    destruct (IH inb1 fuel Hwf1 Hrd1 Hg Hps) as (c' & inb' & Hdr & Hrd').
    { cbn [length] in Hfuel. lia. }
    exists c', inb'. cbn [drain]. rewrite Hdec, Hdr. by cbn.
Qed.

Lemma TLV_garbage_skipped_bytewise_witness :
  wf (mkBuf (garbage ++ helloFrame) 0 20 20) /\
  Forall (fun b => b <> TagValue testConfig) garbage /\
  Forall (encodable testConfig) [helloWorld] /\
  exists c' inb',
    drain 5 (NewTLVFrameDecoder testConfig) (mkBuf (garbage ++ helloFrame) 0 20 20) =
      Done ([Failed (DecodeError "TLVFrameDecoder" "illegal tag found");
             Failed (DecodeError "TLVFrameDecoder" "illegal tag found");
             Failed (DecodeError "TLVFrameDecoder" "illegal tag found");
             Frame helloWorld], c', inb') /\
    readable inb' = [].
Proof.
  assert (Hwf : wf (mkBuf (garbage ++ helloFrame) 0 20 20))
    by (unfold wf, len; cbn; lia).
  assert (Hg : Forall (fun b => b <> TagValue testConfig) garbage)
    by (repeat constructor; discriminate).
  assert (Hps : Forall (encodable testConfig) [helloWorld]).
  { repeat constructor; unfold len; cbn; lia. }
  split; [exact Hwf |]. split; [exact Hg |]. split; [exact Hps |].
  refine (TLV_garbage_skipped_bytewise testConfig garbage [helloWorld]
            (mkBuf (garbage ++ helloFrame) 0 20 20) x00 0 5 Hwf _ Hg Hps _).
  - reflexivity.
  - cbn. lia.
Defined.

(** X7.  A frame over the limit poisons the decoder.  The decoder waits
    until the whole value of the oversize frame has arrived, then fails with
    [frame size larger than limit] and keeps the tag and the length latched.
    From then on it cuts whatever follows into pieces of that same length and
    fails on each, well-formed frames included: the read loop reports
    [1 + len(rest) / len(p)] errors and hands over no frame. *)
Theorem TLV_oversize_frame_poisons_decoder cfg p rest inb tv lv fuel :
  in_bounds inb ->
  readable inb = frame cfg p ++ rest ->
  0 < len p < 2 ^ 32 ->
  0 < FrameLimit cfg < len p + 5 ->
  (length rest + 1 < fuel)%nat ->
  exists c' inb',
    drain fuel (mkDecoder cfg false false tv lv) inb =
      Done (replicate (S (Z.to_nat (len rest / len p)))
              (Failed (DecodeError "TLVFrameDecoder"
                                   "frame size larger than limit")),
            c', inb') /\
    hasTag c' = true /\ hasLength c' = true /\ lengthValue c' = len p /\
    readable inb' = drop (Z.to_nat (len p * (len rest / len p))) rest.
Proof.
  intros Hb Hrd Hp Hlim Hfuel.
  destruct fuel as [| fuel]; [lia |].
  unfold frame in Hrd.
  destruct (PutUint32_cons (len p)) as (b0 & b1 & b2 & b3 & Hput).
  pose proof (PutUint32_inv (len p) _ _ _ _ ltac:(lia) Hput) as HL.
  rewrite Hput in Hrd. cbn [app] in Hrd.
  destruct (parseTag_read cfg tv lv inb _ Hb Hrd) as (inb1 & Hpt & Hb1 & Hrd1).
  destruct (parseLength_read cfg lv inb1 _ _ _ _ _ Hb1 Hrd1)
    as (inb2 & Hpl & Hb2 & Hrd2).
  rewrite HL in Hpl.
  destruct (Decode_oversize_value cfg (TagValue cfg) (len p) inb2 Hb2
              ltac:(lia) ltac:(lia))
    as [(Hshort & _) | (_ & inb3 & Hdec & Hb3 & Hrd3)].
  { rewrite Hrd2 in Hshort. unfold len in Hshort.
    rewrite length_app in Hshort. lia. }
  assert (Hfirst :
    TLV.Decode (mkDecoder cfg false false tv lv) inb =
      Some ((None, Some (DecodeError "TLVFrameDecoder"
                                     "frame size larger than limit")),
            mkDecoder cfg true true (TagValue cfg) (len p), inb3)).
  { unfold TLV.Decode. rewrite Hpt. cbn [mbind option_bind].
    rewrite Hpl. cbn [mbind option_bind].
    unfold TLV.Decode in Hdec.
    rewrite parseTag_skip in Hdec by done. cbn [mbind option_bind] in Hdec.
    rewrite parseLength_skip in Hdec by done. exact Hdec. }
  assert (Hrest : readable inb3 = rest).
  { rewrite Hrd3, Hrd2. unfold len. rewrite Nat2Z.id. apply drop_app_length. }
  destruct (drain_oversize cfg (TagValue cfg) (len p) fuel inb3 Hb3
              ltac:(lia) ltac:(lia))
    as (inb' & Hdr & Hrd').
  { rewrite Hrest. lia. }
  rewrite Hrest in Hdr, Hrd'.
  eexists _, inb'. cbn [drain]. rewrite Hfirst, Hdr.
  split; [reflexivity |]. by repeat split.
Qed.

Lemma TLV_oversize_frame_poisons_decoder_witness :
  in_bounds (mkBuf (frame tinyConfig fourBytes ++ afterOversize) 0 20 20) /\
  0 < FrameLimit tinyConfig < len fourBytes + 5 /\
  exists c' inb',
    drain 13 (NewTLVFrameDecoder tinyConfig)
          (mkBuf (frame tinyConfig fourBytes ++ afterOversize) 0 20 20) =
      Done (replicate 3 (Failed (DecodeError "TLVFrameDecoder"
                                             "frame size larger than limit")),
            c', inb') /\
    readable inb' = [x07; x08; x0a].
Proof.
  assert (Hb : in_bounds (mkBuf (frame tinyConfig fourBytes ++ afterOversize)
                                0 20 20))
    by (unfold in_bounds, len; cbn; lia).
  assert (Hlim : 0 < FrameLimit tinyConfig < len fourBytes + 5)
    by (unfold len; cbn; lia).
  split; [exact Hb |]. split; [exact Hlim |].
  destruct (TLV_oversize_frame_poisons_decoder tinyConfig fourBytes
              afterOversize
              (mkBuf (frame tinyConfig fourBytes ++ afterOversize) 0 20 20)
              x00 0 13 Hb)
    as (c' & inb' & Hdr & _ & _ & _ & Hrd).
  - reflexivity.
  - unfold len; cbn; lia.
  - exact Hlim.
  - cbn. lia.
  - exists c', inb'. split; [exact Hdr | exact Hrd].
Defined.

(** X8.  [Decode] never panics on a buffer whose indexes lie within the
    backing array, whatever state the decoder is in, and all it does to the
    buffer is move the read index forward, never past the write index: the
    array, the write index and the capacity are untouched.  The decoder
    keeps its configuration. *)
Theorem Decode_only_moves_read_index c inb :
  in_bounds inb ->
  exists r c' inb',
    TLV.Decode c inb = Some (r, c', inb') /\
    readAdvanced inb inb' /\ in_bounds inb' /\
    TLV.Config c' = TLV.Config c.
Proof. apply Decode_advances. Qed.

Lemma Decode_only_moves_read_index_witness :
  in_bounds unknownCodeInput /\
  exists r c' inb',
    TLV.Decode (NewTLVFrameDecoder testConfig) unknownCodeInput =
      Some (r, c', inb') /\
    buffer inb' = buffer unknownCodeInput /\
    writeIndex inb' = writeIndex unknownCodeInput.
Proof.
  assert (Hb : in_bounds unknownCodeInput) by (unfold in_bounds, len; cbn; lia).
  split; [exact Hb |].
  destruct (Decode_only_moves_read_index (NewTLVFrameDecoder testConfig)
              unknownCodeInput Hb)
    as (r & c' & inb' & Hdec & (Hbuf & Hw & _) & _).
  exists r, c', inb'. split; [exact Hdec |]. split; [exact Hbuf | exact Hw].
Defined.

(** X9.  Frames delimit themselves: when two frames the encoder produced
    are each followed by more bytes and the two byte sequences are equal,
    the payloads are equal and so is what follows.  A stream of frames can
    be cut into frames in one way only. *)
Theorem TLV_frames_self_delimiting cfg p1 p2 f1 f2 s1 s2 :
  TLV.Encode (mkEncoder cfg) (AnyBytes p1) = Some (Some f1, None) ->
  TLV.Encode (mkEncoder cfg) (AnyBytes p2) = Some (Some f2, None) ->
  f1 ++ s1 = f2 ++ s2 ->
  p1 = p2 /\ s1 = s2.
Proof.
  intros H1 H2 Heq.
  destruct (Encode_success_inv cfg p1 f1 H1) as [Hok1 ->].
  destruct (Encode_success_inv cfg p2 f2 H2) as [Hok2 ->].
  pose proof (encodable_range _ _ Hok1) as Hr1.
  pose proof (encodable_range _ _ Hok2) as Hr2.
  unfold frame in Heq.
  destruct (PutUint32_cons (len p1)) as (a0 & a1 & a2 & a3 & Hput1).
  destruct (PutUint32_cons (len p2)) as (b0 & b1 & b2 & b3 & Hput2).
  pose proof (PutUint32_inv _ _ _ _ _ Hr1 Hput1) as HL1.
  pose proof (PutUint32_inv _ _ _ _ _ Hr2 Hput2) as HL2.
  rewrite Hput1, Hput2 in Heq. cbn [app] in Heq.
  injection Heq as -> -> -> -> Heq.
  apply app_inj_1 in Heq; [done |].
  unfold len in *. lia.
Qed.

Lemma TLV_frames_self_delimiting_witness :
  TLV.Encode (mkEncoder testConfig) (AnyBytes helloWorld) =
    Some (Some helloFrame, None) /\
  forall p2 f2 s2,
    TLV.Encode (mkEncoder testConfig) (AnyBytes p2) = Some (Some f2, None) ->
    helloFrame ++ garbage = f2 ++ s2 -> p2 = helloWorld /\ s2 = garbage.
Proof.
  assert (Henc : TLV.Encode (mkEncoder testConfig) (AnyBytes helloWorld)
                 = Some (Some helloFrame, None)) by (vm_compute; reflexivity).
  split; [exact Henc |].
  intros p2 f2 s2 H2 Heq.
  destruct (TLV_frames_self_delimiting testConfig helloWorld p2 helloFrame f2
              garbage s2 Henc H2 Heq) as [-> ->].
  by split.
Defined.

(** ** Apollo codec: what a complete frame decodes to, and the round trip *)

Section ApolloFrames.
Context {Entity : Type}.
Variable TypeCode : Entity -> Z.
Variable Marshal : Entity -> error + list byte.
Variable Unmarshal : list byte -> Entity -> error + Entity.

(** One call on a complete frame, by the value the frame carries. *)
Lemma Apollo_Decode_value (d : ApolloFrameDecoder Entity) inb value rest :
  apolloPending d inb (frame (tlvConfig (Config d)) value ++ rest) ->
  encodable (tlvConfig (Config d)) value ->
  ReadableBytes inb <> 0 ->
  exists d' inb',
    Apollo.Decode Unmarshal d inb =
      Some (match value with
            | b0 :: b1 :: body =>
                match createEntity (Config d) (Uint16 b0 b1) with
                | Some entity =>
                    match Unmarshal body entity with
                    | inl unmarshalErr => apolloFailure (Error unmarshalErr)
                    | inr entity => (Some entity, None)
                    end
                | None => apolloNothing
                end
            | _ => apolloFailure "illegal payload"
            end, d', inb') /\
    Config d' = Config d /\
    apolloPending d' inb' rest.
Proof.
  intros Hpend Henc Hne.
  set (cfg := tlvConfig (Config d)) in *.
  unfold apolloPending in Hpend. fold cfg in Hpend.
  apply Z.eqb_neq in Hne.
  destruct (Decode_complete cfg _ inb value rest Hpend Henc)
    as (inb1 & Hdec & Hpend1).
  (* the scratch buffer holds the value *)
  destruct (NewElasticUnsafeByteBuf_wf (len value)) as [Hwf0 Hrd0].
  destruct (WriteBytes_spec _ value Hwf0) as (vb & Hwv & Hwfv & Hrdv & _).
  rewrite Hrd0 in Hrdv. cbn [app] in Hrdv.
  pose proof (readable_length _ (wf_in_bounds _ Hwfv)) as Hlv.
  rewrite Hrdv in Hlv.
  eexists (mkApolloDecoder (Config d) (Some (NewTLVFrameDecoder cfg))), inb1.
  split; [| split; [done | exact Hpend1]].
  unfold Apollo.Decode. rewrite Hne. cbv zeta.
  fold cfg. rewrite Hdec. cbn [mbind option_bind].
  rewrite Hwv. cbn [mbind option_bind].
  unfold ReadableBytes. rewrite <- Hlv.
  destruct value as [| b0 [| b1 body]]; [done | done |].
  destruct (Z.ltb_spec (len (b0 :: b1 :: body)) 2) as [Hlt | _].
  { unfold len in Hlt. cbn [length] in Hlt. lia. }
  (* the two bytes of the type code *)
  destruct (ReadBytes_prefix vb [b0; b1] body (wf_in_bounds _ Hwfv))
    as (vb1 & Hr1 & Hwf1 & Hrd1); [by rewrite Hrdv |].
  change (len [b0; b1]) with 2 in Hr1.
  (* the body *)
  destruct (ReadBytes_prefix vb1 (readable vb1) [] Hwf1) as (vb2 & Hr2 & _).
  { by rewrite app_nil_r. }
  rewrite (readable_length _ Hwf1), Hrd1 in Hr2.
  assert (Hsize : (if len [x00; x00] <? calcReadableBytes vb
                   then len [x00; x00] else calcReadableBytes vb) = 2).
  { rewrite <- Hlv. change (len [x00; x00]) with 2.
    destruct (Z.ltb_spec 2 (len (b0 :: b1 :: body))); [done |].
    unfold len in *. cbn [length] in *. lia. }
  unfold Read_typeCode, Read. rewrite Hsize.
  cbn [Z.eqb Pos.eqb]. rewrite Hr1. cbn [mbind option_bind].
  unfold copy. cbn [length take drop app Z.eqb Pos.eqb mbind option_bind].
  unfold ReadableBytes. rewrite Hr2. cbn [mbind option_bind Config].
  destruct (createEntity (Config d) (Uint16 b0 b1)) as [entity |]; [| done].
  by destruct (Unmarshal body entity).
Qed.

(** What the encoder hands to its TLV encoder: the type code in two
    bytes, then the marshaled entity. *)
Lemma Apollo_Encode_value (e : ApolloEncoder.ApolloFrameEncoder Entity) m body :
  Marshal m = inr body ->
  ApolloEncoder.Encode TypeCode Marshal e (ApolloEncoder.IsEntity m) =
    r ← TLV.Encode (ApolloEncoder.initTLVEncoder e)
                   (AnyBytes (PutUint16 (TypeCode m) ++ body));
    Some (match r with
          | (_, Some encodeErr) =>
              (None, Some (EncodeError "ApolloFrameEncoder" (Error encodeErr)))
          | (frameBytes, None) => (frameBytes, None)
          end,
          ApolloEncoder.mkApolloEncoder (ApolloEncoder.Config e)
            (Some (ApolloEncoder.initTLVEncoder e))).
Proof.
  intros Hm. unfold ApolloEncoder.Encode. rewrite Hm. cbv zeta.
  destruct (NewElasticUnsafeByteBuf_wf (2 + len body)) as [Hwf0 Hrd0].
  destruct (Write_spec _ (PutUint16 (TypeCode m)) Hwf0)
    as (pb1 & -> & Hwf1 & Hrd1).
  cbn [mbind option_bind].
  destruct (Write_spec _ body Hwf1) as (pb2 & -> & Hwf2 & Hrd2).
  cbn [mbind option_bind].
  rewrite Hrd1, Hrd0 in Hrd2. cbn [app] in Hrd2.
  destruct (ReadBytes_prefix pb2 (readable pb2) [] (wf_in_bounds _ Hwf2))
    as (pb3 & Hr & _); [by rewrite app_nil_r |].
  rewrite (readable_length _ (wf_in_bounds _ Hwf2)) in Hr.
  unfold ReadableBytes. rewrite Hr. cbn [mbind option_bind].
  rewrite Hrd2.
  destruct (TLV.Encode _ _) as [[frameBytes [encodeErr |]] |]; done.
Qed.

(** X10.  Round trip of the Apollo codec.  Let the encoder have turned the
    entity [m], marshaled to [body], into a frame, and let the same
    configuration hold a constructor for the type code of [m].  Then one
    [Decode] call on a buffer holding the frame creates the entity of that
    constructor and returns what [Unmarshal] makes of [body] and it, so [m]
    itself when [Unmarshal] inverts [Marshal]; no byte is left. *)
Theorem Apollo_decode_inverts_encode (cfg : ApolloConfig Entity)
    m entity m' body f enc' n :
  0 <= TypeCode m < 2 ^ 16 ->
  Marshal m = inr body ->
  createEntity cfg (TypeCode m) = Some entity ->
  Unmarshal body entity = inr m' ->
  ApolloEncoder.Encode TypeCode Marshal (ApolloEncoder.NewApolloFrameEncoder cfg)
                       (ApolloEncoder.IsEntity m) = Some ((Some f, None), enc') ->
  exists inb d' inb',
    WriteBytes (NewElasticUnsafeByteBuf n) f = Some inb /\
    Apollo.Decode Unmarshal (NewApolloFrameDecoder cfg) inb =
      Some ((Some m', None), d', inb') /\
    readable inb' = [].
Proof.
  intros Hcode Hm Hctor Hun Henc.
  rewrite (Apollo_Encode_value _ m body Hm) in Henc.
  cbn [ApolloEncoder.initTLVEncoder ApolloEncoder.NewApolloFrameEncoder
       ApolloEncoder.tlvEncoder ApolloEncoder.Config] in Henc.
  set (value := PutUint16 (TypeCode m) ++ body) in *.
  destruct (TLV.Encode (NewTLVFrameEncoder (tlvConfig cfg)) (AnyBytes value))
    as [[frameBytes [encodeErr |]] |] eqn:Htlv; try discriminate Henc.
  cbn [mbind option_bind] in Henc. injection Henc as -> _.
  destruct (Encode_success_inv (tlvConfig cfg) value f Htlv) as [Hok ->].
  destruct (NewElasticUnsafeByteBuf_wf n) as [Hwf0 _].
  destruct (WriteBytes_pending (tlvConfig cfg) _ _ []
              (frame (tlvConfig cfg) value) Hwf0 (pending_initial _ n))
    as (inb & Hw & Hwf & Hpend).
  cbn [app] in Hpend.
  rewrite <- (app_nil_r (frame (tlvConfig cfg) value)) in Hpend.
  destruct (Apollo_Decode_value (NewApolloFrameDecoder cfg) inb value [])
    as (d' & inb' & Hdec & _ & _ & h & Hlat & Hs).
  - exact Hpend.
  - exact Hok.
  - destruct Hpend as (Hb & h & Hlat & Hs). inversion Hlat; subst.
    cbn [app] in Hs. unfold ReadableBytes.
    rewrite <- (readable_length _ Hb), <- Hs. unfold len. by cbn.
  - exists inb, d', inb'. split; [exact Hw |]. split.
    + rewrite Hdec. subst value.
      destruct (PutUint16 (TypeCode m)) as [| b0 [| b1 [| ? ?]]] eqn:Hput;
        try discriminate Hput.
      pose proof (Uint16_PutUint16 _ _ _ Hcode Hput) as Htc.
      cbn [app]. change (Config (NewApolloFrameDecoder cfg)) with cfg.
      by rewrite Htc, Hctor, Hun.
    + symmetry in Hs. by apply app_eq_nil in Hs as [_ Hs].
Qed.

(** X11.  A frame whose body does not unmarshal: let the bytes pending at
    an Apollo decoder begin with a well-formed frame carrying a registered
    type code and a body on which [Unmarshal] fails.  [Decode] consumes the
    whole frame and returns a [DecodeError] of [ApolloFrameDecoder] whose
    cause is the text of the unmarshal error; what follows the frame stays
    pending for the next call. *)
Theorem Apollo_unmarshal_error_reported (d : ApolloFrameDecoder Entity)
    inb typeCode body rest entity unmarshalErr :
  apolloPending d inb
    (frame (tlvConfig (Config d)) (PutUint16 typeCode ++ body) ++ rest) ->
  encodable (tlvConfig (Config d)) (PutUint16 typeCode ++ body) ->
  0 <= typeCode < 2 ^ 16 ->
  createEntity (Config d) typeCode = Some entity ->
  Unmarshal body entity = inl unmarshalErr ->
  exists d' inb',
    Apollo.Decode Unmarshal d inb =
      Some ((None, Some (DecodeError "ApolloFrameDecoder" (Error unmarshalErr))),
            d', inb') /\
    apolloPending d' inb' rest.
Proof.
  intros Hpend Henc Hcode Hctor Hun.
  destruct (Apollo_Decode_value d inb _ rest Hpend Henc)
    as (d' & inb' & Hdec & _ & Hpend').
  - destruct Hpend as (Hb & h & Hlat & Hs).
    apply (f_equal (@length byte)) in Hs.
    unfold frame in Hs. rewrite !length_app in Hs. cbn [length] in Hs.
    rewrite !length_app, PutUint32_length in Hs.
    unfold PutUint16 in Hs. cbn [length] in Hs.
    assert (length h <= 5)%nat by (destruct Hlat; cbn; lia).
    unfold ReadableBytes. rewrite <- (readable_length _ Hb). unfold len. lia.
  - exists d', inb'. split; [| exact Hpend'].
    rewrite Hdec.
    destruct (PutUint16 typeCode) as [| b0 [| b1 [| ? ?]]] eqn:Hput;
      try discriminate Hput.
    pose proof (Uint16_PutUint16 _ _ _ Hcode Hput) as Htc.
    cbn [app]. by rewrite Htc, Hctor, Hun.
Qed.

(** X12.  A frame too short for a type code: when the buffer is not empty
    and the pending bytes begin with a well-formed frame whose value has
    fewer than two bytes, [Decode] consumes the frame and fails with
    [illegal payload]; what follows stays pending. *)
Theorem Apollo_short_payload_rejected (d : ApolloFrameDecoder Entity)
    inb value rest :
  apolloPending d inb (frame (tlvConfig (Config d)) value ++ rest) ->
  encodable (tlvConfig (Config d)) value ->
  len value < 2 ->
  ReadableBytes inb <> 0 ->
  exists d' inb',
    Apollo.Decode Unmarshal d inb =
      Some ((None, Some (DecodeError "ApolloFrameDecoder" "illegal payload")),
            d', inb') /\
    apolloPending d' inb' rest.
Proof.
  intros Hpend Henc Hshort Hne.
  destruct (Apollo_Decode_value d inb value rest Hpend Henc Hne)
    as (d' & inb' & Hdec & _ & Hpend').
  exists d', inb'. split; [| exact Hpend'].
  rewrite Hdec.
  destruct value as [| b0 [| b1 body]]; [done | done |].
  unfold len in Hshort. cbn [length] in Hshort. lia.
Qed.

(** X13.  Registration and lookup: after [RegisterEntity] of a constructor
    that returns the entity [e], [createEntity] yields [e] for the type code
    of [e], whatever was registered for it before, and for every other type
    code what it yielded before. *)
Theorem createEntity_RegisterEntity (cfg : ApolloConfig Entity) e typeCode :
  createEntity (RegisterEntity TypeCode cfg (Some (Some e))) typeCode =
    if bool_decide (typeCode = TypeCode e) then Some e
    else createEntity cfg typeCode.
Proof.
  unfold createEntity, RegisterEntity. cbn [entityConstructors].
  case_bool_decide as Heq.
  - subst. by rewrite lookup_insert_eq.
  - by rewrite lookup_insert_ne.
Qed.

End ApolloFrames.

Lemma Apollo_decode_inverts_encode_witness :
  exists f enc',
    ApolloEncoder.Encode commandTypeCode commandMarshal
      (ApolloEncoder.NewApolloFrameEncoder commandConfig)
      (ApolloEncoder.IsEntity (mkCommand 7 "")) = Some ((Some f, None), enc') /\
    exists inb d' inb',
      WriteBytes (NewElasticUnsafeByteBuf 2048) f = Some inb /\
      Apollo.Decode commandDecode (NewApolloFrameDecoder commandConfig) inb =
        Some ((Some (mkCommand 7 ""), None), d', inb') /\
      readable inb' = [].
Proof.
  eexists _, _. split; [vm_compute; reflexivity |].
  refine (Apollo_decode_inverts_encode commandTypeCode commandMarshal
            commandDecode commandConfig (mkCommand 7 "") (mkCommand 0 "")
            (mkCommand 7 "") [x07] _ _ 2048 _ _ _ _ _).
  - unfold commandTypeCode. lia.
  - reflexivity.
  - reflexivity.
  - reflexivity.
  - vm_compute. reflexivity.
Defined.

Lemma Apollo_unmarshal_error_reported_witness :
  createEntity commandConfig 1 = Some (mkCommand 0 "") /\
  commandDecode [x07; x07] (mkCommand 0 "") =
    inl (ErrorString "msgpack: invalid code") /\
  exists d' inb',
    Apollo.Decode commandDecode (NewApolloFrameDecoder commandConfig)
                  badBodyInput =
      Some ((None, Some (DecodeError "ApolloFrameDecoder"
                                     "msgpack: invalid code")), d', inb') /\
    apolloPending d' inb' [].
Proof.
  split; [reflexivity |]. split; [reflexivity |].
  refine (Apollo_unmarshal_error_reported commandDecode
            (NewApolloFrameDecoder commandConfig) badBodyInput 1 [x07; x07] []
            (mkCommand 0 "") (ErrorString "msgpack: invalid code") _ _ _ _ _).
  - split; [unfold in_bounds, len; cbn; lia |].
    exists []. split; [apply latched_none | reflexivity].
  - split; [unfold len; cbn; lia | unfold len; cbn; lia].
  - lia.
  - reflexivity.
  - reflexivity.
Defined.

Lemma Apollo_short_payload_rejected_witness :
  ReadableBytes shortValueInput <> 0 /\
  exists d' inb',
    Apollo.Decode commandDecode (NewApolloFrameDecoder commandConfig)
                  shortValueInput =
      Some ((None, Some (DecodeError "ApolloFrameDecoder" "illegal payload")),
            d', inb') /\
    apolloPending d' inb' [].
Proof.
  assert (Hne : ReadableBytes shortValueInput <> 0) by (vm_compute; discriminate).
  split; [exact Hne |].
  refine (Apollo_short_payload_rejected commandDecode
            (NewApolloFrameDecoder commandConfig) shortValueInput [x00] []
            _ _ _ Hne).
  - split; [unfold in_bounds, len; cbn; lia |].
    exists []. split; [apply latched_none | reflexivity].
  - split; [unfold len; cbn; lia | unfold len; cbn; lia].
  - unfold len; cbn; lia.
Defined.

(** ** Ack manager: time-out, slot capacity, what a wait leaves *)

(** X14.  Time-out: for a key without a slot, [InitAck], then [WaitAck]
    with a positive time-out and no commit returns [(nil, AckTimeoutError)],
    whichever way the [select] goes, and removes the slot: the manager is as
    it was before [InitAck]. *)
Theorem Ack_wait_times_out `{Countable K} {V : Type}
    (m : SafeAckManager (K := K) V) (k : K) (timeout : Z) (timerFirst : bool) :
  ackRespChanMap m !! k = None ->
  0 < timeout ->
  WaitAck (InitAck m (Some k)) (Some k) timeout timerFirst =
    Returns (None, Some AckTimeoutError, m).
Proof.
  intros Hfree Ht. destruct m as [slots]. cbn [ackRespChanMap] in Hfree.
  unfold InitAck, WaitAck. cbn [ackRespChanMap]. rewrite Hfree.
  cbn [ackRespChanMap]. rewrite lookup_insert_eq.
  rewrite delete_insert_eq, delete_id by done.
  destruct (Z.ltb_spec 0 timeout) as [_ | ?]; [| lia].
  by destruct timerFirst.
Qed.

Lemma Ack_wait_times_out_witness :
  ackRespChanMap (NewAckManager (K := Z) (V := Z)) !! 7 = None /\
  WaitAck (InitAck (NewAckManager (K := Z) (V := Z)) (Some 7)) (Some 7)
          1000000 false =
    Returns (None, Some AckTimeoutError, NewAckManager).
Proof.
  assert (Hfree : ackRespChanMap (NewAckManager (K := Z) (V := Z)) !! 7 = None)
    by reflexivity.
  split; [exact Hfree |].
  apply (Ack_wait_times_out (NewAckManager (K := Z) (V := Z)) 7 1000000 false
           Hfree).
  lia.
Defined.

(** X15.  A slot buffers two commits and no more: after [InitAck] on a
    key without a slot, two [CommitAck] calls return at once and a third one
    blocks as long as nobody waits.  A [WaitAck] then returns the first
    committed value and removes the slot together with the second value,
    which no waiter will ever get. *)
Theorem Ack_slot_holds_two_commits `{Countable K} {V : Type}
    (m : SafeAckManager (K := K) V) (k : K) (v1 v2 v3 : option V)
    (timeout : Z) :
  ackRespChanMap m !! k = None ->
  exists m1 m2,
    CommitAck (InitAck m (Some k)) (Some k) v1 = Returns m1 /\
    CommitAck m1 (Some k) v2 = Returns m2 /\
    CommitAck m2 (Some k) v3 = Blocks /\
    WaitAck m2 (Some k) timeout false = Returns (v1, None, m).
Proof.
  intros Hfree. destruct m as [slots]. cbn [ackRespChanMap] in Hfree.
  eexists _, _. split; [| split; [| split]].
  - unfold InitAck, CommitAck. cbn [ackRespChanMap]. rewrite Hfree.
    cbn [ackRespChanMap]. rewrite lookup_insert_eq. reflexivity.
  - unfold CommitAck. cbn [ackRespChanMap]. rewrite lookup_insert_eq.
    reflexivity.
  - unfold CommitAck. cbn [ackRespChanMap]. rewrite lookup_insert_eq.
    reflexivity.
  - unfold WaitAck. cbn [ackRespChanMap]. rewrite lookup_insert_eq.
    rewrite andb_false_r. cbn [recv app queue data err].
    rewrite !insert_insert_eq, delete_insert_eq, delete_id by done.
    reflexivity.
Qed.

Lemma Ack_slot_holds_two_commits_witness :
  ackRespChanMap (NewAckManager (K := Z) (V := Z)) !! 7 = None /\
  exists m1 m2 : SafeAckManager (K := Z) Z,
    CommitAck (InitAck NewAckManager (Some 7)) (Some 7) (Some 1) = Returns m1 /\
    CommitAck m1 (Some 7) (Some 2) = Returns m2 /\
    CommitAck m2 (Some 7) (Some 3) = Blocks /\
    WaitAck m2 (Some 7) 0 false = Returns (Some 1, None, NewAckManager).
Proof.
  assert (Hfree : ackRespChanMap (NewAckManager (K := Z) (V := Z)) !! 7 = None)
    by reflexivity.
  split; [exact Hfree |].
  exact (Ack_slot_holds_two_commits (NewAckManager (K := Z) (V := Z)) 7
           (Some 1) (Some 2) (Some 3) 0 Hfree).
Defined.

(** X16.  Whenever [WaitAck] returns for a key, with a value, a time-out
    or at once, the manager holds no slot for that key afterwards: a later
    [CommitAck] for the key is dropped without blocking and a later
    [WaitAck] returns [(nil, nil)] at once. *)
Theorem Ack_slot_gone_after_wait `{Countable K} {V : Type}
    (m m' : SafeAckManager (K := K) V) (k : K) (timeout timeout' : Z)
    (timerFirst timerFirst' : bool) (d v : option V) (e : option error) :
  WaitAck m (Some k) timeout timerFirst = Returns (d, e, m') ->
  ackRespChanMap m' !! k = None /\
  CommitAck m' (Some k) v = Returns m' /\
  WaitAck m' (Some k) timeout' timerFirst' = Returns (None, None, m').
Proof.
  intros Hwait.
  assert (Hgone : ackRespChanMap m' !! k = None).
  { unfold WaitAck in Hwait.
    destruct (ackRespChanMap m !! k) as [c |] eqn:Hk.
    - destruct ((0 <? timeout) && timerFirst).
      + injection Hwait as _ _ <-. apply lookup_delete_eq.
      + destruct (recv (Some c)) as [[[r |] c'] | |].
        * injection Hwait as _ _ <-. apply lookup_delete_eq.
        * injection Hwait as _ _ <-. apply lookup_delete_eq.
        * destruct (0 <? timeout); [| discriminate].
          injection Hwait as _ _ <-. apply lookup_delete_eq.
        * discriminate.
    - by injection Hwait as _ _ <-. }
  split; [exact Hgone |].
  unfold CommitAck, WaitAck. by rewrite Hgone.
Qed.

Lemma Ack_slot_gone_after_wait_witness :
  WaitAck committedManager (Some 7) 0 false =
    Returns (Some 42, None, NewAckManager) /\
  CommitAck (NewAckManager (K := Z) (V := Z)) (Some 7) (Some 1) =
    Returns NewAckManager.
Proof.
  assert (Hwait : WaitAck committedManager (Some 7) 0 false =
                    Returns (Some 42, None, NewAckManager))
    by (vm_compute; reflexivity).
  split; [exact Hwait |].
  exact (proj1 (proj2 (Ack_slot_gone_after_wait committedManager NewAckManager
                         7 0 0 false false (Some 42) (Some 1) None Hwait))).
Defined.

(** X17.  Keys do not interfere: [InitAck], [CommitAck] and [WaitAck] for
    one key leave the slot of every other key as it was. *)
Theorem Ack_other_keys_untouched `{Countable K} {V : Type}
    (m : SafeAckManager (K := K) V) (k k' : K) (v : option V)
    (timeout : Z) (timerFirst : bool) :
  k <> k' ->
  ackRespChanMap (InitAck m (Some k)) !! k' = ackRespChanMap m !! k' /\
  (forall m1, CommitAck m (Some k) v = Returns m1 ->
     ackRespChanMap m1 !! k' = ackRespChanMap m !! k') /\
  (forall d e m2, WaitAck m (Some k) timeout timerFirst = Returns (d, e, m2) ->
     ackRespChanMap m2 !! k' = ackRespChanMap m !! k').
Proof.
  intros Hne. split; [| split].
  - unfold InitAck. destruct (ackRespChanMap m !! k); [done |].
    cbn [ackRespChanMap]. by rewrite lookup_insert_ne.
  - intros m1. unfold CommitAck.
    destruct (ackRespChanMap m !! k) as [c |]; [| by intros [= <-]].
    destruct (send (Some c) _); [| discriminate | discriminate].
    intros [= <-]. cbn [ackRespChanMap]. by rewrite lookup_insert_ne.
  - intros d e m2. unfold WaitAck.
    destruct (ackRespChanMap m !! k) as [c |]; [| by intros [= _ _ <-]].
    destruct ((0 <? timeout) && timerFirst).
    { intros [= _ _ <-]. cbn [ackRespChanMap]. by rewrite lookup_delete_ne. }
    destruct (recv (Some c)) as [[[r |] c'] | |].
    + intros [= _ _ <-]. cbn [ackRespChanMap]. by rewrite lookup_delete_ne.
    + intros [= _ _ <-]. cbn [ackRespChanMap]. by rewrite lookup_delete_ne.
    + destruct (0 <? timeout); [| discriminate].
      intros [= _ _ <-]. cbn [ackRespChanMap]. by rewrite lookup_delete_ne.
    + discriminate.
Qed.

Lemma Ack_other_keys_untouched_witness :
  (8 : Z) <> 7 /\
  ackRespChanMap (InitAck committedManager (Some 8)) !! 7 =
    ackRespChanMap committedManager !! 7.
Proof.
  assert (Hne : (8 : Z) <> 7) by discriminate.
  split; [exact Hne |].
  exact (proj1 (Ack_other_keys_untouched committedManager 8 7 None 0 false Hne)).
Defined.

(** ** Pipeline: the outbound queue, repeated calls, what [Stop] leaves *)

Import Outbound.

Section OutboundRuns.
Context {Msg : Type}.
Variable Encode : Msg -> option (list byte) * option error.
Variable connWrite : option (list byte) -> Z * option error.
Implicit Types cp : duplexPipeline Msg.

(** On a running pipeline with room in the queue [SendFuture] appends the
    entry and invokes nothing. *)
Lemma SendFuture_running cp c (entry : OutboundEntity Msg) :
  state cp = stateRunning ->
  outboundDataC cp = Some c -> closed c = false ->
  (length (queue c) < cap c)%nat ->
  SendFuture cp (Some (Data entry)) (Callback entry) =
    ([], Returned (withOutbound cp (mkChan (queue c ++ [entry]) (cap c) false))).
Proof.
  intros Hrun Hc Hopen Hroom. unfold SendFuture, send.
  rewrite Hrun, Hc, Hopen. rewrite (bool_decide_eq_false_2 (stateRunning ≠ stateRunning))
      by (intros Hn; by apply Hn).
  rewrite bool_decide_eq_true_2 by done. by destruct entry.
Qed.

Lemma sendFutures_running entries : forall cp c,
  state cp = stateRunning ->
  outboundDataC cp = Some c -> closed c = false ->
  (length (queue c) + length entries <= cap c)%nat ->
  sendFutures cp entries =
    ([], Returned (withOutbound cp
                     (mkChan (queue c ++ entries) (cap c) false))).
Proof.
  induction entries as [| entry entries IH]; intros cp c Hrun Hc Hopen Hroom.
  - cbn [sendFutures]. rewrite app_nil_r. do 2 f_equal.
    destruct cp, c. cbn in *. by subst.
  - cbn [sendFutures length] in *.
    rewrite (SendFuture_running cp c entry) by (done || lia).
    rewrite (IH _ (mkChan (queue c ++ [entry]) (cap c) false)); try done.
    + cbn [app queue cap]. by rewrite <- app_assoc.
    + cbn [queue cap]. rewrite length_app. cbn [length]. lia.
Qed.

Lemma outboundTurns_all q : forall cp c,
  outboundHandler cp = true ->
  outboundDataC cp = Some c -> queue c = q ->
  exists cp',
    outboundTurns Encode connWrite (length q) cp =
      Some (concat (map (handleOutboundData Encode connWrite) q), cp') /\
    queued cp' = [].
Proof.
  induction q as [| entry q IH]; intros cp c Hw Hc Hq.
  - exists cp. split; [done |]. unfold queued. by rewrite Hc.
  - destruct (IH (withOutbound cp (mkChan q (cap c) (closed c)))
                (mkChan q (cap c) (closed c)))
      as (cp' & Hturns & Hempty); [done | done | done |].
    exists cp'. split; [| exact Hempty].
    cbn [outboundTurns length]. unfold outboundTurn. rewrite Hw, Hc, Hq.
    cbn [mbind option_bind]. rewrite Hturns. done.
Qed.

(** X18.  The outbound queue keeps the order of the sends.  On a running
    pipeline, [SendFuture] calls that find room in the queue invoke no
    callback and append their entries in call order; the outbound worker
    then encodes and writes them, and invokes their callbacks, in that same
    order, each entry once, until the queue is empty. *)
Theorem Outbound_queue_is_fifo cp c (entries : list (OutboundEntity Msg)) :
  state cp = stateRunning -> outboundHandler cp = true ->
  outboundDataC cp = Some c -> closed c = false ->
  (length (queue c) + length entries <= cap c)%nat ->
  exists cp1 cp2,
    sendFutures cp entries = ([], Returned cp1) /\
    queued cp1 = queue c ++ entries /\
    outboundTurns Encode connWrite (length (queue c ++ entries)) cp1 =
      Some (concat (map (handleOutboundData Encode connWrite)
                        (queue c ++ entries)), cp2) /\
    queued cp2 = [].
Proof.
  intros Hrun Hw Hc Hopen Hroom.
  destruct (outboundTurns_all (queue c ++ entries)
              (withOutbound cp (mkChan (queue c ++ entries) (cap c) false))
              (mkChan (queue c ++ entries) (cap c) false))
    as (cp2 & Hturns & Hempty); [done | done | done |].
  eexists _, cp2. split; [by apply sendFutures_running |].
  split; [done |]. split; [exact Hturns | exact Hempty].
Qed.

(** X19.  Back-pressure: on a running pipeline whose outbound queue holds
    [dataChanSize] entries, or whatever its capacity is, [SendFuture] blocks
    without invoking the callback, and so does [Send]. *)
Theorem SendFuture_blocks_on_full_queue cp c (m : Msg) callback self :
  state cp = stateRunning ->
  outboundDataC cp = Some c -> closed c = false ->
  (cap c <= length (queue c))%nat ->
  SendFuture cp (Some m) callback = ([], Blocked) /\
  Send cp (Some m) self = ([], SendBlocked).
Proof.
  intros Hrun Hc Hopen Hfull.
  assert (Hsf : forall cb, SendFuture cp (Some m) cb = ([], Blocked)).
  { intros cb. unfold SendFuture, send. rewrite Hrun, Hc, Hopen.
    rewrite (bool_decide_eq_false_2 (stateRunning ≠ stateRunning))
      by (intros Hn; by apply Hn).
    by rewrite bool_decide_eq_false_2 by lia. }
  split; [apply Hsf |]. unfold Send. by rewrite Hsf.
Qed.

(** X20.  Each lifecycle call is idempotent: calling [Init], [Start] or
    [Stop] a second time right after a call that returned changes nothing
    and does not panic.  In particular a second [Stop] does not close the
    channels again. *)
Theorem lifecycle_call_idempotent cp op cp' :
  call cp op = Some cp' -> call cp' op = Some cp'.
Proof.
  destruct op; cbn [call].
  - intros [= <-]. f_equal.
    destruct (Init_cases cp) as [(_ & Hi & _) | [(_ & Hs & _) | (_ & Hi)]].
    + by rewrite !Hi.
    + unfold Init at 1. by rewrite Hs.
    + rewrite Hi. cbn [fst]. by rewrite Hi.
  - intros [= <-]. f_equal.
    destruct (Start_cases cp) as [(_ & Hs & _) | (_ & Hi)].
    + unfold Start at 1. by rewrite Hs.
    + rewrite Hi. cbn [fst]. by rewrite Hi.
  - intros Hstop.
    destruct (Stop_cases cp) as [(_ & [Hnone | (cp1 & H1 & Hs)]) | (Hs & H1)].
    + congruence.
    + assert (cp1 = cp') as -> by congruence.
      unfold Stop. by rewrite Hs.
    + by assert (cp = cp') as <- by congruence.
Qed.

(** Once shut down with the worker gone and the outbound queue closed,
    nothing moves. *)
Lemma step_after_shutdown self cp evs cp' c :
  state cp = stateShutdown -> outboundHandler cp = false ->
  outboundDataC cp = Some c -> closed c = true ->
  step Encode connWrite self cp evs cp' -> evs = [] /\ cp' = cp.
Proof.
  intros Hs Hw Hc Hclosed Hstep.
  destruct Hstep as [cp evs cp' Hturn | cp op cp' Hcall
                     | cp msg callback evs cp' _ Hsend].
  - unfold outboundTurn in Hturn. by rewrite Hw in Hturn.
  - split; [done |]. destruct op; cbn [call] in Hcall.
    + unfold Init in Hcall. rewrite Hs in Hcall. by injection Hcall as <-.
    + unfold Start in Hcall. rewrite Hs in Hcall. by injection Hcall as <-.
    + unfold Stop in Hcall. rewrite Hs in Hcall. by injection Hcall as <-.
  - unfold SendFuture in Hsend. destruct msg as [m |].
    + rewrite Hc in Hsend. unfold send in Hsend. by rewrite Hclosed in Hsend.
    + by injection Hsend as <- <-.
Qed.

Lemma steps_after_shutdown self cp evs cp' :
  steps Encode connWrite self cp evs cp' ->
  forall c,
    state cp = stateShutdown -> outboundHandler cp = false ->
    outboundDataC cp = Some c -> closed c = true ->
    evs = [] /\ cp' = cp.
Proof.
  induction 1 as [| cp evs cp' evs' cp'' Hstep _ IH];
    intros c Hs Hw Hc Hclosed; [done |].
  destruct (step_after_shutdown _ _ _ _ _ Hs Hw Hc Hclosed Hstep) as [-> ->].
  exact (IH c Hs Hw Hc Hclosed).
Qed.

(** X21.  What [Stop] leaves in the queue stays there.  When [Stop]
    returns on a running pipeline the entries still queued are neither
    handled nor failed: from then on no turn of the outbound worker, no
    lifecycle call and no [SendFuture] that returns changes the pipeline or
    invokes any callback, so a [Send] waiting for one of those entries waits
    for ever. *)
Theorem Stop_abandons_queued_entries cp cp' :
  state cp = stateRunning -> Stop cp = Some cp' ->
  state cp' = stateShutdown /\
  queuedCallbacks cp' = queuedCallbacks cp /\
  forall self evs cp'',
    steps Encode connWrite self cp' evs cp'' -> evs = [] /\ cp'' = cp'.
Proof.
  intros Hrun Hstop. unfold Stop in Hstop.
  rewrite Hrun, (bool_decide_eq_false_2 (stateRunning ≠ stateRunning)) in Hstop
    by (intros Hn; by apply Hn).
  destruct (close (inboundHandlerStopC cp)) as [inStop |];
    [| discriminate].
  destruct (close (outboundHandlerStopC cp)) as [outStop |];
    [| discriminate].
  destruct (close (inboundDataC cp)) as [inData |]; [| discriminate].
  destruct (outboundDataC cp) as [[q n []] |] eqn:Hout; try discriminate.
  cbn [close mbind option_bind closed queue cap] in Hstop.
  injection Hstop as <-.
  split; [done |]. split.
  { unfold queuedCallbacks. cbn [outboundDataC]. by rewrite Hout. }
  intros self evs cp'' Hsteps.
  by eapply (steps_after_shutdown _ _ _ _ Hsteps).
Qed.

End OutboundRuns.

Lemma Outbound_queue_is_fifo_witness :
  state runningPipeline = stateRunning /\
  exists cp1 cp2,
    sendFutures runningPipeline twoEntries = ([], Returned cp1) /\
    outboundTurns echoEncode writeAll 2 cp1 =
      Some ([Written (Some [x07]); Invoked 1 None;
             Written (Some [x08]); Invoked 2 None], cp2) /\
    queued cp2 = [].
Proof.
  split; [reflexivity |].
  destruct (Outbound_queue_is_fifo echoEncode writeAll runningPipeline
              (Chan.make dataChanSize) twoEntries)
    as (cp1 & cp2 & Hsend & _ & Hturns & Hempty).
  - reflexivity.
  - reflexivity.
  - reflexivity.
  - reflexivity.
  - unfold dataChanSize. cbn. lia.
  - exists cp1, cp2. split; [exact Hsend |]. split; [exact Hturns | exact Hempty].
Defined.

Lemma SendFuture_blocks_on_full_queue_witness :
  SendFuture (withOutbound runningPipeline
                (mkChan (replicate 10 (mkEntity 7 None)) dataChanSize false))
             (Some 8) (Some 1%nat) = ([], Blocked).
Proof.
  refine (proj1 (SendFuture_blocks_on_full_queue
                   (withOutbound runningPipeline
                      (mkChan (replicate 10 (mkEntity 7 None)) dataChanSize false))
                   (mkChan (replicate 10 (mkEntity 7 None)) dataChanSize false)
                   8 (Some 1%nat) 2%nat _ _ _ _)).
  - reflexivity.
  - reflexivity.
  - reflexivity.
  - unfold dataChanSize. cbn. lia.
Defined.

Lemma lifecycle_call_idempotent_witness :
  exists cp' : duplexPipeline Z,
    call runningPipeline CallStop = Some cp' /\
    call cp' CallStop = Some cp'.
Proof.
  eexists. split; [reflexivity |].
  apply (lifecycle_call_idempotent runningPipeline CallStop). reflexivity.
Defined.

Lemma Stop_abandons_queued_entries_witness :
  state busyPipeline = stateRunning /\
  exists cp',
    Stop busyPipeline = Some cp' /\
    queuedCallbacks cp' = [1%nat] /\
    forall evs cp'',
      steps echoEncode writeAll 1 cp' evs cp'' -> evs = [] /\ cp'' = cp'.
Proof.
  split; [reflexivity |].
  eexists. split; [reflexivity |].
  destruct (Stop_abandons_queued_entries echoEncode writeAll busyPipeline _
              eq_refl eq_refl) as (_ & Hq & Hdead).
  split; [exact Hq |]. intros evs cp''. apply Hdead.
Defined.

(** ** Channel: sends through the channel, the context map *)

Section ChannelSends.
Context {Msg Val : Type}.
Implicit Types c : Channel.pipelineChannel Msg Val.

(** X22.  A [SendFuture] through the channel settles the callback once.
    Let the channel's pipeline, if it has one, have its queues in place as
    [Init] leaves them.  When the call returns, either the pipeline was not
    running (or there is none): then the callback was invoked exactly once,
    with [ErrInvalidChannel], and nothing was queued or changed; or the
    pipeline was running: then nothing was invoked and the entry was
    appended to the outbound queue, for the worker to handle. *)
Theorem Channel_SendFuture_settles_once c c' (m : Msg) (cb : nat) evs :
  (forall cp, Channel.pipeline c = Some cp -> channelsOpen cp) ->
  Channel.SendFuture c (Some m) (Some cb) = (evs, Returns c') ->
  (Channel.IsConnected c = false /\
   evs = [Invoked cb (Some Channel.ErrInvalidChannel)] /\ c' = c) \/
  (Channel.IsConnected c = true /\ evs = [] /\
   exists cp cp',
     Channel.pipeline c = Some cp /\ Channel.pipeline c' = Some cp' /\
     queued cp' = queued cp ++ [mkEntity m (Some cb)]).
Proof.
  intros Hopen Hsend. unfold Channel.SendFuture, Channel.IsConnected in *.
  destruct (Channel.pipeline c) as [cp |] eqn:Hp.
  2: { injection Hsend as <- <-. by left. }
  destruct (IsRunning cp) eqn:Hrun.
  2: { injection Hsend as <- <-. by left. }
  right. split; [done |].
  unfold IsRunning in Hrun. apply bool_decide_eq_true in Hrun.
  specialize (Hopen cp eq_refl). unfold channelsOpen in Hopen.
  rewrite Hrun in Hopen.
  destruct Hopen as (_ & (ch & Hch & Hclosed) & _).
  unfold SendFuture, send in Hsend. rewrite Hrun, Hch, Hclosed in Hsend.
  rewrite (bool_decide_eq_false_2 (stateRunning ≠ stateRunning)) in Hsend
    by (intros Hn; by apply Hn).
  destruct (bool_decide (length (queue ch) < cap ch)%nat); [| discriminate].
  injection Hsend as <- <-. split; [done |].
  eexists cp, _. split; [done |]. split; [reflexivity |].
  unfold queued. cbn. by rewrite Hch.
Qed.

(** X23.  The context map of a channel: [GetContext] after [AddContext]
    yields the value added for that key and is unchanged for the other
    keys; after [DelContext] it yields nil for that key and is unchanged for
    the others; on a new channel it yields nil for every key. *)
Theorem Channel_context_lookup c (p : option (duplexPipeline Msg))
    (key key' : string) (val : option Val) :
  Channel.contextMap c <> None ->
  Channel.GetContext (Channel.AddContext c key val) key' =
    (if bool_decide (key' = key) then val else Channel.GetContext c key') /\
  Channel.GetContext (Channel.DelContext c key) key' =
    (if bool_decide (key' = key) then None else Channel.GetContext c key') /\
  Channel.GetContext (Channel.NewChannel (Val := Val) p) key' = None.
Proof.
  intros Hmap.
  unfold Channel.GetContext, Channel.AddContext, Channel.DelContext.
  destruct (Channel.contextMap c) as [ctx |]; [| done].
  cbn [Channel.contextMap Channel.NewChannel].
  case_bool_decide as Heq.
  - subst. by rewrite lookup_insert_eq, lookup_delete_eq.
  - by rewrite lookup_insert_ne, lookup_delete_ne.
Qed.

End ChannelSends.

Lemma Channel_SendFuture_settles_once_witness :
  Channel.SendFuture idleChannel (Some 8) (Some 3%nat) =
    ([Invoked 3 (Some Channel.ErrInvalidChannel)], Returns idleChannel) /\
  Channel.IsConnected idleChannel = false.
Proof.
  assert (Hsend : Channel.SendFuture idleChannel (Some 8) (Some 3%nat) =
            ([Invoked 3 (Some Channel.ErrInvalidChannel)], Returns idleChannel))
    by reflexivity.
  split; [exact Hsend |].
  assert (Hopen : forall cp : duplexPipeline Z,
            Channel.pipeline idleChannel = Some cp -> channelsOpen cp).
  { intros cp [= <-]. unfold channelsOpen. cbn.
    repeat split; eexists; split; reflexivity. }
  destruct (Channel_SendFuture_settles_once idleChannel idleChannel 8 3%nat _
              Hopen Hsend) as [(Hc & _) | (Hc & _)].
  - exact Hc.
  - discriminate Hc.
Defined.

Lemma Channel_context_lookup_witness :
  Channel.contextMap idleChannel <> None /\
  Channel.GetContext (Channel.AddContext idleChannel "user" (Some 5)) "user" =
    Some 5.
Proof.
  assert (Hmap : Channel.contextMap idleChannel <> None) by discriminate.
  split; [exact Hmap |].
  exact (proj1 (Channel_context_lookup idleChannel None "user" "user" (Some 5)
                  Hmap)).
Defined.

(** ** Bit set: reading back what was set and cleared *)

Import BitSet.

Lemma int64_small v : - 2 ^ 63 <= v < 2 ^ 63 -> int64 v = v.
Proof.
  intros Hv. unfold int64.
  rewrite Z.mod_small by lia. lia.
Qed.

Lemma locateBit_spec index :
  0 <= index < 2 ^ 63 - 1 -> locateBit index = (index / 8, index mod 8).
Proof.
  intros Hi. unfold locateBit. rewrite int64_small by lia.
  rewrite Z.rem_mod_nonneg, Z.quot_div_nonneg by lia.
  destruct (Z.eqb_spec ((index + 1) mod 8) 0) as [H0 | Hne];
    f_equal; Z.div_mod_to_equations; lia.
Qed.

Lemma mask_spec k : 0 <= k < 8 -> byte_to_Z (mask k) = 2 ^ k.
Proof.
  intros Hk. unfold mask. rewrite byte_to_of_Z.
  rewrite (Z.mod_small k) by lia. rewrite Z.shiftl_1_l.
  apply Z.mod_small. split; [apply Z.pow_nonneg; lia |].
  change 256 with (2 ^ 8). apply Z.pow_lt_mono_r; lia.
Qed.

Lemma land_pow2_testbit x k :
  0 <= k -> (Z.land x (2 ^ k) =? 0) = negb (Z.testbit x k).
Proof.
  intros Hk. destruct (Z.testbit x k) eqn:Hbit; cbn [negb].
  - apply Z.eqb_neq. intros H0.
    assert (Hk' : Z.testbit (Z.land x (2 ^ k)) k = true).
    { by rewrite Z.land_spec, Hbit, Z.pow2_bits_true. }
    rewrite H0, Z.bits_0 in Hk'. discriminate.
  - apply Z.eqb_eq. apply Z.bits_inj_0. intros n.
    rewrite Z.land_spec.
    destruct (Z.eq_dec n k) as [-> | Hne].
    + by rewrite Hbit.
    + destruct (Z.lt_ge_cases n 0).
      * by rewrite (Z.testbit_neg_r x).
      * rewrite Z.pow2_bits_false by lia. apply andb_false_r.
Qed.

Lemma at_index_Some s i :
  0 <= i < len s -> exists b, at_index s i = Some b /\ s !! Z.to_nat i = Some b.
Proof.
  intros Hi. unfold at_index.
  destruct (Z.leb_spec 0 i); [| lia]. destruct (Z.ltb_spec i (len s)); [| lia].
  cbn [andb].
  destruct (lookup_lt_is_Some_2 s (Z.to_nat i)) as [b Hb];
    [unfold len in *; lia |].
  by exists b.
Qed.

Lemma set_index_Some s i v :
  0 <= i < len s -> set_index s i v = Some (<[Z.to_nat i := v]> s).
Proof.
  intros Hi. unfold set_index.
  destruct (Z.leb_spec 0 i); [| lia]. destruct (Z.ltb_spec i (len s)); [| lia].
  done.
Qed.

(** [Get] reads the bit of the backing slice. *)
Lemma Get_bitOf bs index :
  index < 2 ^ 63 - 1 -> Get bs index = Some (bitOf (bytes bs) index).
Proof.
  intros Hi. unfold Get, bitOf, checkCapacity.
  destruct (Z.ltb_spec index 0) as [Hneg | Hnn]; [done |].
  destruct (Z.ltb_spec (len (bytes bs) * 8 - 1) index) as [Hout | Hin];
    cbn [negb].
  - rewrite lookup_ge_None_2; [done |].
    unfold len in *. Z.div_mod_to_equations. lia.
  - rewrite locateBit_spec by lia.
    destruct (at_index_Some (bytes bs) (index / 8)) as (b & -> & ->).
    { unfold len in *. Z.div_mod_to_equations. lia. }
    cbn [mbind option_bind].
    rewrite mask_spec by (Z.div_mod_to_equations; lia).
    rewrite land_pow2_testbit by (Z.div_mod_to_equations; lia).
    by rewrite negb_involutive.
Qed.

(** Zero bytes appended to the slice hold no bit. *)
Lemma bitOf_app_zeros s n index :
  bitOf (s ++ replicate n x00) index = bitOf s index.
Proof.
  unfold bitOf. destruct (index <? 0); [done |].
  destruct (lt_dec (Z.to_nat (index / 8)) (length s)) as [Hlt | Hge].
  - by rewrite lookup_app_l.
  - rewrite lookup_app_r by lia. rewrite (lookup_ge_None_2 s) by lia.
    destruct (replicate n x00 !! _) as [b |] eqn:Hb; [| done].
    apply lookup_replicate in Hb as [-> _]. apply Z.bits_0.
Qed.

(** The bits after one byte of the slice was replaced. *)
Lemma bitOf_insert s i b' index :
  0 <= i < len s -> 0 <= index ->
  bitOf (<[Z.to_nat i := b']> s) index =
    if bool_decide (index / 8 = i)
    then Z.testbit (byte_to_Z b') (index mod 8)
    else bitOf s index.
Proof.
  intros Hi Hj. unfold bitOf.
  destruct (Z.ltb_spec index 0); [lia |].
  case_bool_decide as Heq.
  - subst i. rewrite list_lookup_insert_eq; [done | unfold len in *; lia].
  - rewrite list_lookup_insert_ne; [done |].
    assert (0 <= index / 8) by (Z.div_mod_to_equations; lia). lia.
Qed.

(** The capacity check and growth: the byte of the index is there
    afterwards, and no bit has changed. *)
Lemma checkAndIncreaseCapacity_spec bs index :
  0 <= index < 2 ^ 63 - 1 ->
  exists bs',
    checkAndIncreaseCapacity bs index = Some bs' /\
    wordInUse bs' = wordInUse bs /\
    index / 8 < len (bytes bs') /\
    exists n, bytes bs' = bytes bs ++ replicate n x00.
Proof.
  intros Hi. unfold checkAndIncreaseCapacity, checkCapacity.
  destruct (Z.ltb_spec index 0); [lia |].
  destruct (Z.ltb_spec (len (bytes bs) * 8 - 1) index) as [Hout | Hin];
    cbn [negb].
  - rewrite int64_small by lia.
    rewrite Z.rem_mod_nonneg, Z.quot_div_nonneg by lia.
    set (newCapacity := if (index + 1) mod 8 =? 0 then (index + 1) / 8
                        else (index + 1) / 8 + 1).
    assert (Hnew : newCapacity = index / 8 + 1).
    { subst newCapacity.
      destruct (Z.eqb_spec ((index + 1) mod 8) 0);
        Z.div_mod_to_equations; lia. }
    assert (Hlen : len (bytes bs) <= index / 8)
      by (unfold len in *; Z.div_mod_to_equations; lia).
    assert (Hdiv : 0 <= index / 8) by (Z.div_mod_to_equations; lia).
    rewrite Hnew, make_Some by lia. cbn [mbind option_bind].
    eexists. split; [reflexivity |]. cbn [wordInUse bytes].
    rewrite copy_short by (rewrite length_replicate; unfold len in *; lia).
    rewrite drop_replicate.
    split; [done |]. split; [| by eexists].
    unfold len in *. rewrite length_app, length_replicate. lia.
  - exists bs. split; [done |]. split; [done |].
    split; [unfold len in *; Z.div_mod_to_equations; lia |].
    exists 0%nat. by rewrite app_nil_r.
Qed.

(** [Set] on the backing slice. *)
Lemma SetBit_spec bs index :
  0 <= index < 2 ^ 63 - 1 ->
  exists bs',
    SetBit bs index = Some bs' /\
    wordInUse bs' = wordInUse bs + 1 /\
    len (bytes bs) <= len (bytes bs') /\
    forall j, bitOf (bytes bs') j =
              if bool_decide (j = index) then true else bitOf (bytes bs) j.
Proof.
  intros Hi. unfold SetBit. destruct (Z.ltb_spec index 0); [lia |].
  destruct (checkAndIncreaseCapacity_spec bs index Hi)
    as (bs1 & -> & Hw1 & Hlen1 & n & Hbytes1).
  cbn [mbind option_bind]. rewrite locateBit_spec by done.
  assert (Hdiv : 0 <= index / 8) by (Z.div_mod_to_equations; lia).
  assert (Hmod : 0 <= index mod 8 < 8) by (Z.div_mod_to_equations; lia).
  destruct (at_index_Some (bytes bs1) (index / 8)) as (b & -> & Hb); [lia |].
  cbn [mbind option_bind]. rewrite set_index_Some by lia.
  cbn [mbind option_bind]. eexists. split; [reflexivity |].
  cbn [wordInUse bytes]. split; [lia |]. split.
  { unfold len in *. rewrite length_insert, Hbytes1, length_app. lia. }
  intros j. destruct (Z.lt_ge_cases j 0) as [Hneg | Hnn].
  { rewrite bool_decide_eq_false_2 by lia. unfold bitOf.
    by destruct (Z.ltb_spec j 0); [| lia]. }
  rewrite bitOf_insert by lia.
  rewrite mask_spec, byte_testbit by lia.
  assert (Hjm : 0 <= j mod 8 < 8) by (Z.div_mod_to_equations; lia).
  destruct (Z.leb_spec 0 (j mod 8)); [| lia].
  destruct (Z.ltb_spec (j mod 8) 8); [| lia]. cbn [andb].
  rewrite Z.lor_spec.
  case_bool_decide as Hbyte.
  - case_bool_decide as Heq.
    + subst j. rewrite Z.pow2_bits_true by lia. apply orb_true_r.
    + rewrite Z.pow2_bits_false by (Z.div_mod_to_equations; lia).
      rewrite orb_false_r, <- (bitOf_app_zeros (bytes bs) n), <- Hbytes1.
      unfold bitOf. destruct (Z.ltb_spec j 0); [lia |].
      by rewrite Hbyte, Hb.
  - rewrite bool_decide_eq_false_2 by (intros ->; done).
    by rewrite Hbytes1, bitOf_app_zeros.
Qed.

(** [Clear] on the backing slice. *)
Lemma Clear_spec bs index :
  index < 2 ^ 63 - 1 ->
  exists bs',
    Clear bs index = Some bs' /\
    wordInUse bs' =
      (if bitOf (bytes bs) index then wordInUse bs - 1 else wordInUse bs) /\
    len (bytes bs') = len (bytes bs) /\
    forall j, bitOf (bytes bs') j =
              if bool_decide (j = index) then false else bitOf (bytes bs) j.
Proof.
  intros Hi. unfold Clear.
  destruct (Z.ltb_spec index 0) as [Hneg | Hnn].
  { exists bs. split; [done |].
    assert (Hb : bitOf (bytes bs) index = false).
    { unfold bitOf. by destruct (Z.ltb_spec index 0); [| lia]. }
    rewrite Hb. repeat split; try done.
    intros j. case_bool_decide; by subst. }
  unfold checkCapacity at 1.
  destruct (Z.ltb_spec (len (bytes bs) * 8 - 1) index) as [Hout | Hin];
    cbn [negb].
  { exists bs. split; [done |].
    assert (Hb : bitOf (bytes bs) index = false).
    { unfold bitOf. destruct (Z.ltb_spec index 0); [done |].
      rewrite lookup_ge_None_2; [done |].
      unfold len in *. Z.div_mod_to_equations. lia. }
    rewrite Hb. repeat split; try done.
    intros j. case_bool_decide; by subst. }
  unfold checkAndIncreaseCapacity, checkCapacity.
  destruct (Z.ltb_spec index 0); [lia |].
  destruct (Z.ltb_spec (len (bytes bs) * 8 - 1) index); [lia |].
  cbn [negb mbind option_bind]. rewrite locateBit_spec by lia.
  assert (Hdiv : 0 <= index / 8 < len (bytes bs))
    by (unfold len in *; Z.div_mod_to_equations; lia).
  assert (Hmod : 0 <= index mod 8 < 8) by (Z.div_mod_to_equations; lia).
  destruct (at_index_Some (bytes bs) (index / 8)) as (b & -> & Hb); [lia |].
  cbn [mbind option_bind]. rewrite set_index_Some by lia.
  cbn [mbind option_bind]. eexists. split; [reflexivity |].
  cbn [wordInUse bytes].
  assert (Hbit : bitOf (bytes bs) index = Z.testbit (byte_to_Z b) (index mod 8)).
  { unfold bitOf. destruct (Z.ltb_spec index 0); [lia |]. by rewrite Hb. }
  rewrite mask_spec by lia. split.
  { rewrite land_pow2_testbit, negb_involutive, Hbit by lia. done. }
  split; [unfold len; by rewrite length_insert |].
  intros j. destruct (Z.lt_ge_cases j 0) as [Hjneg | Hjnn].
  { rewrite bool_decide_eq_false_2 by lia. unfold bitOf.
    by destruct (Z.ltb_spec j 0); [| lia]. }
  rewrite bitOf_insert by lia. rewrite byte_testbit.
  assert (Hjm : 0 <= j mod 8 < 8) by (Z.div_mod_to_equations; lia).
  destruct (Z.leb_spec 0 (j mod 8)); [| lia].
  destruct (Z.ltb_spec (j mod 8) 8); [| lia]. cbn [andb].
  rewrite Z.land_spec, Z.lnot_spec by lia.
  case_bool_decide as Hbyte.
  - case_bool_decide as Heq.
    + subst j. rewrite Z.pow2_bits_true by lia. apply andb_false_r.
    + rewrite Z.pow2_bits_false by (Z.div_mod_to_equations; lia).
      cbn [negb]. rewrite andb_true_r.
      unfold bitOf. destruct (Z.ltb_spec j 0); [lia |].
      by rewrite Hbyte, Hb.
  - by rewrite bool_decide_eq_false_2 by (intros ->; done).
Qed.

(** Counting the bits set. *)
Lemma count_update (f g : nat -> bool) n i :
  (i < n)%nat -> (forall j, j <> i -> g j = f j) ->
  (length (List.filter g (seq 0 n)) + (if f i then 1 else 0) =
   length (List.filter f (seq 0 n)) + (if g i then 1 else 0))%nat.
Proof.
  intros Hi Hext.
  replace n with (i + S (n - S i))%nat by lia.
  rewrite seq_app. cbn [seq plus]. rewrite !List.filter_app.
  cbn [List.filter]. rewrite !length_app.
  rewrite (List.filter_ext_in g f (seq 0 i)).
  2: { intros j Hj%in_seq. apply Hext. lia. }
  rewrite (List.filter_ext_in g f (seq (S i) _)).
  2: { intros j Hj%in_seq. apply Hext. lia. }
  destruct (f i), (g i); cbn [length]; lia.
Qed.

Lemma bitOf_beyond s j : len s * 8 <= j -> bitOf s j = false.
Proof.
  intros Hj. unfold bitOf. destruct (j <? 0); [done |].
  rewrite lookup_ge_None_2; [done |].
  unfold len in *. Z.div_mod_to_equations. lia.
Qed.

Lemma setBits_app_zeros s n : setBits (s ++ replicate n x00) = setBits s.
Proof.
  unfold setBits. rewrite length_app, length_replicate.
  replace (8 * (length s + n))%nat with (8 * length s + 8 * n)%nat by lia.
  rewrite seq_app, List.filter_app, length_app.
  rewrite (List.filter_ext _ (fun i => bitOf s (Z.of_nat i)))
    by (intros; apply bitOf_app_zeros).
  rewrite (List.filter_ext_in _ (fun _ => false) (seq _ (8 * n))).
  2: { intros j Hj%in_seq. rewrite bitOf_app_zeros. apply bitOf_beyond.
       unfold len. lia. }
  assert (Hnone : forall l : list nat, List.filter (fun _ => false) l = [])
    by (induction l; done).
  rewrite Hnone. cbn [length]. lia.
Qed.

Lemma setBits_zero s j : setBits s = 0%nat -> bitOf s j = false.
Proof.
  unfold setBits. intros H0. apply nil_length_inv in H0.
  destruct (bitOf s j) eqn:Hbit; [| done]. exfalso.
  assert (Hj : 0 <= j < len s * 8).
  { destruct (Z.lt_ge_cases j 0) as [Hneg | Hnn].
    - unfold bitOf in Hbit. by destruct (Z.ltb_spec j 0); [| lia].
    - destruct (Z.lt_ge_cases j (len s * 8)); [lia |].
      by rewrite bitOf_beyond in Hbit. }
  assert (Hin : In (Z.to_nat j)
                   (List.filter (fun i => bitOf s (Z.of_nat i))
                                (seq 0 (8 * length s)))).
  { apply List.filter_In. split.
    - apply in_seq. unfold len in *. lia.
    - by rewrite Z2Nat.id by lia. }
  by rewrite H0 in Hin.
Qed.

Lemma setBits_range s n :
  (8 * length s <= n)%nat ->
  length (List.filter (fun i => bitOf s (Z.of_nat i)) (seq 0 n)) = setBits s.
Proof.
  intros Hn. unfold setBits.
  replace n with (8 * length s + (n - 8 * length s))%nat at 1 by lia.
  rewrite seq_app, List.filter_app, length_app.
  rewrite (List.filter_ext_in _ (fun _ => false) (seq (0 + _) _)).
  2: { intros j Hj%in_seq. apply bitOf_beyond. unfold len. lia. }
  assert (Hnone : forall l : list nat, List.filter (fun _ => false) l = [])
    by (induction l; done).
  rewrite Hnone. cbn [length]. lia.
Qed.

(** One [Set] adds at most one to the number of bits set. *)
Lemma SetBit_setBits bs index bs' :
  0 <= index < 2 ^ 63 - 1 -> SetBit bs index = Some bs' ->
  wordInUse bs' = wordInUse bs + 1 /\
  (setBits (bytes bs') <= setBits (bytes bs) + 1)%nat.
Proof.
  intros Hi Hset.
  destruct (SetBit_spec bs index Hi) as (bs1 & Hset1 & Hw & Hlen & Hbits).
  rewrite Hset in Hset1. injection Hset1 as <-.
  split; [exact Hw |].
  assert (Hin : index < len (bytes bs') * 8).
  { destruct (Z.lt_ge_cases index (len (bytes bs') * 8)); [done |].
    pose proof (Hbits index) as Hb.
    rewrite bool_decide_eq_true_2, bitOf_beyond in Hb by done. discriminate. }
  assert (Hext : forall j : nat, j <> Z.to_nat index ->
            bitOf (bytes bs') (Z.of_nat j) = bitOf (bytes bs) (Z.of_nat j)).
  { intros j Hj. rewrite Hbits. by rewrite bool_decide_eq_false_2 by lia. }
  pose proof (count_update
                (fun i => bitOf (bytes bs) (Z.of_nat i))
                (fun i => bitOf (bytes bs') (Z.of_nat i))
                (8 * length (bytes bs')) (Z.to_nat index)
                ltac:(unfold len in *; lia) Hext) as Hcount.
  cbv beta in Hcount.
  rewrite (setBits_range (bytes bs)) in Hcount by (unfold len in *; lia).
  fold (setBits (bytes bs')) in Hcount.
  destruct (bitOf (bytes bs) (Z.of_nat (Z.to_nat index))),
           (bitOf (bytes bs') (Z.of_nat (Z.to_nat index))); lia.
Qed.

(** One [Clear] takes the bit, if it was set, off both the counter and the
    number of bits set. *)
Lemma Clear_setBits bs index bs' :
  index < 2 ^ 63 - 1 -> Clear bs index = Some bs' ->
  wordInUse bs' - Z.of_nat (setBits (bytes bs')) =
  wordInUse bs - Z.of_nat (setBits (bytes bs)).
Proof.
  intros Hi Hclear.
  destruct (Clear_spec bs index Hi) as (bs1 & Hclear1 & Hw & Hlen & Hbits).
  rewrite Hclear in Hclear1. injection Hclear1 as <-.
  assert (Hlen' : length (bytes bs') = length (bytes bs))
    by (unfold len in *; lia).
  destruct (bitOf (bytes bs) index) eqn:Hbit.
  - assert (Hin : 0 <= index < len (bytes bs) * 8).
    { destruct (Z.lt_ge_cases index 0) as [Hneg | Hnn].
      - unfold bitOf in Hbit. by destruct (Z.ltb_spec index 0); [| lia].
      - destruct (Z.lt_ge_cases index (len (bytes bs) * 8)); [lia |].
        by rewrite bitOf_beyond in Hbit. }
    assert (Hext : forall j : nat, j <> Z.to_nat index ->
              bitOf (bytes bs') (Z.of_nat j) = bitOf (bytes bs) (Z.of_nat j)).
    { intros j Hj. rewrite Hbits. by rewrite bool_decide_eq_false_2 by lia. }
    pose proof (count_update
                  (fun i => bitOf (bytes bs) (Z.of_nat i))
                  (fun i => bitOf (bytes bs') (Z.of_nat i))
                  (8 * length (bytes bs)) (Z.to_nat index)
                  ltac:(unfold len in *; lia) Hext) as Hcount.
    cbv beta in Hcount.
    fold (setBits (bytes bs)) in Hcount.
    rewrite <- Hlen' in Hcount at 1. fold (setBits (bytes bs')) in Hcount.
    rewrite Z2Nat.id, Hbit, (Hbits index), bool_decide_eq_true_2 in Hcount
      by (done || lia).
    lia.
  - assert (Hsame : setBits (bytes bs') = setBits (bytes bs)).
    { unfold setBits. rewrite Hlen'. f_equal. apply List.filter_ext.
      intros j. rewrite Hbits. case_bool_decide as Heq; [| done].
      by rewrite Heq, Hbit. }
    rewrite Hsame. lia.
Qed.

(** The counter never falls below the number of bits set. *)
Lemma runBitOps_counts ops : forall bs,
  Forall (fun op => opIndex op < 2 ^ 63 - 1) ops ->
  Z.of_nat (setBits (bytes bs)) <= wordInUse bs ->
  exists bs',
    runBitOps bs ops = Some bs' /\
    Z.of_nat (setBits (bytes bs')) <= wordInUse bs'.
Proof.
  induction ops as [| op ops IH]; intros bs Hops Hinv.
  { by exists bs. }
  apply Forall_cons in Hops as [Hop Hops].
  destruct op as [index | index |]; cbn [runBitOps opIndex] in *.
  - destruct (Z.lt_ge_cases index 0) as [Hneg | Hnn].
    { unfold SetBit. destruct (Z.ltb_spec index 0); [| lia].
      cbn [mbind option_bind]. by apply IH. }
    destruct (SetBit_spec bs index ltac:(lia)) as (bs1 & Hset & _).
    rewrite Hset. cbn [mbind option_bind]. apply IH; [done |].
    destruct (SetBit_setBits bs index bs1 ltac:(lia) Hset) as [Hw Hcount].
    lia.
  - destruct (Clear_spec bs index Hop) as (bs1 & Hclear & _).
    rewrite Hclear. cbn [mbind option_bind]. apply IH; [done |].
    pose proof (Clear_setBits bs index bs1 Hop Hclear). lia.
  - apply IH; [done |]. by cbn.
Qed.

(** X24.  [Set] then [Get], for an index from 0 to [2^63 - 2].  An index
    within the capacity needs no allocation, and [Set] returns.  Beyond the
    capacity [Set] allocates a slice that reaches the index, and panics
    when that cannot be allocated.  Whenever [Set] returns, [Get] of that
    index is [true] afterwards and [Get] of every other index is what it
    was before, the bits beyond the old capacity included. *)
Theorem BitSet_Get_after_Set bs index :
  0 <= index < 2 ^ 63 - 1 ->
  (index < len (bytes bs) * 8 -> is_Some (SetBit bs index)) /\
  forall bs',
    SetBit bs index = Some bs' ->
    Get bs' index = Some true /\
    forall j, j < 2 ^ 63 - 1 -> j <> index -> Get bs' j = Get bs j.
Proof.
  intros Hi.
  destruct (SetBit_spec bs index Hi) as (bs1 & Hset & _ & _ & Hbits).
  split; [intros _; by exists bs1 |].
  intros bs' Hset'. rewrite Hset in Hset'. injection Hset' as <-. split.
  - rewrite Get_bitOf, Hbits by lia. by rewrite bool_decide_eq_true_2.
  - intros j Hj Hne. rewrite !Get_bitOf, Hbits by lia.
    by rewrite bool_decide_eq_false_2.
Qed.

Lemma BitSet_Get_after_Set_witness :
  0 <= 9 < 2 ^ 63 - 1 /\
  SetBit NewByteSliceBitSet 9 = Some (mkBitSet [x00; x02] 1) /\
  Get (mkBitSet [x00; x02] 1) 9 = Some true /\
  Get (mkBitSet [x00; x02] 1) 8 = Some false.
Proof.
  assert (Hi : 0 <= 9 < 2 ^ 63 - 1) by lia.
  assert (Hset : SetBit NewByteSliceBitSet 9 = Some (mkBitSet [x00; x02] 1))
    by reflexivity.
  split; [exact Hi |]. split; [exact Hset |].
  destruct (BitSet_Get_after_Set NewByteSliceBitSet 9 Hi) as [_ Hafter].
  destruct (Hafter _ Hset) as [Hget Hother].
  split; [exact Hget |]. rewrite (Hother 8) by lia. reflexivity.
Defined.

(** X25.  [Clear] then [Get]: for every index below [2^63 - 1], negative
    ones included, [Clear] does not panic and does not grow the set, [Get]
    of that index is [false] afterwards, and [Get] of every other index is
    what it was before. *)
Theorem BitSet_Get_after_Clear bs index :
  index < 2 ^ 63 - 1 ->
  exists bs',
    Clear bs index = Some bs' /\
    len (bytes bs') = len (bytes bs) /\
    Get bs' index = Some false /\
    forall j, j < 2 ^ 63 - 1 -> j <> index -> Get bs' j = Get bs j.
Proof.
  intros Hi.
  destruct (Clear_spec bs index Hi) as (bs' & Hclear & _ & Hlen & Hbits).
  exists bs'. split; [exact Hclear |]. split; [exact Hlen |]. split.
  - rewrite Get_bitOf, Hbits by lia. by rewrite bool_decide_eq_true_2.
  - intros j Hj Hne. rewrite !Get_bitOf, Hbits by lia.
    by rewrite bool_decide_eq_false_2.
Qed.

Lemma BitSet_Get_after_Clear_witness :
  exists bs',
    Clear bits3and9 9 = Some bs' /\
    Get bs' 9 = Some false /\ Get bs' 3 = Some true.
Proof.
  destruct (BitSet_Get_after_Clear bits3and9 9 ltac:(lia))
    as (bs' & Hclear & _ & Hget & Hother).
  exists bs'. split; [exact Hclear |]. split; [exact Hget |].
  rewrite (Hother 3) by lia. reflexivity.
Defined.

(** X26.  [IsEmpty] never hides a bit.  After any sequence of [Set],
    [Clear] and [Reset] calls on a new bit set, with indexes below
    [2^63 - 1], in which every call has returned ([Set] panics when the
    slice that reaches its index cannot be allocated), when [IsEmpty] says
    [true] then [Get] is [false] for every index.  The counter behind
    [IsEmpty] counts the [Set] calls, not the bits, so it is never below
    the number of bits set. *)
Theorem BitSet_IsEmpty_sound ops bs :
  Forall (fun op => opIndex op < 2 ^ 63 - 1) ops ->
  runBitOps NewByteSliceBitSet ops = Some bs ->
  Z.of_nat (setBits (bytes bs)) <= wordInUse bs /\
  (IsEmpty bs = true ->
   forall j, j < 2 ^ 63 - 1 -> Get bs j = Some false).
Proof.
  intros Hops Hran.
  destruct (runBitOps_counts ops NewByteSliceBitSet Hops)
    as (bs1 & Hrun & Hinv); [by cbn |].
  rewrite Hran in Hrun. injection Hrun as <-.
  split; [exact Hinv |].
  intros Hempty j Hj. unfold IsEmpty in Hempty. apply Z.eqb_eq in Hempty.
  rewrite Get_bitOf by done. f_equal. apply setBits_zero. lia.
Qed.

Lemma BitSet_IsEmpty_sound_witness :
  Forall (fun op => opIndex op < 2 ^ 63 - 1) [OpSet 9; OpClear 9] /\
  runBitOps NewByteSliceBitSet [OpSet 9; OpClear 9] =
    Some (mkBitSet [x00; x00] 0) /\
  IsEmpty (mkBitSet [x00; x00] 0) = true /\
  forall j, j < 2 ^ 63 - 1 -> Get (mkBitSet [x00; x00] 0) j = Some false.
Proof.
  assert (Hops : Forall (fun op => opIndex op < 2 ^ 63 - 1) [OpSet 9; OpClear 9])
    by (repeat constructor; cbn; lia).
  assert (Hran : runBitOps NewByteSliceBitSet [OpSet 9; OpClear 9] =
                 Some (mkBitSet [x00; x00] 0)) by reflexivity.
  split; [exact Hops |]. split; [exact Hran |].
  destruct (BitSet_IsEmpty_sound [OpSet 9; OpClear 9] _ Hops Hran)
    as [_ Hsound].
  split; [reflexivity |]. by apply Hsound.
Defined.

(** The converse fails: a bit set twice and cleared once leaves the set
    without a bit and [IsEmpty] saying [false]. *)
Example IsEmpty_counts_calls :
  exists bs,
    runBitOps NewByteSliceBitSet setTwiceClearOnce = Some bs /\
    bytes bs = [x00] /\ IsEmpty bs = false.
Proof. eexists. split; [vm_compute; reflexivity |]. by split. Qed.

(** ** The connection reader on frame-aligned reads; the string codec *)

Import ConnRead.

Lemma WriteBytes_betweenReads inb chunk :
  betweenReads inb -> len chunk <= readBufferSize ->
  exists inb',
    WriteBytes inb chunk = Some inb' /\ in_bounds inb' /\
    readable inb' = chunk /\
    writeIndex inb' = len chunk /\ capacity inb' = byteBufferSize.
Proof.
  intros (Hr & Hw & Hcap & Hlen) Hchunk.
  unfold byteBufferSize, readBufferSize in *.
  unfold WriteBytes.
  destruct (Z.eqb_spec (len chunk) 0) as [H0 | Hne].
  { exists inb. assert (chunk = []) as ->
      by (destruct chunk; [done | unfold len in H0; cbn in H0; lia]).
    unfold in_bounds, readable. rewrite Hr, Hw. cbn.
    repeat split; try done; lia. }
  unfold calcWritableBytes. rewrite Hcap, Hw.
  destruct (Z.ltb_spec (2 * 1024 - 0) (len chunk)); [lia |].
  cbn [mbind option_bind]. rewrite Hw.
  rewrite slice_from_Some by lia. cbn [mbind option_bind].
  eexists. split; [reflexivity |].
  rewrite copy_short by (rewrite length_drop; unfold len in *; cbn; lia).
  unfold in_bounds, readable, len in *. cbn.
  rewrite Hr, Z.sub_0_r. change (Z.to_nat 0) with 0%nat.
  rewrite take_0, !drop_0. cbn [app].
  rewrite Z.add_0_l, Nat2Z.id, take_app_length, length_app, length_drop.
  repeat split; try done; lia.
Qed.

Lemma Release_betweenReads inb :
  in_bounds inb -> readIndex inb = writeIndex inb ->
  writeIndex inb <= readBufferSize -> capacity inb = byteBufferSize ->
  exists inb', Release inb = Some inb' /\ betweenReads inb'.
Proof.
  intros (Hr & Hrw & Hw) Heq Hsmall Hcap.
  unfold byteBufferSize, readBufferSize in *. unfold Release.
  rewrite make_Some by lia. cbn [mbind option_bind].
  rewrite slice_Some by lia. cbn [mbind option_bind].
  eexists. split; [reflexivity |].
  unfold betweenReads, byteBufferSize, readBufferSize, len. cbn.
  rewrite copy_length, length_replicate. lia.
Qed.

Section AlignedReads.
Variable cfg : TLVConfig.

(** Draining whole frames consumes them and moves the read index only. *)
Lemma drain_frames_advanced ps : forall fuel c inb,
  pending cfg c inb (wire cfg ps) ->
  Forall (encodable cfg) ps ->
  (length ps < fuel)%nat ->
  exists c' inb',
    drain fuel c inb = Done (map Frame ps, c', inb') /\
    pending cfg c' inb' [] /\ readAdvanced inb inb'.
Proof.
  induction ps as [| p ps IH]; intros fuel c inb Hpend Henc Hfuel.
  - destruct fuel as [| fuel]; [cbn in Hfuel; lia |].
    destruct (Decode_idle cfg c inb Hpend) as (c' & inb' & Hdec & Hpend').
    destruct (Decode_advances c inb (proj1 Hpend))
      as (r & c1 & inb1 & Hdec1 & Hadv & _).
    rewrite Hdec in Hdec1. injection Hdec1 as <- <- <-.
    exists c', inb'. cbn [drain]. by rewrite Hdec.
  - destruct fuel as [| fuel]; [cbn in Hfuel; lia |].
    rewrite wire_cons in Hpend.
    apply Forall_cons in Henc as [Hp Henc].
    destruct (Decode_complete cfg c inb p _ Hpend Hp) as (inb1 & Hdec & Hpend1).
    destruct (Decode_advances c inb (proj1 Hpend))
      as (r & c2 & inb2 & Hdec2 & Hadv & _).
    rewrite Hdec in Hdec2. injection Hdec2 as <- <- <-.
    destruct (IH fuel _ inb1 Hpend1 Henc) as (c' & inb' & Hdr & Hpend' & Hadv');
      [cbn [length] in Hfuel; lia |].
    exists c', inb'. cbn [drain map]. rewrite Hdec, Hdr.
    split; [done |]. split; [done |]. by eapply readAdvanced_trans.
Qed.

(** One pass on a read that holds whole frames. *)
Lemma connReadTurn_aligned fuel tv lv inb ps :
  betweenReads inb ->
  Forall (encodable cfg) ps ->
  len (wire cfg ps) <= readBufferSize ->
  (length ps < fuel)%nat ->
  exists tv' lv' inb',
    connReadTurn fuel (mkDecoder cfg false false tv lv) inb (wire cfg ps) =
      Done (map Frame ps, mkDecoder cfg false false tv' lv', inb') /\
    betweenReads inb'.
Proof.
  intros Hbetween Henc Hlen Hfuel.
  destruct (WriteBytes_betweenReads inb (wire cfg ps) Hbetween Hlen)
    as (inb1 & Hw & Hb1 & Hrd1 & Hw1 & Hcap1).
  destruct (drain_frames_advanced ps fuel (mkDecoder cfg false false tv lv) inb1)
    as (c' & inb2 & Hdr & (Hb2 & h & Hlat & Hs) & Hadv); [| done | done |].
  { split; [done |]. exists []. split; [constructor | by rewrite Hrd1]. }
  symmetry in Hs. apply app_eq_nil in Hs as [-> Hrd2].
  inversion Hlat as [tv' lv' Hc' | |]; subst.
  destruct Hadv as (Hbuf & Hw2 & Hcap2 & Hr2).
  pose proof (readable_length _ Hb2) as Hl2. rewrite Hrd2 in Hl2.
  unfold calcReadableBytes in Hl2. change (len []) with 0 in Hl2.
  destruct (Release_betweenReads inb2) as (inb' & Hrel & Hbetween');
    [done | lia | lia | congruence |].
  exists tv', lv', inb'. split; [| done].
  unfold connReadTurn, feed. by rewrite Hw, Hdr, Hrel.
Qed.

(** X27.  The connection reader on frame-aligned reads.  Let every read
    of the connection return whole frames, at most [readBufferSize] bytes of
    them.  Then every pass of the read loop, with its [Release] at the end,
    hands over exactly the frames of its read, in order, and no byte is
    lost: between two passes the byte buffer is empty, keeps its first
    capacity and has room for the next read. *)
Theorem ConnRead_frame_aligned_reads pss fuel :
  Forall (fun ps => Forall (encodable cfg) ps /\
                    len (wire cfg ps) <= readBufferSize /\
                    (length ps < fuel)%nat) pss ->
  exists c' inb',
    connReadLoop fuel (NewTLVFrameDecoder cfg)
                 (NewElasticUnsafeByteBuf byteBufferSize)
                 (map (wire cfg) pss) =
      Done (map (map Frame) pss, c', inb') /\
    betweenReads inb'.
Proof.
  intros Hpss.
  assert (Hgen : forall tv lv inb,
    betweenReads inb ->
    exists c' inb',
      connReadLoop fuel (mkDecoder cfg false false tv lv) inb
                   (map (wire cfg) pss) =
        Done (map (map Frame) pss, c', inb') /\
      betweenReads inb').
  { induction pss as [| ps pss IH]; intros tv lv inb Hbetween.
    - by eexists _, inb.
    - apply Forall_cons in Hpss as [(Henc & Hlen & Hfuel) Hpss].
      destruct (connReadTurn_aligned fuel tv lv inb ps Hbetween Henc Hlen Hfuel)
        as (tv' & lv' & inb1 & Hturn & Hbetween1).
      destruct (IH Hpss tv' lv' inb1 Hbetween1) as (c' & inb' & Hloop & Hb').
      exists c', inb'. cbn [connReadLoop map]. by rewrite Hturn, Hloop. }
  apply Hgen.
  unfold betweenReads, NewElasticUnsafeByteBuf, byteBufferSize,
    readBufferSize, len. cbn [readIndex writeIndex capacity buffer].
  change (2 * 1024 <? 0) with false. cbv iota.
  rewrite length_replicate. lia.
Qed.

End AlignedReads.

Lemma ConnRead_frame_aligned_reads_witness :
  Forall (fun ps => Forall (encodable testConfig) ps /\
                    len (wire testConfig ps) <= readBufferSize /\
                    (length ps < 3)%nat)
         [[helloWorld; helloWorld]; []; [helloWorld]] /\
  exists c' inb',
    connReadLoop 3 (NewTLVFrameDecoder testConfig)
                 (NewElasticUnsafeByteBuf byteBufferSize)
                 [helloFrame ++ helloFrame; []; helloFrame] =
      Done ([[Frame helloWorld; Frame helloWorld]; []; [Frame helloWorld]],
            c', inb') /\
    betweenReads inb'.
Proof.
  assert (Hok : encodable testConfig helloWorld)
    by (split; unfold len; cbn; lia).
  assert (Hpss : Forall (fun ps => Forall (encodable testConfig) ps /\
                           len (wire testConfig ps) <= readBufferSize /\
                           (length ps < 3)%nat)
                        [[helloWorld; helloWorld]; []; [helloWorld]]).
  { repeat constructor; try exact Hok; try (unfold len, readBufferSize; cbn; lia). }
  split; [exact Hpss |].
  exact (ConnRead_frame_aligned_reads testConfig
           [[helloWorld; helloWorld]; []; [helloWorld]] 3 Hpss).
Defined.

(** X28.  The string decoder decodes nothing.  [StringFrameDecoder.Decode]
    hands its [string] variable to [binary.Read], which rejects it before
    reading.  So on a buffer with readable bytes [Decode] consumes nothing
    and returns a [DecodeError], whatever the bytes are, those the string
    encoder produced included; and the read loop of the connection reader,
    which goes on after an error, calls it again and again and never
    ends: it is out of fuel for every amount of fuel. *)
Theorem StringCodec_decoder_never_decodes inb :
  ReadableBytes inb <> 0 ->
  StringCodec.Decode inb =
    ((None, Some (DecodeError "StringFrameDecoder"
                              "binary.Read: invalid type *string")), inb) /\
  forall fuel, StringCodec.drain fuel inb = OutOfFuel.
Proof.
  intros Hne. apply Z.eqb_neq in Hne.
  assert (Hdec : StringCodec.Decode inb =
    ((None, Some (DecodeError "StringFrameDecoder"
                              "binary.Read: invalid type *string")), inb)).
  { unfold StringCodec.Decode. by rewrite Hne. }
  split; [exact Hdec |].
  induction fuel as [| fuel IH]; [done |].
  cbn [StringCodec.drain]. by rewrite Hdec, IH.
Qed.

Lemma StringCodec_decoder_never_decodes_witness :
  StringCodec.Encode (StringCodec.IsString helloWorld) = (Some helloWorld, None) /\
  ReadableBytes (mkBuf helloWorld 0 12 12) <> 0 /\
  forall fuel, StringCodec.drain fuel (mkBuf helloWorld 0 12 12) = OutOfFuel.
Proof.
  split; [reflexivity |].
  assert (Hne : ReadableBytes (mkBuf helloWorld 0 12 12) <> 0)
    by (vm_compute; discriminate).
  split; [exact Hne |].
  exact (proj2 (StringCodec_decoder_never_decodes (mkBuf helloWorld 0 12 12) Hne)).
Defined.

